(** * ST-API-Retry-Plugin: the interception, classification and retry loop

    A shallow embedding of the plugin's core ([matchesRule],
    [shouldIntercept], [isEmptyContent], [extractResponseContent],
    [getTokenCountFor], [delay], [calculateDelay], [isAbortError] and
    [enhancedFetch]) as it stands in the current revision of the source
    (the revision with the abort-aware [delay] and the token threshold),
    together with the two older variants of [calculateDelay] and
    [matchesRule] kept in the repository.

    Strings are sequences of UTF-16 code units, as in the source language.
    The host's regular-expression engine and JSON parser are not code of
    this repository: they are taken as an interface ([Host]).  The
    asynchronous function [enhancedFetch] is modelled in a state and
    exception monad over a [World] that records the calls made, the state of
    the abort signal and the trace of observable effects. *)

From Stdlib Require Import List ZArith NArith Lia Bool String Ascii DecimalString.
Import ListNotations.

Set Implicit Arguments.
Set Warnings "-register-all".
Local Open Scope Z_scope.

(** ** Strings as sequences of UTF-16 code units *)

Module JsString.

Definition codeunit := N.
Definition jsstring := list codeunit.

(** An ASCII literal as a sequence of code units. *)
Definition js (s : string) : jsstring :=
  map N_of_ascii (list_ascii_of_string s).

(** [s.length] *)
Definition length (s : jsstring) : Z := Z.of_nat (List.length s).

(** WhiteSpace and LineTerminator code units: what [trim] removes and
    what the class [\s] matches. *)
Definition isWhite (c : codeunit) : bool :=
  ((9 <=? c) && (c <=? 13) || (c =? 32) || (c =? 160) || (c =? 5760)
   || (8192 <=? c) && (c <=? 8202) || (c =? 8232) || (c =? 8233)
   || (c =? 8239) || (c =? 8287) || (c =? 12288) || (c =? 65279))%N.

Fixpoint dropWhile (p : codeunit -> bool) (s : jsstring) : jsstring :=
  match s with
  | [] => []
  | c :: s' => if p c then dropWhile p s' else s
  end.

(** [s.trim()] *)
Definition trim (s : jsstring) : jsstring :=
  rev (dropWhile isWhite (rev (dropWhile isWhite s))).

(** [s.replace(/\s/g, '')] *)
Definition stripWhitespace (s : jsstring) : jsstring :=
  filter (fun c => negb (isWhite c)) s.

(** Lower-casing of one code unit of Basic Latin and Latin-1 (up to
    U+00FF): the capital letters A to Z and U+00C0 to U+00DE, the
    multiplication sign U+00D7 apart, move by 32; every other code unit is
    its own lower case.  Beyond U+00FF the language folds further letters,
    some by their neighbours (the final sigma) and some to more than one
    code unit; the model leaves those code units as they are, so it is the
    function of the language on Latin-1 text.  Statements about the folding
    of arbitrary rules and URLs are made for Latin-1 text. *)
Definition lowerUnit (c : codeunit) : codeunit :=
  (if ((65 <=? c) && (c <=? 90)) || ((192 <=? c) && (c <=? 222) && negb (c =? 215))
   then c + 32 else c)%N.

(** [s.toLowerCase()] *)
Definition toLowerCase (s : jsstring) : jsstring := map lowerUnit s.

(** [s.startsWith(t)] *)
Fixpoint startsWith (s t : jsstring) {struct t} : bool :=
  match t, s with
  | [], _ => true
  | _ :: _, [] => false
  | d :: t', c :: s' => (c =? d)%N && startsWith s' t'
  end.

(** [s.endsWith(t)] *)
Definition endsWith (s t : jsstring) : bool := startsWith (rev s) (rev t).

(** [s.includes(t)] *)
Fixpoint includes (s t : jsstring) : bool :=
  startsWith s t ||
  match s with
  | [] => false
  | _ :: s' => includes s' t
  end.

(** [s.slice(1, -1)] *)
Definition slice_1_m1 (s : jsstring) : jsstring := removelast (tl s).

(** [parts.join(sep)] *)
Fixpoint join (sep : jsstring) (parts : list jsstring) : jsstring :=
  match parts with
  | [] => []
  | [p] => p
  | p :: rest => p ++ sep ++ join sep rest
  end.

(** A number in a template literal: its decimal digits. *)
Definition ofZ (z : Z) : jsstring := js (NilZero.string_of_int (Z.to_int z)).

End JsString.
Import JsString.

(** ** Errors and completions *)

(** An error object: [name], [message] and the three properties that
    [enhancedFetch] sets on the error it builds for a non-success status. *)
Record JsError := mkError {
  name : jsstring;
  message : jsstring;
  status : option Z;
  statusText : option jsstring;
  body : option jsstring
}.

(** [new Error(msg)] *)
Definition Error_ (msg : jsstring) : JsError :=
  mkError (js "Error") msg None None None.

(** [new DOMException('Aborted', 'AbortError')] *)
Definition abortError : JsError :=
  mkError (js "AbortError") (js "Aborted") None None None.

(** The exception a host function raises ([SyntaxError], [TypeError]). *)
Definition hostError (nm : string) : JsError :=
  mkError (js nm) [] None None None.

Inductive Completion (A : Type) : Type :=
| Normal (a : A)
| Throw (e : JsError).
Arguments Normal {A} a.
Arguments Throw {A} e.

(** ** The host: regular expressions and JSON *)

Inductive JSON : Type :=
| JNull
| JBool (b : bool)
| JNum (lexeme : jsstring)
| JStr (s : jsstring)
| JArr (items : list JSON)
| JObj (fields : list (jsstring * JSON)).

(** [RegExp_new src] is [new RegExp(src)]: [None] when the constructor
    raises a SyntaxError.  [JSON_parse txt] is [JSON.parse(txt)]: [None]
    when it raises. *)
Class Host := {
  regex : Type;
  RegExp_new : jsstring -> option regex;
  RegExp_test : regex -> jsstring -> bool;
  JSON_parse : jsstring -> option JSON
}.

(** ** Settings *)

(** An element of [settings.interceptRules]: a string, or a value of
    another type. *)
Inductive RuleValue :=
| RuleStr (s : jsstring)
| RuleOther.

(** [settings.interceptRules]: an array, or a value that is not one. *)
Inductive RulesField :=
| RulesArray (rules : list RuleValue)
| RulesNotArray.

(** [baseDelay] is [Some ms] for a stored number and [None] for a stored
    value that [Number] maps to NaN. *)
Record Settings := mkSettings {
  enabled : bool;
  maxRetries : Z;
  baseDelay : option Z;
  enableLogging : bool;
  minContentLength : Z;
  checkWhitespace : bool;
  interceptRules : RulesField;
  enableMinTokenRetry : bool;
  minTokenThreshold : Z
}.

Definition DEFAULT_SETTINGS : Settings :=
  mkSettings true 3 (Some 1000) true 5 true (RulesArray []) true 400.

(** ** Rule matcher *)

Section RuleMatcher.
Context {H : Host}.

(** The test [rule.length >= 2 && rule.startsWith('/') && rule.endsWith('/')]. *)
Definition isRegexRule (rule : jsstring) : bool :=
  (2 <=? length rule)%Z && startsWith rule (js "/") && endsWith rule (js "/").

(** [try { body } catch { return false }] around a completion. *)
Definition orFalse (c : Completion bool) : Completion bool :=
  match c with
  | Normal b => Normal b
  | Throw _ => Normal false
  end.

Definition matchesRule (url : jsstring) (rule : RuleValue) : Completion bool :=
  match rule with
  | RuleOther => Normal false
  | RuleStr [] => Normal false
  | RuleStr r =>
      if isRegexRule r then
        orFalse
          match RegExp_new (slice_1_m1 r) with
          | None => Throw (hostError "SyntaxError")
          | Some re => Normal (RegExp_test re url)
          end
      else
        orFalse (Normal (includes (toLowerCase url) (toLowerCase r)))
  end.

(** [rules.some(rule => matchesRule(url, rule))] *)
Fixpoint some (url : jsstring) (rules : list RuleValue) : Completion bool :=
  match rules with
  | [] => Normal false
  | rule :: rest =>
      match matchesRule url rule with
      | Normal true => Normal true
      | Normal false => some url rest
      | Throw e => Throw e
      end
  end.

Definition shouldIntercept (settings : Settings) (url : jsstring) : Completion bool :=
  let rules :=
    match interceptRules settings with
    | RulesArray l => l
    | RulesNotArray => []
    end in
  match rules with
  | [] => Normal false
  | _ :: _ => some url rules
  end.

End RuleMatcher.

(** ** Content classifier *)

Section Classifier.
Context {H : Host}.
Variable settings : Settings.

Definition isEmptyContent (text : jsstring) : bool :=
  match text with
  | [] => true
  | _ :: _ =>
      let content := trim text in
      if (length content <? minContentLength settings)%Z then true
      else if checkWhitespace settings && (length (stripWhitespace content) =? 0)%Z then true
      else false
  end.

(** Equality of two strings, for property names and error names. *)
Fixpoint strEq (s t : jsstring) : bool :=
  match s, t with
  | [], [] => true
  | c :: s', d :: t' => (c =? d)%N && strEq s' t'
  | _, _ => false
  end.

Fixpoint lookup (k : jsstring) (fields : list (jsstring * JSON)) : option JSON :=
  match fields with
  | [] => None
  | (k', v) :: rest => if strEq k k' then Some v else lookup k rest
  end.

(** [v?.[k]]: the property of an object, [undefined] otherwise. *)
Definition get (k : string) (v : option JSON) : option JSON :=
  match v with
  | Some (JObj fields) => lookup (js k) fields
  | _ => None
  end.

(** [if (typeof v?.[k] === 'string') parts.push(v[k])] *)
Definition strField (k : string) (v : option JSON) : list jsstring :=
  match get k v with
  | Some (JStr s) => [s]
  | _ => []
  end.

Definition choiceParts (ch : JSON) : list jsstring :=
  strField "content" (get "message" (Some ch))
  ++ strField "content" (get "delta" (Some ch))
  ++ strField "text" (Some ch).

Definition resultParts (r : JSON) : list jsstring :=
  strField "text" (Some r) ++ strField "content" (Some r)
  ++ strField "output_text" (Some r).

Definition fallbackKeys : list string :=
  ["message"; "content"; "response"; "output_text"; "generated_text"]%string.

Definition extractParts (obj : JSON) : list jsstring :=
  (match get "choices" (Some obj) with
   | Some (JArr chs) => flat_map choiceParts chs
   | _ => []
   end)
  ++ (match get "results" (Some obj) with
      | Some (JArr rs) => flat_map resultParts rs
      | _ => []
      end)
  ++ flat_map (fun k => strField k (Some obj)) fallbackKeys
  ++ (match get "data" (Some obj) with
      | Some (JArr (d :: _)) => strField "text" (Some d)
      | _ => []
      end).

Definition nonEmpty (s : jsstring) : bool :=
  match s with [] => false | _ :: _ => true end.

(** [null] is [None]; the [catch] returns [null] as well.  The parts are
    joined with a line feed (code unit 10). *)
Definition extractResponseContent (rawText : jsstring) : option jsstring :=
  match JSON_parse rawText with
  | None => None
  | Some obj =>
      match join [10%N] (filter nonEmpty (extractParts obj)) with
      | [] => None
      | joined => Some joined
      end
  end.

(** [Math.ceil(s.length / 3.35)], as the integer [ceil (20 * length / 67)]. *)
Definition approxTokens (s : jsstring) : Z := (20 * length s + 66) / 67.

End Classifier.

(** ** The world of one call of [enhancedFetch] *)

(** What can be had of the body of a response: [response.clone()] raises
    (the body is used or locked), or the clone is made and [text()] on it is
    rejected, or resolves to a text. *)
Inductive BodyAccess :=
| Readable (text : jsstring)
| Unreadable
| Unclonable (e : JsError).

(** A response of the underlying [fetch]. *)
Record Response := mkResponse {
  ok : bool;
  respStatus : Z;
  respStatusText : jsstring;
  bodyAccess : BodyAccess
}.

(** What [clone().text()] resolves to, [None] when it does not. *)
Definition bodyText (r : Response) : option jsstring :=
  match bodyAccess r with
  | Readable text => Some text
  | Unreadable | Unclonable _ => None
  end.

(** What a call of the underlying [fetch] does: it returns a promise that
    is fulfilled or rejected, or the call itself throws before any promise
    is returned. *)
Inductive FetchOutcome :=
| Resolves (r : Response)
| Rejects (e : JsError)
| Throws (e : JsError).

(** [options.signal]: whether it is already aborted when the call starts,
    and during which suspensions of the call (numbered from 0) an abort
    event is dispatched. *)
Record AbortSignal := mkSignal {
  initiallyAborted : bool;
  firesDuring : nat -> bool
}.

(** The collaborators of a call: what the n-th call of [originalFetch]
    does, and [getTokenCountAsyncFn] ([None] when it is not a function; the
    function answers [None] when it raises). *)
Record Env := mkEnv {
  originalFetch : nat -> FetchOutcome;
  getTokenCountAsyncFn : option (jsstring -> option Z)
}.

(** The first argument of [fetch]: a string, or an object with its [url]
    property and its string conversion. *)
Inductive UrlArg :=
| UrlString (s : jsstring)
| UrlObject (urlProp : option jsstring) (asString : jsstring).

Inductive DelayOutcome := Elapsed | Abandoned.

(** What [showBuiltinError] is given: a message, or the stack or message of
    an error object. *)
Inductive ErrorPayload :=
| PayloadText (msg : jsstring)
| PayloadOf (e : JsError).

(** Observable effects, in the order they happen.  Console logging is not
    part of the trace. *)
Inductive Event :=
| EvFetch (n : nat)
| EvRetryToast (nextAttempt totalAttempts delayMs : Z)
| EvDelay (ms : Z) (o : DelayOutcome)
| EvSuccessToast
| EvErrorUI (p : ErrorPayload).

Record World := mkWorld {
  ticks : nat;
  calls : nat;
  aborted : bool;
  trace : list Event
}.

(** A computation: a completion and the world after it. *)
Definition M (A : Type) : Type := World -> Completion A * World.

Definition ret {A} (a : A) : M A := fun w => (Normal a, w).

Definition throw {A} (e : JsError) : M A := fun w => (Throw e, w).

Definition bind {A B} (c : M A) (k : A -> M B) : M B :=
  fun w =>
    match c w with
    | (Normal a, w') => k a w'
    | (Throw e, w') => (Throw e, w')
    end.

(** [try { c } catch (e) { handler e }] *)
Definition tryCatch {A} (c : M A) (handler : JsError -> M A) : M A :=
  fun w =>
    match c w with
    | (Normal a, w') => (Normal a, w')
    | (Throw e, w') => handler e w'
    end.

Declare Scope js_scope.
Delimit Scope js_scope with js_m.
Notation "x <- c ;; k" := (bind c (fun x => k))
  (at level 61, c at next level, right associativity) : js_scope.
Notation "c ;;; k" := (bind c (fun _ => k))
  (at level 61, right associativity) : js_scope.
Local Open Scope js_scope.

Definition emit (e : Event) : M unit :=
  fun w => (Normal tt, mkWorld (ticks w) (calls w) (aborted w) (trace w ++ [e])).

Definition when (b : bool) (c : M unit) : M unit := if b then c else ret tt.

(** ** Abort detection and delay policy *)

(** [Error.prototype.toString] *)
Definition errorToString (e : JsError) : jsstring :=
  match name e, message e with
  | [], m => m
  | n, [] => n
  | n, m => n ++ js ": " ++ m
  end.

Definition isAbortError (error : JsError) : bool :=
  if strEq (name error) (js "AbortError") then true
  else
    let msg := toLowerCase (match message error with
                            | [] => errorToString error
                            | m => m
                            end) in
    includes msg (js "aborted") || includes msg (js "abort")
    || includes msg (js "canceled") || includes msg (js "cancelled").

(** [Number(settings.baseDelay) || 0]: the attempt index is not used. *)
Definition calculateDelay (settings : Settings) (attempt : nat) : Z :=
  match baseDelay settings with
  | Some ms => if ms =? 0 then 0 else ms
  | None => 0
  end.

(** The older variants kept in the repository ([src/index.js] and the
    first revision). *)
Module Legacy.

(** [settings.baseDelay * Math.pow(2, attempt)] *)
Definition calculateDelay (baseDelay : Z) (attempt : nat) : Z :=
  baseDelay * 2 ^ Z.of_nat attempt.

(** [matchesRule] of [src/index.js]: the substring test is [url.includes(rule)],
    case-sensitive. *)
Definition matchesRule {H : Host} (url : jsstring) (rule : RuleValue) : bool :=
  match rule with
  | RuleOther => false
  | RuleStr [] => false
  | RuleStr r =>
      if isRegexRule r then
        match RegExp_new (slice_1_m1 r) with
        | None => false
        | Some re => RegExp_test re url
        end
      else includes url r
  end.

End Legacy.

(** ** The retry controller *)

Section RetryController.
Context {H : Host}.
Variable env : Env.
Variable settings : Settings.
(** [options.signal], [undefined] when [None]. *)
Variable abortSignal : option AbortSignal.

(** One suspension of the call ([await]): time passes, and the signal may
    fire. *)
Definition suspend : M unit :=
  fun w =>
    (Normal tt,
     mkWorld (S (ticks w)) (calls w)
       (match abortSignal with
        | Some sg => aborted w || firesDuring sg (ticks w)
        | None => aborted w
        end)
       (trace w)).

(** [abortSignal?.aborted] *)
Definition signalAborted : M bool :=
  fun w =>
    (Normal (match abortSignal with Some _ => aborted w | None => false end), w).

(** The promise a call has handed back, by the way it settles. *)
Inductive PromiseOf (A : Type) :=
| Fulfilled (a : A)
| Rejected (e : JsError).
Arguments Fulfilled {A} a.
Arguments Rejected {A} e.

(** [originalFetch(url, options)], the call itself: it is counted, and
    either throws there and then or hands back a promise. *)
Definition originalFetchCall : M (PromiseOf Response) :=
  fun w =>
    let n := calls w in
    let w1 := mkWorld (ticks w) (S n) (aborted w) (trace w ++ [EvFetch n]) in
    match originalFetch env n with
    | Resolves r => (Normal (Fulfilled r), w1)
    | Rejects e => (Normal (Rejected e), w1)
    | Throws e => (Throw e, w1)
    end.

(** [await promise] *)
Definition await {A} (promise : PromiseOf A) : M A :=
  suspend ;;;
  match promise with
  | Fulfilled a => ret a
  | Rejected e => throw e
  end.

(** [await originalFetch(url, options)] *)
Definition callOriginalFetch : M Response :=
  promise <- originalFetchCall ;;
  await promise.

(** The rule check found no match:
    [try { ... return originalFetch(url, options); } catch (e) { return originalFetch(url, options); }].
    The promise is returned without being awaited inside the [try], so a
    rejection is not caught there; a call that throws is, and the underlying
    function is then called a second time. *)
Definition passThrough : M Response :=
  promise <- tryCatch originalFetchCall (fun _ => originalFetchCall) ;;
  await promise.

(** [response.clone()] *)
Definition clone (r : Response) : M unit :=
  match bodyAccess r with
  | Unclonable e => throw e
  | Readable _ | Unreadable => ret tt
  end.

(** [await clonedResponse.text()] *)
Definition readText (r : Response) : M jsstring :=
  suspend ;;;
  match bodyText r with
  | Some t => ret t
  | None => throw (hostError "TypeError")
  end.

(** [delay(ms, signal)], awaited. *)
Definition delay (ms : Z) : M unit :=
  fun w =>
    match abortSignal with
    | None =>
        (Normal tt, mkWorld (S (ticks w)) (calls w) (aborted w)
                      (trace w ++ [EvDelay ms Elapsed]))
    | Some sg =>
        if aborted w then (Throw abortError, w)
        else if firesDuring sg (ticks w) then
          (Throw abortError,
           mkWorld (S (ticks w)) (calls w) true (trace w ++ [EvDelay ms Abandoned]))
        else
          (Normal tt, mkWorld (S (ticks w)) (calls w) false
                        (trace w ++ [EvDelay ms Elapsed]))
    end.

Definition showRetryToast (nextAttempt totalAttempts delayMs : Z) : M unit :=
  emit (EvRetryToast nextAttempt totalAttempts delayMs).

(** [showBuiltinError(message)] for a non-empty message. *)
Definition showBuiltinError (p : ErrorPayload) : M unit :=
  match p with
  | PayloadText [] => ret tt
  | _ => emit (EvErrorUI p)
  end.

Definition getTokenCountFor (text : jsstring) : M Z :=
  counted <- tryCatch
               (match getTokenCountAsyncFn env with
                | Some f =>
                    suspend ;;;
                    match f text with
                    | Some n => ret (Some n)
                    | None => throw (hostError "Error")
                    end
                | None => ret None
                end)
               (fun _ => ret None) ;;
  match counted with
  | Some n => ret n
  | None => ret (approxTokens text)
  end.

(** The message of the error raised when every attempt came back empty. *)
Definition exhaustedMessage : jsstring :=
  [26816; 27979; 21040; 31354; 20869; 23481; 65292; 24050; 36830; 32493; 32]%N
  ++ ofZ (maxRetries settings + 1)
  ++ [32; 27425; 23581; 35797; 26080; 26377; 25928; 21709; 24212; 12290]%N.

(** The message of the error raised after the loop when no error was
    recorded. *)
Definition retryLimitMessage : jsstring :=
  [37325; 35797; 27425; 25968; 24050; 36798; 19978; 38480]%N.

(** The error built in the [try] of the non-success branch. *)
Definition httpError (r : Response) (errText : jsstring) : JsError :=
  mkError (js "Error")
    (trim (js "HTTP " ++ ofZ (respStatus r) ++ js ": " ++ respStatusText r
           ++ [10%N] ++ errText))
    (Some (respStatus r)) (Some (respStatusText r)) (Some errText).

(** The error built in the [catch] of the non-success branch. *)
Definition plainHttpError (r : Response) : JsError :=
  Error_ (js "HTTP " ++ ofZ (respStatus r) ++ js ": " ++ respStatusText r).

(** The block run when [!response.ok]: it always raises. *)
Definition nonOkBranch {A} (r : Response) : M A :=
  tryCatch
    (clone r ;;; errText <- readText r ;; throw (httpError r errText))
    (fun _ => throw (plainHttpError r)).

(** The classification of a body: the length and whitespace test, then the
    token threshold. *)
Definition classify (text : jsstring) : M bool :=
  let treatAsEmpty := isEmptyContent settings text in
  if negb treatAsEmpty && enableMinTokenRetry settings then
    let candidate := match extractResponseContent text with
                     | Some c => c
                     | None => text
                     end in
    tokens <- getTokenCountFor candidate ;;
    suspend ;;;
    ret (tokens <? minTokenThreshold settings)
  else ret treatAsEmpty.

(** How the [try] block of one iteration ends when it does not raise. *)
Inductive TryExit :=
| ReturnResponse (r : Response)
| Continue.

Definition tryBlock (attempt : nat) : M TryExit :=
  ab <- signalAborted ;;
  if ab then throw abortError
  else
    response <- callOriginalFetch ;;
    if negb (ok response) then nonOkBranch response
    else
      clone response ;;;
      read <- tryCatch (text <- readText response ;; ret (Some text))
                       (fun _ => ret None) ;;
      match read with
      | None => ret (ReturnResponse response)
      | Some text =>
          treatAsEmpty <- classify text ;;
          if treatAsEmpty then
            if Z.of_nat attempt <? maxRetries settings then
              let delayMs := calculateDelay settings attempt in
              showRetryToast (Z.of_nat attempt + 2) (maxRetries settings + 1) delayMs ;;;
              delay delayMs ;;;
              ret Continue
            else
              ab' <- signalAborted ;;
              when (negb ab') (showBuiltinError (PayloadText exhaustedMessage)) ;;;
              throw (Error_ exhaustedMessage)
          else
            when (0 <? Z.of_nat attempt) (emit EvSuccessToast) ;;;
            ret (ReturnResponse response)
      end.

Definition catchBlock (attempt : nat) (error : JsError) : M unit :=
  ab <- signalAborted ;;
  if isAbortError error || ab then throw error
  else if Z.of_nat attempt <? maxRetries settings then
    let delayMs := calculateDelay settings attempt in
    showRetryToast (Z.of_nat attempt + 2) (maxRetries settings + 1) delayMs ;;;
    delay delayMs
  else ret tt.

(** How one iteration of the loop ends when it does not raise. *)
Inductive LoopStep :=
| Exit (r : Response)
| Next (lastError : option JsError).

Definition iteration (attempt : nat) (lastError : option JsError) : M LoopStep :=
  tryCatch
    (exit <- tryBlock attempt ;;
     match exit with
     | ReturnResponse r => ret (Exit r)
     | Continue => ret (Next lastError)
     end)
    (fun error => catchBlock attempt error ;;; ret (Next (Some error))).

(** The code after the loop. *)
Definition afterLoop {A} (lastError : option JsError) : M A :=
  let err := match lastError with
             | Some e => e
             | None => Error_ retryLimitMessage
             end in
  ab <- signalAborted ;;
  when (negb (isAbortError err) && negb ab) (showBuiltinError (PayloadOf err)) ;;;
  throw err.

(** [for (let attempt = ...; attempt <= settings.maxRetries; attempt++)],
    with [remaining] the number of indices from [attempt] to [maxRetries]. *)
Fixpoint forLoop (remaining attempt : nat) (lastError : option JsError) : M Response :=
  match remaining with
  | O => afterLoop lastError
  | S rest =>
      step <- iteration attempt lastError ;;
      match step with
      | Exit r => ret r
      | Next lastError' => forLoop rest (S attempt) lastError'
      end
  end.

(** [typeof url === 'string' ? url : (url?.url || String(url))] *)
Definition urlText (url : UrlArg) : jsstring :=
  match url with
  | UrlString s => s
  | UrlObject (Some (c :: s)) _ => c :: s
  | UrlObject _ str => str
  end.

Definition enhancedFetch (url : UrlArg) : M Response :=
  if negb (enabled settings) then callOriginalFetch
  else
    match shouldIntercept settings (urlText url) with
    | Normal false => passThrough
    | Throw _ => callOriginalFetch
    | Normal true => forLoop (Z.to_nat (maxRetries settings + 1)) 0 None
    end.

(** The world in which a call starts. *)
Definition initialWorld : World :=
  mkWorld 0 0
    (match abortSignal with Some sg => initiallyAborted sg | None => false end)
    [].

Definition run (url : UrlArg) : Completion Response * World :=
  enhancedFetch url initialWorld.

End RetryController.

(** ** A host for concrete runs *)

(** The metacharacters of the pattern syntax. *)
Definition isMeta (c : codeunit) : bool :=
  existsb (N.eqb c) (js "\^$.|?*+()[]{}").

(** A host that decides the literal fragment: a pattern without
    metacharacters is searched for in the subject, any other source is
    answered as an ill-formed one, and no body is a JSON text.  It serves to
    run the model on scenarios whose patterns are literal (or ill-formed,
    such as an unclosed group) and whose bodies are plain text. *)
Definition literalHost : Host := {|
  regex := jsstring;
  RegExp_new := fun src => if existsb isMeta src then None else Some src;
  RegExp_test := fun re subject => includes subject re;
  JSON_parse := fun _ => None
|}.

(** A response with a success status and the given body. *)
Definition okResponse (text : jsstring) : Response :=
  mkResponse true 200 (js "OK") (Readable text).

(** Settings with one substring rule, [api], and the given retry budget. *)
Definition apiSettings (retries : Z) : Settings :=
  mkSettings true retries (Some 1000) true 5 true
    (RulesArray [RuleStr (js "api")]) true 400.

Definition apiUrl : UrlArg := UrlString (js "https://host/api/chat").

(** Every call answers 200 with an empty body; no tokenizer. *)
Definition emptyEnv : Env := mkEnv (fun _ => Resolves (okResponse [])) None.

(** A signal that fires during the suspension numbered [n]. *)
Definition firesAt (n : nat) : AbortSignal := mkSignal false (Nat.eqb n).

(** ** The rule editor of the settings panel *)

(** [Array.isArray(settings.interceptRules) ? settings.interceptRules : []] *)
Definition rulesArray (rules : RulesField) : list RuleValue :=
  match rules with
  | RulesArray l => l
  | RulesNotArray => []
  end.

(** [settings.interceptRules = rules] *)
Definition withRules (settings : Settings) (rules : list RuleValue) : Settings :=
  mkSettings (enabled settings) (maxRetries settings) (baseDelay settings)
    (enableLogging settings) (minContentLength settings) (checkWhitespace settings)
    (RulesArray rules) (enableMinTokenRetry settings) (minTokenThreshold settings).

(** [arr.splice(idx, 1)] for an integer [idx]: a negative index counts
    from the end, and nothing is removed at or beyond the end. *)
Definition splice1 {A} (idx : Z) (arr : list A) : list A :=
  let len := Z.of_nat (List.length arr) in
  let start := if idx <? 0 then Z.max (len + idx) 0 else Z.min idx len in
  firstn (Z.to_nat start) arr ++ skipn (S (Z.to_nat start)) arr.

(** [arr[idx] = v] for an integer [idx]: an element is replaced; beyond the
    end the array grows, and the holes in between read as values that are
    not strings; a negative index names a property that is not an
    element. *)
Definition assignAt (idx : Z) (v : RuleValue) (arr : list RuleValue) : list RuleValue :=
  let len := Z.of_nat (List.length arr) in
  if idx <? 0 then arr
  else if idx <? len then
    firstn (Z.to_nat idx) arr ++ v :: skipn (S (Z.to_nat idx)) arr
  else arr ++ repeat RuleOther (Z.to_nat (idx - len)) ++ [v].

(** The indices [renderRules] writes in the [data-index] attributes of the
    list items. *)
Definition renderedIndices (rules : list RuleValue) : list nat :=
  seq 0 (List.length rules).

(** The click handlers of the editor.  Each answers the array that it
    stores in [settings.interceptRules] and saves, or [None] when it
    returns without changing or saving anything. *)

(** [#add-intercept-rule], with the text of the pattern field. *)
Definition addRuleClick (input : jsstring) (rules : RulesField)
    : option (list RuleValue) :=
  match trim input with
  | [] => None
  | val => Some (rulesArray rules ++ [RuleStr val])
  end.

(** [.delete-rule], with [parseInt] of the item's [data-index] ([None] for
    NaN), on an array. *)
Definition deleteRuleClick (idx : option Z) (rules : list RuleValue)
    : option (list RuleValue) :=
  match idx with
  | Some i => Some (splice1 i rules)
  | None => None
  end.

(** [.edit-rule], with the index and the answer of the prompt ([None] when
    it is dismissed), on an array. *)
Definition editRuleClick (idx : option Z) (answer : option jsstring)
    (rules : list RuleValue) : option (list RuleValue) :=
  match answer with
  | None => None
  | Some newVal =>
      match trim newVal with
      | [] => None
      | v => Some match idx with
                  | Some i => assignAt i (RuleStr v) rules
                  | None => rules
                  end
      end
  end.

Definition defaultRule : jsstring := js "/chat-completions/generate".

Section InsertDefaultRule.
(** [String(r)] of a rule that is not a string. *)
Variable otherText : jsstring.

Definition ruleText (r : RuleValue) : jsstring :=
  match r with
  | RuleStr s => s
  | RuleOther => otherText
  end.

(** [#insert-default-rule] *)
Definition insertDefaultRuleClick (rules : RulesField) : option (list RuleValue) :=
  let arr := rulesArray rules in
  if existsb (fun r => strEq (toLowerCase (ruleText r)) (toLowerCase defaultRule)) arr
  then None
  else Some (arr ++ [RuleStr defaultRule]).

End InsertDefaultRule.

(** ** Installing and removing the wrapper *)

(** A value of [window.fetch]: a function of the page, or the
    [enhancedFetch] of an instance of the plugin. *)
Inductive FetchImpl :=
| PageFetch (f : nat)
| EnhancedFetch (instance : nat).

(** The page: [window.fetch] and the flag
    [window['ST-API-Retry-Plugin_initialized']]. *)
Record Window := mkWindow {
  fetch : FetchImpl;
  initialized : bool
}.

(** An instance of the plugin: its number and its variable
    [originalFetch], [None] for [null]. *)
Record Instance := mkInstance {
  self : nat;
  savedFetch : option FetchImpl
}.

(** [init]: [originalFetch] is set once, from [window.fetch] as it stands,
    and the wrapper is installed.  (The settings are loaded besides, see
    [loadSettings] below.) *)
Definition init (inst : Instance) (win : Window) : Instance * Window :=
  (mkInstance (self inst)
     (match savedFetch inst with
      | Some f => Some f
      | None => Some (fetch win)
      end),
   mkWindow (EnhancedFetch (self inst)) (initialized win)).

(** [cleanup]: what was saved is put back, if anything was. *)
Definition cleanup (inst : Instance) (win : Window) : Window :=
  match savedFetch inst with
  | Some f => mkWindow f (initialized win)
  | None => win
  end.

(** [initializePlugin]: [cleanup] when the page is flagged, then [init],
    then the flag. *)
Definition initializePlugin (inst : Instance) (win : Window) : Instance * Window :=
  let win1 := if initialized win then cleanup inst win else win in
  let (inst', win2) := init inst win1 in
  (inst', mkWindow (fetch win2) true).

(** What an instance does to the page. *)
Inductive LifecycleOp := DoInit | DoCleanup | DoInitializePlugin.

Definition lifecycleStep (op : LifecycleOp) (st : Instance * Window) : Instance * Window :=
  match op with
  | DoInit => init (fst st) (snd st)
  | DoCleanup => (fst st, cleanup (fst st) (snd st))
  | DoInitializePlugin => initializePlugin (fst st) (snd st)
  end.

Definition lifecycle (ops : list LifecycleOp) (st : Instance * Window) : Instance * Window :=
  fold_left (fun s op => lifecycleStep op s) ops st.

(** ** Loading and saving the settings *)

(** The own properties of an object; the first binding of a key is its
    value. *)
Definition Obj := list (jsstring * JSON).

Definition EXTENSION_NAME : jsstring := js "ST-API-Retry-Plugin".

(** [DEFAULT_SETTINGS] as the object the source spreads. *)
Definition defaultSettingsObject : Obj :=
  [(js "enabled", JBool true);
   (js "maxRetries", JNum (js "3"));
   (js "baseDelay", JNum (js "1000"));
   (js "enableLogging", JBool true);
   (js "minContentLength", JNum (js "5"));
   (js "checkWhitespace", JBool true);
   (js "interceptRules", JArr []);
   (js "enableMinTokenRetry", JBool true);
   (js "minTokenThreshold", JNum (js "400"))].

(** [{ ...a, ...b }] *)
Definition spread (a b : Obj) : Obj := b ++ a.

(** The elements of an array or the code units of a string under their
    indices, from [i] on. *)
Fixpoint indexed {A} (wrap : A -> JSON) (i : nat) (items : list A) : Obj :=
  match items with
  | [] => []
  | x :: rest => (ofZ (Z.of_nat i), wrap x) :: indexed wrap (S i) rest
  end.

(** The properties [{ ...v }] copies from a value. *)
Definition ownProps (v : JSON) : Obj :=
  match v with
  | JObj fields => fields
  | JArr items => indexed (fun x => x) 0 items
  | JStr s => indexed (fun c => JStr [c]) 0 s
  | JNull | JBool _ | JNum _ => []
  end.

Section LoadSettings.
Context {H : Host}.
(** Whether a number, given by its lexeme, is zero. *)
Variable isZero : jsstring -> bool.

(** The truth value of a value in a condition. *)
Definition truthy (v : JSON) : bool :=
  match v with
  | JNull => false
  | JBool b => b
  | JNum lexeme => negb (isZero lexeme)
  | JStr s => nonEmpty s
  | JArr _ | JObj _ => true
  end.

(** The part of [loadSettings] that reads the item of [localStorage]
    ([None] when there is none): the entry of the plugin in the parsed
    object is copied when it is truthy and of type [object], that is an
    object or an array; whatever goes wrong, nothing is read. *)
Definition persistedLocal (item : option jsstring) : Obj :=
  match item with
  | None | Some [] => []
  | Some raw =>
      match JSON_parse raw with
      | None => []
      | Some obj =>
          match obj with
          | JObj top =>
              match lookup EXTENSION_NAME top with
              | Some (JObj fields) => ownProps (JObj fields)
              | Some (JArr items) => ownProps (JArr items)
              | _ => []
              end
          | _ => []
          end
      end
  end.

(** [loadSettings]: the defaults, under the entry read from
    [localStorage], under the entry of the plugin in [extension_settings]
    when it is truthy. *)
Definition loadSettings (item : option jsstring) (extension_settings : Obj) : Obj :=
  let persisted := persistedLocal item in
  let persisted :=
    match lookup EXTENSION_NAME extension_settings with
    | Some entry =>
        if truthy entry then spread persisted (ownProps entry) else persisted
    | None => persisted
    end in
  spread defaultSettingsObject persisted.

End LoadSettings.

(** [extension_settings[EXTENSION_NAME] = { ...settings }] *)
Definition saveSettings (settings : Obj) (extension_settings : Obj) : Obj :=
  (EXTENSION_NAME, JObj (spread [] settings)) :: extension_settings.

(** ** The retry loop of the older revision *)

(** [enhancedFetch] of [src/index.js]: no abort signal, no token
    threshold, no retry notification; the waits follow the exponential
    [calculateDelay], and the rules are compared with the case of the
    letters. *)
Module Older.

Section Controller.
Context {H : Host}.
Variable env : Env.
Variable settings : Settings.

(** [rules.some(rule => matchesRule(url, rule))], false without rules. *)
Definition shouldIntercept (url : jsstring) : bool :=
  existsb (Legacy.matchesRule url) (rulesArray (interceptRules settings)).

(** [calculateDelay(attempt)] as the time the timer of [delay] is set for:
    a delay that is not a number sets it for 0. *)
Definition delayFor (attempt : nat) : Z :=
  match baseDelay settings with
  | Some b => Legacy.calculateDelay b attempt
  | None => 0
  end.

Definition tryBlock (attempt : nat) : M TryExit :=
  response <- callOriginalFetch env None ;;
  if negb (ok response) then nonOkBranch None response
  else
    clone response ;;;
    read <- tryCatch (text <- readText None response ;; ret (Some text))
                     (fun _ => ret None) ;;
    match read with
    | None => ret (ReturnResponse response)
    | Some text =>
        if isEmptyContent settings text then
          if Z.of_nat attempt <? maxRetries settings then
            delay None (delayFor attempt) ;;;
            ret Continue
          else
            showBuiltinError (PayloadText (exhaustedMessage settings)) ;;;
            throw (Error_ (exhaustedMessage settings))
        else
          when (0 <? Z.of_nat attempt) (emit EvSuccessToast) ;;;
          ret (ReturnResponse response)
    end.

Definition catchBlock (attempt : nat) : M unit :=
  if Z.of_nat attempt <? maxRetries settings then delay None (delayFor attempt)
  else ret tt.

Definition iteration (attempt : nat) (lastError : option JsError) : M LoopStep :=
  tryCatch
    (exit <- tryBlock attempt ;;
     match exit with
     | ReturnResponse r => ret (Exit r)
     | Continue => ret (Next lastError)
     end)
    (fun error => catchBlock attempt ;;; ret (Next (Some error))).

Definition afterLoop {A} (lastError : option JsError) : M A :=
  let err := match lastError with
             | Some e => e
             | None => Error_ retryLimitMessage
             end in
  showBuiltinError (PayloadOf err) ;;;
  throw err.

Fixpoint forLoop (remaining attempt : nat) (lastError : option JsError) : M Response :=
  match remaining with
  | O => afterLoop lastError
  | S rest =>
      step <- iteration attempt lastError ;;
      match step with
      | Exit r => ret r
      | Next lastError' => forLoop rest (S attempt) lastError'
      end
  end.

Definition enhancedFetch (url : UrlArg) : M Response :=
  if negb (enabled settings) then callOriginalFetch env None
  else if shouldIntercept (urlText url) then
    forLoop (Z.to_nat (maxRetries settings + 1)) 0 None
  else passThrough env None.

Definition run (url : UrlArg) : Completion Response * World :=
  enhancedFetch url (initialWorld None).

End Controller.

End Older.

(** ** Vocabulary of the statements *)

(** Two strings equal up to the case of their letters. *)
Definition ciEqual (a b : jsstring) : Prop :=
  Forall2 (fun c d => lowerUnit c = lowerUnit d) a b.

(** [rule] occurs in [url] under case-insensitive comparison. *)
Definition ciContains (url rule : jsstring) : Prop :=
  exists pre mid post, url = pre ++ mid ++ post /\ ciEqual mid rule.

(** The capital letters of Basic Latin and Latin-1: A to Z, and U+00C0 to
    U+00DE without the multiplication sign U+00D7.  The small letter of each
    lies 32 code units above it. *)
Definition isCapital (c : codeunit) : bool :=
  ((65 <=? c) && (c <=? 90) || (192 <=? c) && (c <=? 222) && negb (c =? 215))%N.

(** Two code units that are the same letter, in either case. *)
Definition sameLetter (c d : codeunit) : Prop :=
  c = d
  \/ (isCapital c = true /\ d = (c + 32)%N)
  \/ (isCapital d = true /\ c = (d + 32)%N).

(** Two texts that differ at most in the case of their letters. *)
Definition equalIgnoringCase (a b : jsstring) : Prop := Forall2 sameLetter a b.

(** [rule] occurs in [url] when the case of letters is ignored. *)
Definition containsIgnoringCase (url rule : jsstring) : Prop :=
  exists pre mid post, url = pre ++ mid ++ post /\ equalIgnoringCase mid rule.

(** A text of Basic Latin and Latin-1 characters only (code units up to
    U+00FF), where [toLowerCase] acts on each code unit by itself. *)
Definition latin1 (s : jsstring) : Prop := Forall (fun c => (c < 256)%N) s.

(** The completion a caller of the bare [originalFetch] observes. *)
Definition completionOf (o : FetchOutcome) : Completion Response :=
  match o with
  | Resolves r => Normal r
  | Rejects e | Throws e => Throw e
  end.

(** Classes of events. *)
Definition isAbandoned (ev : Event) : bool :=
  match ev with EvDelay _ Abandoned => true | _ => false end.

Definition isErrorUI (ev : Event) : bool :=
  match ev with EvErrorUI _ => true | _ => false end.

Definition isDelay (ev : Event) : bool :=
  match ev with EvDelay _ _ => true | _ => false end.

Definition isFetch (ev : Event) : bool :=
  match ev with EvFetch _ => true | _ => false end.

Definition notAbandoned (ev : Event) : bool := negb (isAbandoned ev).
Definition notErrorUI (ev : Event) : bool := negb (isErrorUI ev).
Definition notDelay (ev : Event) : bool := negb (isDelay ev).

(** Every wait in the trace lasts [d] milliseconds. *)
Definition delayIs (d : Z) (ev : Event) : bool :=
  match ev with EvDelay ms _ => ms =? d | _ => true end.

(** A computation that only adds events of the class [p] to the trace. *)
Definition emitsOnly (p : Event -> bool) {A} (c : M A) : Prop :=
  forall w, exists ext, trace (snd (c w)) = trace w ++ ext /\ forallb p ext = true.

(** What a computation adds to the trace is free of abandoned waits, or it
    ends with the one abandoned wait, and then the computation raises the
    abort error. *)
Definition endsAbandoned {A} (res : Completion A) (ext : list Event) : Prop :=
  forallb notAbandoned ext = true
  \/ exists ext' ms, ext = ext' ++ [EvDelay ms Abandoned]
                     /\ forallb notAbandoned ext' = true
                     /\ res = Throw abortError.

Definition interruptible {A} (c : M A) : Prop :=
  forall w, exists ext, trace (snd (c w)) = trace w ++ ext
                        /\ endsAbandoned (fst (c w)) ext.

(** The events a class [p] must contain for the iteration with index
    [attempt] to emit only events of [p]: a wait happens only while retries
    remain, the error UI only when none does. *)
Record Allows (settings : Settings) (abortSignal : option AbortSignal)
    (p : Event -> bool) (attempt : nat) : Prop := {
  allow_fetch : forall n, p (EvFetch n) = true;
  allow_toast : forall a b c, p (EvRetryToast a b c) = true;
  allow_success : p EvSuccessToast = true;
  allow_delay : (Z.of_nat attempt <? maxRetries settings) = true ->
              emitsOnly p (delay abortSignal (calculateDelay settings attempt));
  allow_ui : (Z.of_nat attempt <? maxRetries settings) = false ->
           forall m, p (EvErrorUI m) = true
}.

(** The count [getTokenCountFor] answers: the tokenizer's when there is one
    and it does not raise, the approximation otherwise. *)
Definition tokenCountOf (env : Env) (text : jsstring) : Z :=
  match getTokenCountAsyncFn env with
  | Some f => match f text with
              | Some n => n
              | None => approxTokens text
              end
  | None => approxTokens text
  end.

(** The text whose tokens are counted: the extracted content, the raw body
    when nothing is extracted. *)
Definition candidateOf {H : Host} (text : jsstring) : jsstring :=
  match extractResponseContent text with
  | Some c => c
  | None => text
  end.

(** The body is classified empty: by the length and whitespace test, or by
    the token threshold when it is enabled. *)
Definition classifiedEmpty {H : Host} (env : Env) (settings : Settings)
    (text : jsstring) : bool :=
  isEmptyContent settings text
  || (enableMinTokenRetry settings
      && (tokenCountOf env (candidateOf text) <? minTokenThreshold settings)).

(** The signal, when there is one, does not fire during the call. *)
Definition neverFires (abortSignal : option AbortSignal) : Prop :=
  match abortSignal with
  | Some sg => forall n, firesDuring sg n = false
  | None => True
  end.

(** No cancellation: no signal, or one that is not aborted when the call
    starts and does not fire during it. *)
Definition silent (abortSignal : option AbortSignal) : Prop :=
  match abortSignal with
  | Some sg => initiallyAborted sg = false /\ forall n, firesDuring sg n = false
  | None => True
  end.

(** Every underlying call answers a success status with a readable body
    that is classified empty. *)
Definition alwaysEmpty {H : Host} (env : Env) (settings : Settings) : Prop :=
  forall n, exists r text,
    originalFetch env n = Resolves r /\ ok r = true
    /\ bodyText r = Some text /\ classifiedEmpty env settings text = true.

(** The number of underlying calls in a trace. *)
Definition fetchCount (tr : list Event) : nat := List.length (filter isFetch tr).

(** The code units of a number in a template literal: the minus sign and
    the decimal digits. *)
Definition digitLike (c : codeunit) : bool :=
  ((c =? 45) || (48 <=? c) && (c <=? 57))%N.

(** A string without the letter a, in either case. *)
Definition noLetterA (s : jsstring) : bool :=
  forallb (fun c => negb (lowerUnit c =? 97)%N) s.

(** ** Scenarios *)

(** Every call answers 200 with the plain text [Hello world]; no tokenizer. *)
Definition helloEnv : Env :=
  mkEnv (fun _ => Resolves (okResponse (js "Hello world"))) None.

(** A failed request: status 500 with a readable body. *)
Definition failedResponse : Response :=
  mkResponse false 500 (js "Internal Server Error") (Readable (js "boom")).

Definition failingEnv : Env := mkEnv (fun _ => Resolves failedResponse) None.

(** A success status whose clone is made but cannot be read. *)
Definition unreadableResponse : Response := mkResponse true 200 (js "OK") Unreadable.

Definition unreadableEnv : Env := mkEnv (fun _ => Resolves unreadableResponse) None.

(** A success status whose body has already been consumed: [clone()]
    raises a [TypeError]. *)
Definition bodyUsedError : JsError :=
  mkError (js "TypeError")
    (js "Failed to execute 'clone' on 'Response': Response body is already used")
    None None None.

Definition usedResponse : Response :=
  mkResponse true 200 (js "OK") (Unclonable bodyUsedError).

Definition usedEnv : Env := mkEnv (fun _ => Resolves usedResponse) None.

(** An underlying function that throws when it is called, before it returns
    any promise. *)
Definition notAFunction : JsError :=
  mkError (js "TypeError") (js "url.startsWith is not a function") None None None.

Definition throwingEnv : Env := mkEnv (fun _ => Throws notAFunction) None.

(** Two empty answers, then a body of 24 characters; the token threshold is
    off, the minimum length is 5, the delay 100 ms. *)
Definition thirdTimeEnv : Env :=
  mkEnv (fun n => if (n <? 2)%nat then Resolves (okResponse [])
                  else Resolves (okResponse (js "hello world this is fine")))
        None.

Definition thirdTimeSettings : Settings :=
  mkSettings true 2 (Some 100) true 5 true (RulesArray [RuleStr (js "/foo/bar/")]) false 400.

(** A rejected call, then a failed status. *)
Definition flakyEnv : Env :=
  mkEnv (fun n => if (n <? 1)%nat
                  then Rejects (mkError (js "TypeError") (js "Failed to fetch") None None None)
                  else Resolves failedResponse)
        None.

(** ** Vocabulary of the loop's outcomes *)

(** [abortSignal?.aborted] in the world [w]. *)
Definition signalled (abortSignal : option AbortSignal) (w : World) : bool :=
  match abortSignal with Some _ => aborted w | None => false end.

(** From [w] to [w']: [k] more underlying calls, the events [ext] added to
    the trace; a signal that has fired stays fired, and its state does not
    change when it never fires. *)
Record Advances (abortSignal : option AbortSignal) (w w' : World)
    (k : nat) (ext : list Event) : Prop := {
  adv_calls : calls w' = (calls w + k)%nat;
  adv_trace : trace w' = trace w ++ ext;
  adv_mono : signalled abortSignal w = true -> signalled abortSignal w' = true;
  adv_quiet : neverFires abortSignal -> aborted w' = aborted w
}.

(** The retry notification and the wait of the iteration [attempt]. *)
Definition retryToast (settings : Settings) (attempt : nat) : Event :=
  EvRetryToast (Z.of_nat attempt + 2) (maxRetries settings + 1)
    (calculateDelay settings attempt).

Definition wait (settings : Settings) (attempt : nat) (o : DelayOutcome) : Event :=
  EvDelay (calculateDelay settings attempt) o.

(** The error of a call that gives no response: the promise is rejected,
    or the call throws. *)
Definition callError (o : FetchOutcome) : option JsError :=
  match o with
  | Rejects e | Throws e => Some e
  | Resolves _ => None
  end.

Section Outcomes.
Context {H : Host}.
Variable env : Env.
Variable settings : Settings.
Variable abortSignal : option AbortSignal.

(** The ways the [try] block of the iteration [attempt] can end, from the
    world [w]. *)
Inductive TryOutcome (attempt : nat) (w : World) : Completion TryExit -> World -> Prop :=
| TryAborted :
    signalled abortSignal w = true ->
    TryOutcome attempt w (Throw abortError) w
| TryRejected e w' :
    signalled abortSignal w = false ->
    callError (originalFetch env (calls w)) = Some e ->
    Advances abortSignal w w' 1 [EvFetch (calls w)] ->
    TryOutcome attempt w (Throw e) w'
| TryStatus r w' :
    signalled abortSignal w = false ->
    originalFetch env (calls w) = Resolves r ->
    ok r = false ->
    Advances abortSignal w w' 1 [EvFetch (calls w)] ->
    TryOutcome attempt w (Throw (plainHttpError r)) w'
| TryUnclonable r e w' :
    signalled abortSignal w = false ->
    originalFetch env (calls w) = Resolves r ->
    ok r = true ->
    bodyAccess r = Unclonable e ->
    Advances abortSignal w w' 1 [EvFetch (calls w)] ->
    TryOutcome attempt w (Throw e) w'
| TryUnreadable r w' :
    signalled abortSignal w = false ->
    originalFetch env (calls w) = Resolves r ->
    ok r = true ->
    bodyAccess r = Unreadable ->
    Advances abortSignal w w' 1 [EvFetch (calls w)] ->
    TryOutcome attempt w (Normal (ReturnResponse r)) w'
| TryContent r text w' :
    signalled abortSignal w = false ->
    originalFetch env (calls w) = Resolves r ->
    ok r = true ->
    bodyText r = Some text ->
    classifiedEmpty env settings text = false ->
    Advances abortSignal w w' 1
      (EvFetch (calls w) :: if 0 <? Z.of_nat attempt then [EvSuccessToast] else []) ->
    TryOutcome attempt w (Normal (ReturnResponse r)) w'
| TryEmptyWaited r text w' :
    signalled abortSignal w = false ->
    originalFetch env (calls w) = Resolves r ->
    ok r = true ->
    bodyText r = Some text ->
    classifiedEmpty env settings text = true ->
    (Z.of_nat attempt <? maxRetries settings) = true ->
    Advances abortSignal w w' 1
      [EvFetch (calls w); retryToast settings attempt; wait settings attempt Elapsed] ->
    signalled abortSignal w' = false ->
    TryOutcome attempt w (Normal Continue) w'
| TryEmptyAbandoned r text w' :
    signalled abortSignal w = false ->
    originalFetch env (calls w) = Resolves r ->
    ok r = true ->
    bodyText r = Some text ->
    classifiedEmpty env settings text = true ->
    (Z.of_nat attempt <? maxRetries settings) = true ->
    Advances abortSignal w w' 1
      [EvFetch (calls w); retryToast settings attempt; wait settings attempt Abandoned] ->
    signalled abortSignal w' = true ->
    TryOutcome attempt w (Throw abortError) w'
| TryEmptyCancelled r text w' :
    signalled abortSignal w = false ->
    originalFetch env (calls w) = Resolves r ->
    ok r = true ->
    bodyText r = Some text ->
    classifiedEmpty env settings text = true ->
    (Z.of_nat attempt <? maxRetries settings) = true ->
    Advances abortSignal w w' 1 [EvFetch (calls w); retryToast settings attempt] ->
    signalled abortSignal w' = true ->
    TryOutcome attempt w (Throw abortError) w'
| TryExhausted r text w' :
    signalled abortSignal w = false ->
    originalFetch env (calls w) = Resolves r ->
    ok r = true ->
    bodyText r = Some text ->
    classifiedEmpty env settings text = true ->
    (Z.of_nat attempt <? maxRetries settings) = false ->
    Advances abortSignal w w' 1
      (EvFetch (calls w) ::
       if signalled abortSignal w' then []
       else [EvErrorUI (PayloadText (exhaustedMessage settings))]) ->
    TryOutcome attempt w (Throw (Error_ (exhaustedMessage settings))) w'.

(** The ways the [catch] block of the iteration [attempt] can end. *)
Inductive CatchOutcome (attempt : nat) (error : JsError) (w : World) :
    Completion unit -> World -> Prop :=
| CatchRethrown :
    isAbortError error || signalled abortSignal w = true ->
    CatchOutcome attempt error w (Throw error) w
| CatchLast :
    isAbortError error = false ->
    signalled abortSignal w = false ->
    (Z.of_nat attempt <? maxRetries settings) = false ->
    CatchOutcome attempt error w (Normal tt) w
| CatchWaited w' :
    isAbortError error = false ->
    signalled abortSignal w = false ->
    (Z.of_nat attempt <? maxRetries settings) = true ->
    Advances abortSignal w w' 0 [retryToast settings attempt; wait settings attempt Elapsed] ->
    signalled abortSignal w' = false ->
    CatchOutcome attempt error w (Normal tt) w'
| CatchAbandoned w' :
    isAbortError error = false ->
    signalled abortSignal w = false ->
    (Z.of_nat attempt <? maxRetries settings) = true ->
    Advances abortSignal w w' 0 [retryToast settings attempt; wait settings attempt Abandoned] ->
    signalled abortSignal w' = true ->
    CatchOutcome attempt error w (Throw abortError) w'.

(** What an answer of the underlying call is to the loop: a failure (a
    rejection, a call that throws, a non-success status, or a success
    status with a body that cannot be cloned), an empty answer, or an
    accepted one (a success status with a body whose clone cannot be read
    or is not classified empty). *)
Definition failureOf (o : FetchOutcome) : option JsError :=
  match o with
  | Rejects e | Throws e => Some e
  | Resolves r =>
      if ok r then
        match bodyAccess r with
        | Unclonable e => Some e
        | Readable _ | Unreadable => None
        end
      else Some (plainHttpError r)
  end.

Definition emptyAnswer (o : FetchOutcome) : bool :=
  match o with
  | Resolves r =>
      ok r && match bodyText r with
              | Some text => classifiedEmpty env settings text
              | None => false
              end
  | Rejects _ | Throws _ => false
  end.

Definition acceptedAnswer (o : FetchOutcome) : option Response :=
  match o with
  | Resolves r =>
      if ok r && match bodyAccess r with
                 | Readable text => negb (classifiedEmpty env settings text)
                 | Unreadable => true
                 | Unclonable _ => false
                 end
      then Some r else None
  | Rejects _ | Throws _ => None
  end.

(** An answer after which the loop goes on when retries remain: an empty
    one, or a failure that [isAbortError] does not recognise. *)
Definition retryableAnswer (o : FetchOutcome) : bool :=
  emptyAnswer o
  || match failureOf o with
     | Some e => negb (isAbortError e)
     | None => false
     end.

(** The error of the last attempt when it is a retryable answer. *)
Definition finalErrorOf (o : FetchOutcome) : JsError :=
  match failureOf o with
  | Some e => e
  | None => Error_ (exhaustedMessage settings)
  end.

(** The success notification of an accepted answer: after a retry, when the
    body was read. *)
Definition successToast (attempt : nat) (r : Response) : list Event :=
  match bodyText r with
  | Some _ => if 0 <? Z.of_nat attempt then [EvSuccessToast] else []
  | None => []
  end.

(** The ways the iteration [attempt] can end, from the world [w]. *)
Inductive IterOutcome (attempt : nat) (lastError : option JsError) (w : World) :
    Completion LoopStep -> World -> Prop :=
| IterAborted :
    signalled abortSignal w = true ->
    IterOutcome attempt lastError w (Throw abortError) w
| IterAccepted r w' :
    signalled abortSignal w = false ->
    acceptedAnswer (originalFetch env (calls w)) = Some r ->
    Advances abortSignal w w' 1 (EvFetch (calls w) :: successToast attempt r) ->
    IterOutcome attempt lastError w (Normal (Exit r)) w'
| IterEmptyRetry w' :
    signalled abortSignal w = false ->
    emptyAnswer (originalFetch env (calls w)) = true ->
    (Z.of_nat attempt <? maxRetries settings) = true ->
    Advances abortSignal w w' 1
      [EvFetch (calls w); retryToast settings attempt; wait settings attempt Elapsed] ->
    signalled abortSignal w' = false ->
    IterOutcome attempt lastError w (Normal (Next lastError)) w'
| IterFailedRetry e w' :
    signalled abortSignal w = false ->
    failureOf (originalFetch env (calls w)) = Some e ->
    isAbortError e = false ->
    (Z.of_nat attempt <? maxRetries settings) = true ->
    Advances abortSignal w w' 1
      [EvFetch (calls w); retryToast settings attempt; wait settings attempt Elapsed] ->
    signalled abortSignal w' = false ->
    IterOutcome attempt lastError w (Normal (Next (Some e))) w'
| IterFailedLast e w' :
    signalled abortSignal w = false ->
    failureOf (originalFetch env (calls w)) = Some e ->
    isAbortError e = false ->
    (Z.of_nat attempt <? maxRetries settings) = false ->
    Advances abortSignal w w' 1 [EvFetch (calls w)] ->
    signalled abortSignal w' = false ->
    IterOutcome attempt lastError w (Normal (Next (Some e))) w'
| IterExhausted w' :
    signalled abortSignal w = false ->
    emptyAnswer (originalFetch env (calls w)) = true ->
    (Z.of_nat attempt <? maxRetries settings) = false ->
    Advances abortSignal w w' 1
      [EvFetch (calls w); EvErrorUI (PayloadText (exhaustedMessage settings))] ->
    signalled abortSignal w' = false ->
    IterOutcome attempt lastError w
      (Normal (Next (Some (Error_ (exhaustedMessage settings))))) w'
| IterPropagated e w' :
    signalled abortSignal w = false ->
    failureOf (originalFetch env (calls w)) = Some e ->
    isAbortError e || signalled abortSignal w' = true ->
    Advances abortSignal w w' 1 [EvFetch (calls w)] ->
    IterOutcome attempt lastError w (Throw e) w'
| IterExhaustedCancelled w' :
    signalled abortSignal w = false ->
    emptyAnswer (originalFetch env (calls w)) = true ->
    (Z.of_nat attempt <? maxRetries settings) = false ->
    Advances abortSignal w w' 1 [EvFetch (calls w)] ->
    signalled abortSignal w' = true ->
    IterOutcome attempt lastError w (Throw (Error_ (exhaustedMessage settings))) w'
| IterWaitCancelled w' rest :
    signalled abortSignal w = false ->
    retryableAnswer (originalFetch env (calls w)) = true ->
    (Z.of_nat attempt <? maxRetries settings) = true ->
    rest = [] \/ rest = [wait settings attempt Abandoned] ->
    Advances abortSignal w w' 1
      (EvFetch (calls w) :: retryToast settings attempt :: rest) ->
    signalled abortSignal w' = true ->
    IterOutcome attempt lastError w (Throw abortError) w'.

End Outcomes.

(** Counts of events in a trace. *)
Definition delayCount (tr : list Event) : nat := List.length (filter isDelay tr).
Definition uiCount (tr : list Event) : nat := List.length (filter isErrorUI tr).

(** The time waited in a trace, in milliseconds. *)
Fixpoint totalWait (tr : list Event) : Z :=
  match tr with
  | [] => 0
  | EvDelay ms _ :: rest => ms + totalWait rest
  | _ :: rest => totalWait rest
  end.

(** Every wait of the trace comes right after a retry notification that
    announces its duration. *)
Inductive Announced : list Event -> Prop :=
| Announced_nil : Announced []
| Announced_wait a b d o tr :
    Announced tr -> Announced (EvRetryToast a b d :: EvDelay d o :: tr)
| Announced_other ev tr :
    isDelay ev = false -> Announced tr -> Announced (ev :: tr).

(** How a failed call is reported: no error UI when the failure is a
    cancellation (an abort error, or the signal has fired), the error UI of
    the raised error as the last event otherwise. *)
Definition Reported (abortSignal : option AbortSignal) (e : JsError) (w' : World)
    (ext : list Event) : Prop :=
  (isAbortError e || signalled abortSignal w' = true
   /\ forallb notErrorUI ext = true)
  \/ (isAbortError e = false /\ signalled abortSignal w' = false
      /\ exists ext0, ext = ext0 ++ [EvErrorUI (PayloadOf e)]).

(** The trace of [m] retried attempts, the first with index [attempt] and
    call number [n]. *)
Fixpoint retriedTrace (settings : Settings) (attempt n m : nat) : list Event :=
  match m with
  | O => []
  | S m' =>
      [EvFetch n; retryToast settings attempt; wait settings attempt Elapsed]
      ++ retriedTrace settings (S attempt) (S n) m'
  end.

(** The waits of a stretch of trace: each announced, [n] of them at most,
    each of the fixed delay. *)
Definition WaitsWithin (settings : Settings) (n : Z) (ext : list Event) : Prop :=
  Announced ext
  /\ Z.of_nat (delayCount ext) <= n
  /\ totalWait ext = Z.of_nat (delayCount ext) * calculateDelay settings 0.

(** A failed request whose status text speaks of a cancellation. *)
Definition cancelledStatusResponse : Response :=
  mkResponse false 499 (js "Request Cancelled") (Readable []).

Definition cancelledStatusEnv : Env :=
  mkEnv (fun _ => Resolves cancelledStatusResponse) None.
(** ** Vocabulary of the matcher and of the classifier *)

(** The rules [shouldIntercept] consults: the array, or none when the
    field is not an array. *)
Definition rulesOf (settings : Settings) : list RuleValue :=
  rulesArray (interceptRules settings).

(** The text [isAbortError] searches: the message, or the string
    conversion of the error when the message is empty. *)
Definition errorText (e : JsError) : jsstring :=
  match message e with
  | [] => errorToString e
  | m => m
  end.

(** The property [k] of the value [v] is the string [s]. *)
Definition hasString (v : JSON) (k : string) (s : jsstring) : Prop :=
  get k (Some v) = Some (JStr s).

(** The string [s] is one of the fields [extractResponseContent] reads in
    the parsed body [obj]: [choices[].message.content],
    [choices[].delta.content], [choices[].text]; [results[].text],
    [results[].content], [results[].output_text]; the properties [message],
    [content], [response], [output_text] and [generated_text] of the body
    itself; and [data[0].text]. *)
Inductive Reads (obj : JSON) (s : jsstring) : Prop :=
| ReadsChoiceMessage chs ch m :
    get "choices" (Some obj) = Some (JArr chs) -> In ch chs ->
    get "message" (Some ch) = Some m -> hasString m "content" s -> Reads obj s
| ReadsChoiceDelta chs ch d :
    get "choices" (Some obj) = Some (JArr chs) -> In ch chs ->
    get "delta" (Some ch) = Some d -> hasString d "content" s -> Reads obj s
| ReadsChoiceText chs ch :
    get "choices" (Some obj) = Some (JArr chs) -> In ch chs ->
    hasString ch "text" s -> Reads obj s
| ReadsResult rs r k :
    get "results" (Some obj) = Some (JArr rs) -> In r rs ->
    In k ["text"; "content"; "output_text"]%string ->
    hasString r k s -> Reads obj s
| ReadsFallback k :
    In k ["message"; "content"; "response"; "output_text"; "generated_text"]%string ->
    hasString obj k s -> Reads obj s
| ReadsFirstData d rest :
    get "data" (Some obj) = Some (JArr (d :: rest)) ->
    hasString d "text" s -> Reads obj s.

(** Settings with two substring rules in the given order. *)
Definition twoRules (first second : string) : Settings :=
  mkSettings true 3 (Some 1000) true 5 true
    (RulesArray [RuleStr (js first); RuleStr (js second)]) true 400.

(** A host whose parser knows one document. *)
Definition documentHost (doc : jsstring) (value : JSON) : Host := {|
  regex := jsstring;
  RegExp_new := fun src => Some src;
  RegExp_test := fun re subject => includes subject re;
  JSON_parse := fun txt => if strEq txt doc then Some value else None
|}.

(** A string literal of a JSON text. *)
Definition quoted (s : string) : jsstring := [34%N] ++ js s ++ [34%N].

(** The text of a chat completion with one choice, an empty delta and a
    message. *)
Definition chatText : jsstring :=
  js "{" ++ quoted "choices" ++ js ":[{"
  ++ quoted "delta" ++ js ":{" ++ quoted "content" ++ js ":" ++ quoted "" ++ js "},"
  ++ quoted "message" ++ js ":{" ++ quoted "content" ++ js ":" ++ quoted "Hi there"
  ++ js "}}]," ++ quoted "response" ++ js ":" ++ quoted "done" ++ js "}".

(** The value of [chatText]. *)
Definition chatDocument : JSON :=
  JObj [(js "choices",
         JArr [JObj [(js "delta", JObj [(js "content", JStr [])]);
                     (js "message", JObj [(js "content", JStr (js "Hi there"))])]]);
        (js "response", JStr (js "done"))].

(** ** Vocabulary of the rule editor *)

(** A rule as the editor stores it: a string that is not empty and has no
    whitespace at its ends. *)
Definition tidy (r : RuleValue) : Prop :=
  match r with
  | RuleStr s => s <> [] /\ trim s = s
  | RuleOther => False
  end.

(** A rule that is a string. *)
Definition isStringRule (r : RuleValue) : bool :=
  match r with
  | RuleStr _ => true
  | RuleOther => false
  end.

(** One click that changes the array.  The index of a delete or edit click
    is one that [renderRules] wrote for the array as it stands. *)
Inductive EditorStep (otherText : jsstring) : list RuleValue -> list RuleValue -> Prop :=
| StepAdd input rules rules' :
    addRuleClick input (RulesArray rules) = Some rules' ->
    EditorStep otherText rules rules'
| StepDelete i rules rules' :
    In i (renderedIndices rules) ->
    deleteRuleClick (Some (Z.of_nat i)) rules = Some rules' ->
    EditorStep otherText rules rules'
| StepEdit i answer rules rules' :
    In i (renderedIndices rules) ->
    editRuleClick (Some (Z.of_nat i)) answer rules = Some rules' ->
    EditorStep otherText rules rules'
| StepInsertDefault rules rules' :
    insertDefaultRuleClick otherText (RulesArray rules) = Some rules' ->
    EditorStep otherText rules rules'.

(** Any number of clicks. *)
Inductive EditorSteps (otherText : jsstring) : list RuleValue -> list RuleValue -> Prop :=
| StepsNone rules : EditorSteps otherText rules rules
| StepsMore rules rules' rules'' :
    EditorStep otherText rules rules' ->
    EditorSteps otherText rules' rules'' ->
    EditorSteps otherText rules rules''.

(** The settings after a click. *)
Definition afterClick (settings : Settings) (stored : option (list RuleValue)) : Settings :=
  match stored with
  | Some rules => withRules settings rules
  | None => settings
  end.

(** ** Vocabulary of the settings objects *)

(** The first of two optional values that is defined. *)
Definition orElse {A} (a b : option A) : option A :=
  match a with
  | Some v => Some v
  | None => b
  end.

(** The properties of the entry of the plugin in [extension_settings]. *)
Definition storedEntry (extension_settings : Obj) : Obj :=
  match lookup EXTENSION_NAME extension_settings with
  | Some entry => ownProps entry
  | None => []
  end.

(** A reading of numbers in which none is zero. *)
Definition neverZero : jsstring -> bool := fun _ => false.

(** An item of [localStorage] that is not a JSON text. *)
Definition brokenItem : jsstring := js "{oops".

(** Stored settings that switch the plugin off and set two retries. *)
Definition storedSettings : Obj :=
  [(EXTENSION_NAME,
    JObj [(js "enabled", JBool false); (js "maxRetries", JNum (js "2"))])].

(** ** Vocabulary of the lifecycle *)

(** What holds of the instance [me] and the page as long as nothing else
    replaces [window.fetch], the page's function being [f]: the instance
    has saved nothing and the page's function is in place, or it has saved
    the page's function, and either that one or its own wrapper is in
    place. *)
Definition Installed (me f : nat) (st : Instance * Window) : Prop :=
  self (fst st) = me
  /\ (savedFetch (fst st) = None /\ fetch (snd st) = PageFetch f
      \/ savedFetch (fst st) = Some (PageFetch f)
         /\ (fetch (snd st) = PageFetch f \/ fetch (snd st) = EnhancedFetch me)).

(** ** Vocabulary of the older revision *)

(** The durations of the waits of a trace, in order. *)
Fixpoint waitsOf (tr : list Event) : list Z :=
  match tr with
  | [] => []
  | EvDelay ms _ :: rest => ms :: waitsOf rest
  | _ :: rest => waitsOf rest
  end.

(** The sum of the waits of the older revisions over the attempts
    [0 .. n - 1]. *)
Definition legacyBackoff (baseDelay : Z) (n : nat) : Z :=
  fold_right Z.add 0 (map (Legacy.calculateDelay baseDelay) (seq 0 n)).

(** The wait of the iteration [attempt] of the older loop when it goes on
    to the next: none once no retry remains. *)
Definition olderWait (settings : Settings) (attempt : nat) : list Event :=
  if Z.of_nat attempt <? maxRetries settings
  then [EvDelay (Older.delayFor settings attempt) Elapsed] else [].

(** Every call is rejected with the abort error; no tokenizer. *)
Definition abortingEnv : Env := mkEnv (fun _ => Rejects abortError) None.

(** * Properties *)

(** ** Strings *)

Lemma startsWith_spec (s t : jsstring) :
  startsWith s t = true <-> exists post, s = t ++ post.
Proof.
  revert s; induction t as [|d t IH]; intros s; simpl.
  - split; [exists s; reflexivity | reflexivity].
  - destruct s as [|c s].
    + split; [discriminate | intros [post Hp]; discriminate].
    + rewrite andb_true_iff, N.eqb_eq, IH. split.
      * intros [-> [post ->]]. exists post. reflexivity.
      * intros [post Hp]. injection Hp as -> ->. split; [reflexivity | exists post; reflexivity].
Qed.

Lemma includes_spec (s t : jsstring) :
  includes s t = true <-> exists pre post, s = pre ++ t ++ post.
Proof.
  induction s as [|c s IH].
  - simpl. rewrite orb_false_r, startsWith_spec. split.
    + intros [post Hp]. exists [], post. exact Hp.
    + intros [pre [post Hp]]. destruct pre; [exists post; exact Hp | discriminate].
  - cbn [includes]. rewrite orb_true_iff, startsWith_spec, IH. split.
    + intros [[post Hp] | [pre [post Hp]]].
      * exists [], post. exact Hp.
      * exists (c :: pre), post. rewrite Hp. reflexivity.
    + intros [pre [post Hp]]. destruct pre as [|c' pre].
      * left. exists post. exact Hp.
      * right. injection Hp as _ Hp. exists pre, post. exact Hp.
Qed.

Lemma toLowerCase_eq_ciEqual (a b : jsstring) :
  toLowerCase a = toLowerCase b <-> ciEqual a b.
Proof.
  unfold toLowerCase, ciEqual. split.
  - revert b; induction a as [|c a IH]; intros [|d b] E; try discriminate; constructor.
    + injection E as E _. exact E.
    + injection E as _ E. apply IH, E.
  - induction 1 as [|c d a b E _ IH]; simpl; congruence.
Qed.

Lemma includes_toLowerCase (url rule : jsstring) :
  includes (toLowerCase url) (toLowerCase rule) = true <-> ciContains url rule.
Proof.
  rewrite includes_spec. unfold ciContains. split.
  - intros [pre [post E]]. unfold toLowerCase in E.
    apply map_eq_app in E. destruct E as [pre' [rest [-> [_ E]]]].
    apply map_eq_app in E. destruct E as [mid [post' [-> [E _]]]].
    exists pre', mid, post'. split; [reflexivity | apply toLowerCase_eq_ciEqual, E].
  - intros [pre [mid [post [-> E]]]]. apply toLowerCase_eq_ciEqual in E.
    exists (toLowerCase pre), (toLowerCase post).
    unfold toLowerCase in *. rewrite !map_app, E. reflexivity.
Qed.

(** *** Folding and letters

    The folding of the model and the pairing of capital and small letters
    say the same: two code units have the same lower case exactly when
    they are the same letter. *)

Lemma lowerUnit_isCapital (c : codeunit) :
  lowerUnit c = if isCapital c then (c + 32)%N else c.
Proof. reflexivity. Qed.

Lemma isCapital_small (c : codeunit) :
  isCapital c = true -> isCapital (c + 32)%N = false.
Proof.
  unfold isCapital. intros Hc.
  rewrite orb_true_iff, !andb_true_iff, negb_true_iff, !N.leb_le, N.eqb_neq in Hc.
  apply orb_false_iff. rewrite !andb_false_iff, !N.leb_gt, negb_false_iff, N.eqb_eq.
  lia.
Qed.

Lemma lowerUnit_sameLetter (c d : codeunit) :
  lowerUnit c = lowerUnit d <-> sameLetter c d.
Proof.
  rewrite !lowerUnit_isCapital. unfold sameLetter.
  destruct (isCapital c) eqn:Hc, (isCapital d) eqn:Hd.
  - split; [intros E; left; lia |].
    intros [E | [[_ E] | [_ E]]]; [lia | |].
    + pose proof (isCapital_small c Hc). subst d. congruence.
    + pose proof (isCapital_small d Hd). subst c. congruence.
  - split; [intros E; right; left; split; [reflexivity | lia] |].
    intros [E | [[_ E] | [E _]]]; [subst d; congruence | lia | discriminate E].
  - split; [intros E; right; right; split; [reflexivity | lia] |].
    intros [E | [[E _] | [_ E]]]; [subst d; congruence | discriminate E | lia].
  - split; [intros E; left; exact E |].
    intros [E | [[E _] | [E _]]]; [exact E | discriminate E | discriminate E].
Qed.

Lemma ciEqual_equalIgnoringCase (a b : jsstring) :
  ciEqual a b <-> equalIgnoringCase a b.
Proof.
  unfold ciEqual, equalIgnoringCase. split; induction 1; constructor; auto;
    apply lowerUnit_sameLetter; assumption.
Qed.

Lemma ciContains_containsIgnoringCase (url rule : jsstring) :
  ciContains url rule <-> containsIgnoringCase url rule.
Proof.
  unfold ciContains, containsIgnoringCase.
  split; intros [pre [mid [post [E Hm]]]]; exists pre, mid, post; (split; [exact E|]);
    apply ciEqual_equalIgnoringCase; exact Hm.
Qed.

(** ** Rule matcher *)

Section RuleMatcherFacts.
Context {H : Host}.

(** No path of [matchesRule] raises. *)
Lemma matchesRule_total (url : jsstring) (rule : RuleValue) :
  exists b, matchesRule url rule = Normal b.
Proof.
  destruct rule as [[|c r]|]; simpl; eauto.
  destruct (isRegexRule (c :: r)); simpl; eauto.
  destruct (RegExp_new _); simpl; eauto.
Qed.

Lemma some_true (url : jsstring) (rules : list RuleValue) (rule : RuleValue) :
  In rule rules -> matchesRule url rule = Normal true -> some url rules = Normal true.
Proof.
  induction rules as [|r rules IH]; intros Hin Hm; [contradiction|].
  simpl. destruct Hin as [-> | Hin].
  - rewrite Hm. reflexivity.
  - destruct (matchesRule_total url r) as [[|] ->]; [reflexivity | apply IH; assumption].
Qed.

(** A rule that passes the test for the form [/pattern/] is its pattern
    between two slashes. *)
Lemma isRegexRule_shape (rule : jsstring) :
  isRegexRule rule = true -> rule = js "/" ++ slice_1_m1 rule ++ js "/".
Proof.
  unfold isRegexRule, endsWith. rewrite !andb_true_iff.
  change (js "/") with [47%N]. intros [[Hlen Hs] He].
  apply startsWith_spec in Hs. destruct Hs as [rest ->].
  apply startsWith_spec in He. destruct He as [front He].
  apply (f_equal (@rev _)) in He. rewrite rev_involutive, rev_app_distr in He.
  simpl in He. destruct (rev front) as [|c mid].
  - injection He as ->. discriminate Hlen.
  - injection He as <- ->.
    unfold slice_1_m1. simpl tl. rewrite removelast_last. reflexivity.
Qed.

End RuleMatcherFacts.

Section RuleMatcherClaims.
Context {H : Host}.

Lemma isRegexRule_nonempty (rule : jsstring) :
  isRegexRule rule = true -> exists c r, rule = c :: r.
Proof.
  destruct rule as [|c r]; [discriminate | eauto].
Qed.


(** C9: a rule of the form [/pattern/] is its pattern between two slashes;
    the pattern is compiled and tested against the URL; when the pattern
    does not compile the rule does not match; in no case does
    [matchesRule] raise. *)
Theorem C9_regex_rule (url rule : jsstring) :
  isRegexRule rule = true ->
  rule = js "/" ++ slice_1_m1 rule ++ js "/"
  /\ (forall re, RegExp_new (slice_1_m1 rule) = Some re ->
      matchesRule url (RuleStr rule) = Normal (RegExp_test re url))
  /\ (RegExp_new (slice_1_m1 rule) = None ->
      matchesRule url (RuleStr rule) = Normal false)
  /\ (exists b, matchesRule url (RuleStr rule) = Normal b).
Proof.
  intros Hre. split; [apply isRegexRule_shape, Hre|].
  destruct (isRegexRule_nonempty _ Hre) as [c [r ->]].
  unfold matchesRule. rewrite Hre.
  repeat split.
  - intros re ->. reflexivity.
  - intros ->. reflexivity.
  - destruct (RegExp_new _); simpl; eauto.
Qed.

(** C10: the rule [//] has the empty pattern; on a host whose engine
    compiles the empty pattern to an expression that matches every string,
    [matchesRule] answers true for every URL, [shouldIntercept] answers
    true for every settings record whose rules contain [//], and
    [enhancedFetch], when enabled, enters the retry loop for every
    request. *)
Theorem C10_double_slash_intercepts_all :
  (exists re, RegExp_new [] = Some re /\ forall url, RegExp_test re url = true) ->
  isRegexRule (js "//") = true
  /\ slice_1_m1 (js "//") = []
  /\ (forall url, matchesRule url (RuleStr (js "//")) = Normal true)
  /\ (forall settings rules url,
        interceptRules settings = RulesArray rules ->
        In (RuleStr (js "//")) rules ->
        shouldIntercept settings url = Normal true)
  /\ (forall env settings sig rules url,
        enabled settings = true ->
        interceptRules settings = RulesArray rules ->
        In (RuleStr (js "//")) rules ->
        enhancedFetch env settings sig url
        = forLoop env settings sig (Z.to_nat (maxRetries settings + 1)) 0 None).
Proof.
  intros [re [Hnew Htest]].
  assert (Hm : forall url, matchesRule url (RuleStr (js "//")) = Normal true).
  { intros url. change (js "//") with [47%N; 47%N]. unfold matchesRule.
    change (isRegexRule [47%N; 47%N]) with true. cbv iota.
    change (slice_1_m1 [47%N; 47%N]) with (@nil codeunit).
    rewrite Hnew. simpl. rewrite Htest. reflexivity. }
  assert (Hs : forall settings rules url,
             interceptRules settings = RulesArray rules ->
             In (RuleStr (js "//")) rules ->
             shouldIntercept settings url = Normal true).
  { intros settings rules url Hr Hin. unfold shouldIntercept. rewrite Hr.
    destruct rules as [|r rules]; [contradiction|].
    apply some_true with (rule := RuleStr (js "//")); [exact Hin | apply Hm]. }
  repeat split; try assumption; try reflexivity.
  intros env settings sig rules url Hen Hr Hin.
  unfold enhancedFetch. rewrite Hen, (Hs settings rules _ Hr Hin). reflexivity.
Qed.

End RuleMatcherClaims.



Lemma C9_regex_rule_witness :
  matchesRule (H := literalHost) (js "https://host/api") (RuleStr (js "/(/")) = Normal false.
Proof.
  apply (C9_regex_rule (H := literalHost) (js "https://host/api") (js "/(/")); reflexivity.
Defined.

Lemma C10_double_slash_intercepts_all_witness :
  matchesRule (H := literalHost) (js "https://host/other") (RuleStr (js "//")) = Normal true.
Proof.
  apply (C10_double_slash_intercepts_all (H := literalHost)).
  exists []. split; [reflexivity|]. intros url. destruct url; reflexivity.
Defined.

(** The variant of [src/index.js] compares with the case of the letters:
    the rule [API] does not match a URL that spells it [api]. *)
Lemma Legacy_matchesRule_case_sensitive :
  Legacy.matchesRule (H := literalHost) (js "https://host/api") (RuleStr (js "API")) = false
  /\ matchesRule (H := literalHost) (js "https://host/api") (RuleStr (js "API")) = Normal true.
Proof. split; reflexivity. Qed.

(** ** Trace discipline of the monad and of the retry loop *)

Section TraceDiscipline.
Context {H : Host}.
Variable env : Env.
Variable settings : Settings.
Variable abortSignal : option AbortSignal.
Variable p : Event -> bool.

Lemma emitsOnly_ret A (a : A) : emitsOnly p (ret a).
Proof. intros w. exists []. simpl. rewrite app_nil_r. auto. Qed.

Lemma emitsOnly_throw A (e : JsError) : emitsOnly p (@throw A e).
Proof. intros w. exists []. simpl. rewrite app_nil_r. auto. Qed.

Lemma emitsOnly_bind A B (c : M A) (k : A -> M B) :
  emitsOnly p c -> (forall a, emitsOnly p (k a)) -> emitsOnly p (bind c k).
Proof.
  intros Hc Hk w. unfold bind. destruct (Hc w) as [e1 [E1 P1]].
  destruct (c w) as [[a|e] w1]; simpl in *.
  - destruct (Hk a w1) as [e2 [E2 P2]]. exists (e1 ++ e2).
    rewrite E2, E1, app_assoc, forallb_app, P1, P2. auto.
  - exists e1. auto.
Qed.

Lemma emitsOnly_tryCatch A (c : M A) (h : JsError -> M A) :
  emitsOnly p c -> (forall e, emitsOnly p (h e)) -> emitsOnly p (tryCatch c h).
Proof.
  intros Hc Hh w. unfold tryCatch. destruct (Hc w) as [e1 [E1 P1]].
  destruct (c w) as [[a|e] w1]; simpl in *.
  - exists e1. auto.
  - destruct (Hh e w1) as [e2 [E2 P2]]. exists (e1 ++ e2).
    rewrite E2, E1, app_assoc, forallb_app, P1, P2. auto.
Qed.

Lemma emitsOnly_emit (ev : Event) : p ev = true -> emitsOnly p (emit ev).
Proof. intros Hp w. exists [ev]. simpl. rewrite Hp. auto. Qed.

Lemma emitsOnly_when (b : bool) (c : M unit) :
  emitsOnly p c -> emitsOnly p (when b c).
Proof. destruct b; simpl; [auto | intros _; apply emitsOnly_ret]. Qed.

Lemma emitsOnly_suspend : emitsOnly p (suspend abortSignal).
Proof. intros w. exists []. simpl. rewrite app_nil_r. auto. Qed.

Lemma emitsOnly_signalAborted : emitsOnly p (signalAborted abortSignal).
Proof. intros w. exists []. simpl. rewrite app_nil_r. auto. Qed.

Lemma emitsOnly_originalFetchCall :
  (forall n, p (EvFetch n) = true) -> emitsOnly p (originalFetchCall env).
Proof.
  intros Hp w. exists [EvFetch (calls w)]. unfold originalFetchCall.
  destruct (originalFetch env (calls w)); simpl; rewrite Hp; auto.
Qed.

Lemma emitsOnly_await A (promise : PromiseOf A) : emitsOnly p (await abortSignal promise).
Proof.
  unfold await. apply emitsOnly_bind; [apply emitsOnly_suspend|].
  intros _. destruct promise; [apply emitsOnly_ret | apply emitsOnly_throw].
Qed.

Lemma emitsOnly_callOriginalFetch :
  (forall n, p (EvFetch n) = true) -> emitsOnly p (callOriginalFetch env abortSignal).
Proof.
  intros Hp. unfold callOriginalFetch.
  apply emitsOnly_bind; [apply emitsOnly_originalFetchCall, Hp | intros a; apply emitsOnly_await].
Qed.

Lemma emitsOnly_clone (r : Response) : emitsOnly p (clone r).
Proof.
  unfold clone. destruct (bodyAccess r); [apply emitsOnly_ret | apply emitsOnly_ret|].
  apply emitsOnly_throw.
Qed.

Lemma emitsOnly_passThrough :
  (forall n, p (EvFetch n) = true) -> emitsOnly p (passThrough env abortSignal).
Proof.
  intros Hp. pose proof (emitsOnly_originalFetchCall Hp) as Hf.
  unfold passThrough. apply emitsOnly_bind; [|intros a; apply emitsOnly_await].
  apply emitsOnly_tryCatch; [exact Hf | intros _; exact Hf].
Qed.

Lemma emitsOnly_delay (ms : Z) :
  (forall o, p (EvDelay ms o) = true) -> emitsOnly p (delay abortSignal ms).
Proof.
  intros Hp w. unfold delay. destruct abortSignal as [sg|].
  - destruct (aborted w); [exists []; simpl; rewrite app_nil_r; auto|].
    destruct (firesDuring sg (ticks w));
      eexists [_]; simpl; rewrite Hp; auto.
  - eexists [_]; simpl; rewrite Hp; auto.
Qed.

Lemma emitsOnly_showBuiltinError (payload : ErrorPayload) :
  p (EvErrorUI payload) = true -> emitsOnly p (showBuiltinError payload).
Proof.
  intros Hp. destruct payload as [[|c m]|e]; simpl;
    first [apply emitsOnly_ret | apply emitsOnly_emit; exact Hp].
Qed.

End TraceDiscipline.

Create HintDb trace.
#[local] Hint Resolve emitsOnly_ret emitsOnly_throw emitsOnly_suspend
  emitsOnly_signalAborted emitsOnly_callOriginalFetch emitsOnly_clone emitsOnly_delay
  emitsOnly_showBuiltinError emitsOnly_emit : trace.

(** Decompose a goal [emitsOnly p c] along the structure of [c]. *)
Ltac emits :=
  repeat first
    [ solve [eauto with trace]
    | apply emitsOnly_bind; [|intros]
    | apply emitsOnly_tryCatch; [|intros]
    | match goal with
      | |- emitsOnly _ (when _ _) => apply emitsOnly_when
      | |- emitsOnly _ (if ?b then _ else _) => destruct b eqn:?
      | |- emitsOnly _ (match ?x with _ => _ end) => destruct x eqn:?
      end ].

Section LoopDiscipline.
Context {H : Host}.
Variable env : Env.
Variable settings : Settings.
Variable abortSignal : option AbortSignal.
Variable p : Event -> bool.

Lemma emitsOnly_readText (r : Response) : emitsOnly p (readText abortSignal r).
Proof. unfold readText. emits. Qed.

Lemma emitsOnly_getTokenCountFor (text : jsstring) :
  emitsOnly p (getTokenCountFor env abortSignal text).
Proof. unfold getTokenCountFor. emits. Qed.

Lemma emitsOnly_classify (text : jsstring) :
  emitsOnly p (classify env settings abortSignal text).
Proof.
  unfold classify. pose proof emitsOnly_getTokenCountFor. emits.
Qed.

Lemma emitsOnly_nonOkBranch A (r : Response) :
  emitsOnly p (@nonOkBranch abortSignal A r).
Proof. unfold nonOkBranch. pose proof emitsOnly_readText. emits. Qed.

Hint Resolve emitsOnly_readText emitsOnly_classify emitsOnly_nonOkBranch : trace.

Lemma emitsOnly_tryBlock (attempt : nat) :
  Allows settings abortSignal p attempt -> emitsOnly p (tryBlock env settings abortSignal attempt).
Proof.
  intros [Hf Ht Hs Hd Hu]. unfold tryBlock, showRetryToast. emits.
Qed.

Lemma emitsOnly_catchBlock (attempt : nat) (error : JsError) :
  Allows settings abortSignal p attempt -> emitsOnly p (catchBlock settings abortSignal attempt error).
Proof.
  intros [Hf Ht Hs Hd Hu]. unfold catchBlock, showRetryToast. emits.
Qed.

Lemma emitsOnly_iteration (attempt : nat) (lastError : option JsError) :
  Allows settings abortSignal p attempt ->
  emitsOnly p (iteration env settings abortSignal attempt lastError).
Proof.
  intros Ha. unfold iteration.
  pose proof (emitsOnly_tryBlock Ha). pose proof (fun e => emitsOnly_catchBlock e Ha).
  emits.
Qed.

Lemma emitsOnly_afterLoop A (lastError : option JsError) :
  (forall m, p (EvErrorUI m) = true) -> emitsOnly p (@afterLoop abortSignal A lastError).
Proof. intros Hu. unfold afterLoop. emits. Qed.

Lemma emitsOnly_forLoop (remaining attempt : nat) (lastError : option JsError) :
  (forall a, (attempt <= a)%nat -> Allows settings abortSignal p a) ->
  (forall m, p (EvErrorUI m) = true) ->
  emitsOnly p (forLoop env settings abortSignal remaining attempt lastError).
Proof.
  revert attempt lastError.
  induction remaining as [|rest IH]; intros attempt lastError Ha Hu; simpl.
  - apply emitsOnly_afterLoop, Hu.
  - apply emitsOnly_bind.
    + apply emitsOnly_iteration, Ha. lia.
    + intros [r|le]; [apply emitsOnly_ret|].
      apply IH; [|exact Hu]. intros a Hle. apply Ha. lia.
Qed.

End LoopDiscipline.

Section WholeCall.
Context {H : Host}.
Variable env : Env.
Variable settings : Settings.
Variable abortSignal : option AbortSignal.

Lemma emitsOnly_enhancedFetch (p : Event -> bool) (url : UrlArg) :
  (forall a, Allows settings abortSignal p a) ->
  (forall m, p (EvErrorUI m) = true) ->
  emitsOnly p (enhancedFetch env settings abortSignal url).
Proof.
  intros Ha Hu. unfold enhancedFetch.
  assert (Hf : emitsOnly p (callOriginalFetch env abortSignal))
    by (apply emitsOnly_callOriginalFetch, (Ha 0%nat)).
  assert (Hp : emitsOnly p (passThrough env abortSignal))
    by (apply emitsOnly_passThrough, (Ha 0%nat)).
  destruct (negb (enabled settings)); [exact Hf|].
  destruct (shouldIntercept settings (urlText url)) as [[|]|e];
    [|exact Hp | exact Hf].
  apply emitsOnly_forLoop; auto.
Qed.

(** What [run] leaves in the trace is what [enhancedFetch] emitted. *)
Lemma run_trace (p : Event -> bool) (url : UrlArg) :
  emitsOnly p (enhancedFetch env settings abortSignal url) ->
  forallb p (trace (snd (run env settings abortSignal url))) = true.
Proof.
  intros He. destruct (He (initialWorld abortSignal)) as [ext [E P]].
  unfold run. rewrite E. exact P.
Qed.

End WholeCall.

(** ** The delay between attempts *)

Lemma calculateDelay_fixed (settings : Settings) (d : Z) (attempt : nat) :
  baseDelay settings = Some d -> calculateDelay settings attempt = d.
Proof.
  intros Hb. unfold calculateDelay. rewrite Hb.
  destruct (Z.eqb_spec d 0); congruence.
Qed.

Lemma Allows_delayIs (settings : Settings) (abortSignal : option AbortSignal)
    (d : Z) (attempt : nat) :
  baseDelay settings = Some d -> Allows settings abortSignal (delayIs d) attempt.
Proof.
  intros Hb. constructor; try reflexivity.
  intros _. apply emitsOnly_delay. intros o. simpl.
  rewrite (calculateDelay_fixed _ _ Hb). apply Z.eqb_refl.
Qed.

(** C3: with [baseDelay] the number [d], [calculateDelay] answers [d] for
    every attempt index, and every wait that a call of [enhancedFetch]
    starts, after an empty response or after a failure, lasts [d]
    milliseconds. *)
Theorem C3_fixed_delay {H : Host} (env : Env) (settings : Settings)
    (abortSignal : option AbortSignal) (url : UrlArg) (d : Z) :
  baseDelay settings = Some d ->
  (forall attempt, calculateDelay settings attempt = d)
  /\ (forall ms o,
        In (EvDelay ms o) (trace (snd (run env settings abortSignal url))) -> ms = d).
Proof.
  intros Hb. split.
  - intros attempt. apply calculateDelay_fixed, Hb.
  - intros ms o Hin.
    assert (Hall : forallb (delayIs d) (trace (snd (run env settings abortSignal url))) = true).
    { apply run_trace, emitsOnly_enhancedFetch.
      - intros a. apply Allows_delayIs, Hb.
      - reflexivity. }
    rewrite forallb_forall in Hall. specialize (Hall _ Hin).
    apply Z.eqb_eq, Hall.
Qed.

Lemma C3_fixed_delay_witness :
  calculateDelay (apiSettings 2) 1 = 1000
  /\ trace (snd (run (H := literalHost) emptyEnv (apiSettings 2) None apiUrl))
     = [EvFetch 0; EvRetryToast 2 3 1000; EvDelay 1000 Elapsed;
        EvFetch 1; EvRetryToast 3 3 1000; EvDelay 1000 Elapsed;
        EvFetch 2;
        EvErrorUI (PayloadText (exhaustedMessage (apiSettings 2)));
        EvErrorUI (PayloadOf (Error_ (exhaustedMessage (apiSettings 2))))].
Proof.
  split.
  - apply (C3_fixed_delay (H := literalHost) emptyEnv (apiSettings 2) None apiUrl
             (d := 1000) eq_refl).
  - vm_compute. reflexivity.
Defined.

(** The older variants scale the delay with the attempt index. *)
Lemma Legacy_calculateDelay_exponential (baseDelay : Z) (attempt : nat) :
  Legacy.calculateDelay baseDelay (S attempt)
  = 2 * Legacy.calculateDelay baseDelay attempt.
Proof.
  unfold Legacy.calculateDelay. rewrite Nat2Z.inj_succ, Z.pow_succ_r by lia. ring.
Qed.

(** ** Cancellation during the wait *)

Lemma isAbortError_abortError : isAbortError abortError = true.
Proof. reflexivity. Qed.

Lemma Allows_notDelay (settings : Settings) (abortSignal : option AbortSignal)
    (attempt : nat) :
  (Z.of_nat attempt <? maxRetries settings) = false ->
  Allows settings abortSignal notDelay attempt.
Proof.
  intros Hge. constructor; try reflexivity. rewrite Hge. discriminate.
Qed.

Lemma Allows_notErrorUI (settings : Settings) (abortSignal : option AbortSignal)
    (attempt : nat) :
  (Z.of_nat attempt <? maxRetries settings) = true ->
  Allows settings abortSignal notErrorUI attempt.
Proof.
  intros Hlt. constructor; try reflexivity.
  - intros _. apply emitsOnly_delay. reflexivity.
  - rewrite Hlt. discriminate.
Qed.

(** Without a signal no wait is abandoned. *)
Lemma Allows_notAbandoned_no_signal (settings : Settings) (attempt : nat) :
  Allows settings None notAbandoned attempt.
Proof.
  constructor; try reflexivity.
  intros _ w. exists [EvDelay (calculateDelay settings attempt) Elapsed].
  split; reflexivity.
Qed.

Section Interruptible.
Context {H : Host}.
Variable env : Env.
Variable settings : Settings.
Variable abortSignal : option AbortSignal.

Lemma interruptible_of_quiet A (c : M A) :
  emitsOnly notAbandoned c -> interruptible c.
Proof.
  intros Hc w. destruct (Hc w) as [ext [E P]]. exists ext. split; [exact E | left; exact P].
Qed.

Lemma endsAbandoned_app B (r2 : Completion B) (e1 e2 : list Event) :
  forallb notAbandoned e1 = true -> endsAbandoned r2 e2 -> endsAbandoned r2 (e1 ++ e2).
Proof.
  intros P1 [P2 | [e2' [ms [-> [P2 R]]]]].
  - left. rewrite forallb_app, P1, P2. reflexivity.
  - right. exists (e1 ++ e2'), ms. rewrite app_assoc, forallb_app, P1, P2. auto.
Qed.

Lemma interruptible_bind A B (c : M A) (k : A -> M B) :
  interruptible c -> (forall a, interruptible (k a)) -> interruptible (bind c k).
Proof.
  intros Hc Hk w. unfold bind. destruct (Hc w) as [e1 [E1 S1]].
  destruct (c w) as [[a|e] w1]; simpl in *.
  - destruct S1 as [P1 | [e1' [ms [_ [_ R]]]]]; [|discriminate R].
    destruct (Hk a w1) as [e2 [E2 S2]]. exists (e1 ++ e2).
    rewrite E2, E1, app_assoc. split; [reflexivity|].
    apply endsAbandoned_app; assumption.
  - exists e1. split; [exact E1|].
    destruct S1 as [P1 | [e1' [ms [-> [P1 R]]]]]; [left; exact P1|].
    injection R as ->. right. exists e1', ms. auto.
Qed.

(** A handler reached only by errors of a body that never abandons a
    wait. *)
Lemma interruptible_tryCatch_quiet A (c : M A) (h : JsError -> M A) :
  emitsOnly notAbandoned c -> (forall e, interruptible (h e)) ->
  interruptible (tryCatch c h).
Proof.
  intros Hc Hh w. unfold tryCatch. destruct (Hc w) as [e1 [E1 P1]].
  destruct (c w) as [[a|e] w1]; simpl in *.
  - exists e1. split; [exact E1 | left; exact P1].
  - destruct (Hh e w1) as [e2 [E2 S2]]. exists (e1 ++ e2).
    rewrite E2, E1, app_assoc. split; [reflexivity|].
    apply endsAbandoned_app; assumption.
Qed.

(** A handler that passes the abort error on untouched. *)
Lemma interruptible_tryCatch_rethrow A (c : M A) (h : JsError -> M A) :
  interruptible c -> (forall e, interruptible (h e)) ->
  (forall w, h abortError w = (Throw abortError, w)) ->
  interruptible (tryCatch c h).
Proof.
  intros Hc Hh Hre w. unfold tryCatch. destruct (Hc w) as [e1 [E1 S1]].
  destruct (c w) as [[a|e] w1]; simpl in *.
  - exists e1. split; [exact E1|].
    destruct S1 as [P1 | [e1' [ms [_ [_ R]]]]]; [left; exact P1 | discriminate R].
  - destruct S1 as [P1 | [e1' [ms [-> [P1 R]]]]].
    + destruct (Hh e w1) as [e2 [E2 S2]]. exists (e1 ++ e2).
      rewrite E2, E1, app_assoc. split; [reflexivity|].
      apply endsAbandoned_app; assumption.
    + injection R as ->. rewrite Hre. simpl.
      exists (e1' ++ [EvDelay ms Abandoned]). split; [exact E1|].
      right. exists e1', ms. auto.
Qed.

Lemma interruptible_delay (ms : Z) : interruptible (delay abortSignal ms).
Proof.
  intros w. unfold delay. destruct abortSignal as [sg|].
  - destruct (aborted w).
    + exists []. simpl. rewrite app_nil_r. split; [reflexivity | left; reflexivity].
    + destruct (firesDuring sg (ticks w)); simpl.
      * exists [EvDelay ms Abandoned]. split; [reflexivity|].
        right. exists [], ms. auto.
      * exists [EvDelay ms Elapsed]. split; [reflexivity | left; reflexivity].
  - exists [EvDelay ms Elapsed]. split; [reflexivity | left; reflexivity].
Qed.

End Interruptible.

(** Decompose a goal [interruptible c] along the structure of [c]; the
    leaves are waits or computations that start no wait. *)
Ltac interrupts :=
  repeat first
    [ apply interruptible_delay
    | solve [apply interruptible_of_quiet; emits]
    | apply interruptible_bind; [|intros]
    | match goal with
      | |- interruptible (if ?b then _ else _) => destruct b eqn:?
      | |- interruptible (match ?x with _ => _ end) => destruct x eqn:?
      end ].

Section InterruptibleLoop.
Context {H : Host}.
Variable env : Env.
Variable settings : Settings.
Variable abortSignal : option AbortSignal.

Hint Resolve emitsOnly_readText emitsOnly_classify emitsOnly_nonOkBranch : trace.

Lemma interruptible_tryBlock (attempt : nat) :
  interruptible (tryBlock env settings abortSignal attempt).
Proof. unfold tryBlock, showRetryToast. interrupts. Qed.

Lemma interruptible_catchBlock (attempt : nat) (error : JsError) :
  interruptible (catchBlock settings abortSignal attempt error).
Proof. unfold catchBlock, showRetryToast. interrupts. Qed.

Lemma catchBlock_rethrows_abort (attempt : nat) (w : World) :
  catchBlock settings abortSignal attempt abortError w = (Throw abortError, w).
Proof. reflexivity. Qed.

Lemma interruptible_iteration (attempt : nat) (lastError : option JsError) :
  interruptible (iteration env settings abortSignal attempt lastError).
Proof.
  unfold iteration. apply interruptible_tryCatch_rethrow.
  - apply interruptible_bind; [apply interruptible_tryBlock|].
    intros [r|]; apply interruptible_of_quiet; emits.
  - intros e. apply interruptible_bind; [apply interruptible_catchBlock|].
    intros _. apply interruptible_of_quiet; emits.
  - intros w. unfold bind. rewrite catchBlock_rethrows_abort. reflexivity.
Qed.

Lemma interruptible_forLoop (remaining attempt : nat) (lastError : option JsError) :
  interruptible (forLoop env settings abortSignal remaining attempt lastError).
Proof.
  revert attempt lastError.
  induction remaining as [|rest IH]; intros attempt lastError; simpl.
  - apply interruptible_of_quiet, emitsOnly_afterLoop. reflexivity.
  - apply interruptible_bind; [apply interruptible_iteration|].
    intros [r|le]; [apply interruptible_of_quiet; emits | apply IH].
Qed.

Lemma interruptible_enhancedFetch (url : UrlArg) :
  interruptible (enhancedFetch env settings abortSignal url).
Proof.
  unfold enhancedFetch.
  assert (Hf : interruptible (callOriginalFetch env abortSignal))
    by (apply interruptible_of_quiet; emits).
  assert (Hp : interruptible (passThrough env abortSignal))
    by (apply interruptible_of_quiet, emitsOnly_passThrough; reflexivity).
  destruct (negb (enabled settings)); [exact Hf|].
  destruct (shouldIntercept settings (urlText url)) as [[|]|e];
    [|exact Hp | exact Hf].
  apply interruptible_forLoop.
Qed.

End InterruptibleLoop.

Section AbortDuringWait.
Context {H : Host}.
Variable env : Env.
Variable settings : Settings.
Variable abortSignal : option AbortSignal.

(** A wait is abandoned exactly when there is a signal, it has not fired
    before the wait starts, and it fires during the wait. *)
Lemma delay_abandoned_iff (ms : Z) (w : World) :
  trace (snd (delay abortSignal ms w)) = trace w ++ [EvDelay ms Abandoned]
  <-> exists sg, abortSignal = Some sg /\ aborted w = false
                 /\ firesDuring sg (ticks w) = true.
Proof.
  unfold delay. destruct abortSignal as [sg|].
  - destruct (aborted w) eqn:Ea.
    + split.
      * simpl. intros E. rewrite <- (app_nil_r (trace w)) in E at 1.
        apply app_inv_head in E. discriminate E.
      * intros [sg' [_ [Hf _]]]. discriminate Hf.
    + destruct (firesDuring sg (ticks w)) eqn:Ef; simpl.
      * split; [intros _; exists sg; auto | reflexivity].
      * split.
        -- intros E. apply app_inv_head in E. discriminate E.
        -- intros [sg' [Hs [_ Hf]]]. injection Hs as <-. congruence.
  - simpl. split.
    + intros E. apply app_inv_head in E. discriminate E.
    + intros [sg [Hs _]]. discriminate Hs.
Qed.

(** Once no retry remains, the loop starts no wait. *)
Lemma forLoop_no_delay (remaining attempt : nat) (lastError : option JsError) :
  (Z.of_nat attempt <? maxRetries settings) = false ->
  emitsOnly notDelay (forLoop env settings abortSignal remaining attempt lastError).
Proof.
  intros Hge. apply emitsOnly_forLoop; [|reflexivity].
  intros a Hle. apply Allows_notDelay.
  apply Z.ltb_ge. apply Z.ltb_ge in Hge. lia.
Qed.

(** The trace of the loop has two phases: no error UI while retries
    remain, no wait afterwards. *)
Lemma forLoop_phased (remaining attempt : nat) (lastError : option JsError) (w : World) :
  exists e1 e2,
    trace (snd (forLoop env settings abortSignal remaining attempt lastError w))
    = trace w ++ e1 ++ e2
    /\ forallb notErrorUI e1 = true /\ forallb notDelay e2 = true.
Proof.
  revert attempt lastError w.
  induction remaining as [|rest IH]; intros attempt lastError w.
  - assert (Ha : emitsOnly notDelay (@afterLoop abortSignal Response lastError))
      by (apply emitsOnly_afterLoop; reflexivity).
    destruct (Ha w) as [ext [E P]]. exists [], ext. simpl. auto.
  - destruct (Z.of_nat attempt <? maxRetries settings) eqn:Hlt.
    + cbn [forLoop]. unfold bind.
      assert (Hi : emitsOnly notErrorUI
                     (iteration env settings abortSignal attempt lastError))
        by (apply emitsOnly_iteration, Allows_notErrorUI, Hlt).
      destruct (Hi w) as [e0 [E0 P0]].
      destruct (iteration env settings abortSignal attempt lastError w)
        as [[[r|le]|e] w1]; simpl in E0 |- *.
      * exists e0, []. rewrite app_nil_r. auto.
      * destruct (IH (S attempt) le w1) as [e1 [e2 [E [P1 P2]]]].
        exists (e0 ++ e1), e2. rewrite E, E0, forallb_app, P0, P1, <- !app_assoc. auto.
      * exists e0, []. rewrite app_nil_r. auto.
    + destruct (@forLoop_no_delay (S rest) attempt lastError Hlt w) as [ext [E P]].
      exists [], ext. simpl. auto.
Qed.

Lemma enhancedFetch_phased (url : UrlArg) (w : World) :
  exists e1 e2,
    trace (snd (enhancedFetch env settings abortSignal url w)) = trace w ++ e1 ++ e2
    /\ forallb notErrorUI e1 = true /\ forallb notDelay e2 = true.
Proof.
  assert (Hf : exists e1 e2,
             trace (snd (callOriginalFetch env abortSignal w)) = trace w ++ e1 ++ e2
             /\ forallb notErrorUI e1 = true /\ forallb notDelay e2 = true).
  { assert (Hc : emitsOnly notDelay (callOriginalFetch env abortSignal))
      by (apply emitsOnly_callOriginalFetch; reflexivity).
    destruct (Hc w) as [ext [E P]]. exists [], ext. simpl. auto. }
  assert (Hp : exists e1 e2,
             trace (snd (passThrough env abortSignal w)) = trace w ++ e1 ++ e2
             /\ forallb notErrorUI e1 = true /\ forallb notDelay e2 = true).
  { assert (Hc : emitsOnly notDelay (passThrough env abortSignal))
      by (apply emitsOnly_passThrough; reflexivity).
    destruct (Hc w) as [ext [E P]]. exists [], ext. simpl. auto. }
  unfold enhancedFetch. destruct (negb (enabled settings)); [exact Hf|].
  destruct (shouldIntercept settings (urlText url)) as [[|]|e];
    [|exact Hp | exact Hf].
  apply forLoop_phased.
Qed.

End AbortDuringWait.

(** An event in front of the last one of a list is in its front part. *)
Lemma in_front_of_last (A : Type) (pre post front : list A) (x y : A) :
  pre ++ x :: post = front ++ [y] ->
  (post = [] /\ pre = front /\ x = y) \/ In x front.
Proof.
  intros E. induction post as [|z post' _] using rev_ind.
  - left. apply app_inj_tail in E. tauto.
  - right.
    change (pre ++ x :: post' ++ [z]) with (pre ++ (x :: post') ++ [z]) in E.
    rewrite app_assoc in E. apply app_inj_tail in E. destruct E as [<- _].
    apply in_elt.
Qed.

(** C2: when a wait between two attempts is abandoned, which happens
    exactly when the signal fires during it ([delay_abandoned_iff]), nothing
    follows it in the trace (no further underlying call), the call fails
    with the abort error, which [isAbortError] recognises, and no error UI
    appears anywhere in the trace. *)
Theorem C2_abort_during_wait {H : Host} (env : Env) (settings : Settings)
    (abortSignal : option AbortSignal) (url : UrlArg)
    (pre post : list Event) (ms : Z) :
  trace (snd (run env settings abortSignal url)) = pre ++ EvDelay ms Abandoned :: post ->
  post = []
  /\ fst (run env settings abortSignal url) = Throw abortError
  /\ isAbortError abortError = true
  /\ (forall m, ~ In (EvErrorUI m) (trace (snd (run env settings abortSignal url))))
  /\ (exists sg, abortSignal = Some sg).
Proof.
  intros Htr. unfold run in *.
  destruct (interruptible_enhancedFetch env settings abortSignal url
              (initialWorld abortSignal)) as [ext [E S]].
  destruct (enhancedFetch_phased env settings abortSignal url
              (initialWorld abortSignal)) as [e1 [e2 [E' [P1 P2]]]].
  assert (Hnil : trace (initialWorld abortSignal) = []) by reflexivity.
  rewrite Hnil in E, E'. simpl in E, E'.
  set (res := enhancedFetch env settings abortSignal url (initialWorld abortSignal)) in *.
  rewrite E in Htr.
  destruct S as [P | [ext' [ms' [-> [P R]]]]].
  { exfalso. rewrite Htr, forallb_app in P. apply andb_true_iff in P.
    destruct P as [_ P]. discriminate P. }
  assert (Hpost : post = [] /\ pre = ext' /\ ms = ms').
  { symmetry in Htr. destruct (@in_front_of_last _ _ _ _ _ _ Htr) as [[Hp [Hq Hx]] | Hin].
    - repeat split; congruence.
    - exfalso. rewrite forallb_forall in P. specialize (P _ Hin). discriminate P. }
  destruct Hpost as [-> [-> ->]].
  assert (Hui : forallb notErrorUI (trace (snd res)) = true).
  { rewrite E' in E. induction e2 as [|z e2' _] using rev_ind.
    - rewrite E', app_nil_r. exact P1.
    - exfalso. rewrite app_assoc in E. apply app_inj_tail in E.
      destruct E as [_ ->]. rewrite forallb_app in P2. apply andb_true_iff in P2.
      destruct P2 as [_ P2]. discriminate P2. }
  repeat split; auto.
  - intros m Hin. rewrite forallb_forall in Hui. specialize (Hui _ Hin). discriminate Hui.
  - destruct abortSignal as [sg|]; [eauto|]. exfalso.
    assert (Hq : forallb notAbandoned (trace (snd res)) = true).
    { apply run_trace, emitsOnly_enhancedFetch; [|reflexivity].
      intros a. apply Allows_notAbandoned_no_signal. }
    rewrite E, forallb_app in Hq. apply andb_true_iff in Hq.
    destruct Hq as [_ Hq]. discriminate Hq.
Qed.

Lemma C2_abort_during_wait_witness :
  fst (run (H := literalHost) emptyEnv (apiSettings 1) (Some (firesAt 2)) apiUrl)
  = Throw abortError.
Proof.
  apply (C2_abort_during_wait (H := literalHost) emptyEnv (apiSettings 1)
           (Some (firesAt 2)) apiUrl [EvFetch 0; EvRetryToast 2 2 1000] [] 1000).
  vm_compute. reflexivity.
Defined.

(** ** Classification of a body *)

Section Classification.
Context {H : Host}.
Variable env : Env.
Variable settings : Settings.
Variable abortSignal : option AbortSignal.

(** A suspension changes the time, and the signal's state when it fires. *)
Lemma suspend_spec (w : World) :
  exists w', suspend abortSignal w = (Normal tt, w')
             /\ calls w' = calls w /\ trace w' = trace w
             /\ (neverFires abortSignal -> aborted w' = aborted w).
Proof.
  eexists. split; [reflexivity|]. simpl. repeat split.
  intros Hn. destruct abortSignal as [sg|]; [|reflexivity].
  simpl in Hn. rewrite Hn. apply orb_false_r.
Qed.

(** [getTokenCountFor] never raises and answers [tokenCountOf]. *)
Lemma getTokenCountFor_spec (text : jsstring) (w : World) :
  exists w', getTokenCountFor env abortSignal text w = (Normal (tokenCountOf env text), w')
             /\ calls w' = calls w /\ trace w' = trace w
             /\ (neverFires abortSignal -> aborted w' = aborted w).
Proof.
  unfold getTokenCountFor, tokenCountOf, bind, tryCatch.
  destruct (getTokenCountAsyncFn env) as [f|].
  - destruct (suspend_spec w) as [w1 [E1 [C1 [T1 A1]]]]. rewrite E1.
    destruct (f text) as [n|]; simpl; exists w1; auto.
  - simpl. exists w. auto.
Qed.

(** [classify] never raises and answers [classifiedEmpty]; it makes no
    call and emits nothing. *)
Lemma classify_spec (text : jsstring) (w : World) :
  exists w', classify env settings abortSignal text w
             = (Normal (classifiedEmpty env settings text), w')
             /\ calls w' = calls w /\ trace w' = trace w
             /\ (neverFires abortSignal -> aborted w' = aborted w).
Proof.
  unfold classify, classifiedEmpty.
  destruct (isEmptyContent settings text); simpl.
  - exists w. auto.
  - destruct (enableMinTokenRetry settings); simpl.
    + unfold bind. fold (candidateOf text).
      destruct (getTokenCountFor_spec (candidateOf text) w) as [w1 [E1 [C1 [T1 A1]]]].
      rewrite E1.
      destruct (suspend_spec w1) as [w2 [E2 [C2 [T2 A2]]]]. rewrite E2.
      simpl. exists w2. repeat split; try congruence.
      intros Hn. rewrite A2, A1; auto.
    + exists w. auto.
Qed.

End Classification.

(** C7 (amended): when the body does not parse as JSON, nothing is
    extracted and no error propagates; the token count is then taken on the
    raw body, and, with the threshold enabled and the body not empty by the
    length and whitespace test, the body is classified empty exactly when
    that count is below the threshold. *)
Theorem C7_parse_failure_counts_raw_body {H : Host} (env : Env) (settings : Settings)
    (abortSignal : option AbortSignal) (text : jsstring) (w : World) :
  JSON_parse text = None ->
  extractResponseContent text = None
  /\ candidateOf text = text
  /\ (enableMinTokenRetry settings = true ->
      isEmptyContent settings text = false ->
      fst (classify env settings abortSignal text w)
      = Normal (tokenCountOf env text <? minTokenThreshold settings)).
Proof.
  intros Hp.
  assert (He : extractResponseContent text = None)
    by (unfold extractResponseContent; rewrite Hp; reflexivity).
  assert (Hc : candidateOf text = text)
    by (unfold candidateOf; rewrite He; reflexivity).
  repeat split; try assumption.
  intros Hen Hne.
  destruct (classify_spec env settings abortSignal text w) as [w' [E _]].
  rewrite E. unfold classifiedEmpty. rewrite Hne, Hen, Hc. reflexivity.
Qed.

Lemma C7_parse_failure_counts_raw_body_witness :
  fst (classify (H := literalHost) helloEnv (apiSettings 0) None (js "Hello world")
         (initialWorld None))
  = Normal (tokenCountOf helloEnv (js "Hello world") <? 400).
Proof.
  apply (C7_parse_failure_counts_raw_body (H := literalHost) helloEnv (apiSettings 0)
           None (js "Hello world") (initialWorld None) eq_refl); reflexivity.
Defined.

(** C7 as stated fails on the plain body [Hello world]: the threshold is
    enabled, the body passes the length and whitespace test and is not a
    JSON text, and the token test classifies it empty (4 tokens against a
    threshold of 400). *)
Lemma C7_plain_text_counterexample :
  enableMinTokenRetry (apiSettings 0) = true
  /\ isEmptyContent (apiSettings 0) (js "Hello world") = false
  /\ JSON_parse (Host := literalHost) (js "Hello world") = None
  /\ tokenCountOf helloEnv (js "Hello world") = 4
  /\ fst (classify (H := literalHost) helloEnv (apiSettings 0) None (js "Hello world")
            (initialWorld None))
     = Normal true.
Proof. repeat split; reflexivity. Qed.

(** ** A response with a non-success status *)

(** C6: the block run for a non-success status builds an error with the
    status, the status text and the body, raises it inside its own [try],
    and replaces it in the [catch] by an error that has the message
    [HTTP <status>: <statusText>] only.  On the response 500 with the body
    [boom] the error raised has no [status], no [statusText] and no [body],
    and its message does not contain the body. *)
Theorem C6_status_error_loses_payload (abortSignal : option AbortSignal)
    (r : Response) (w : World) :
  fst (nonOkBranch abortSignal (A := Response) r w) = Throw (plainHttpError r)
  /\ status (plainHttpError r) = None
  /\ statusText (plainHttpError r) = None
  /\ body (plainHttpError r) = None
  /\ (forall t, body (httpError r t) = Some t /\ status (httpError r t) = Some (respStatus r))
  /\ fst (run (H := literalHost) failingEnv (apiSettings 0) None apiUrl)
     = Throw (Error_ (js "HTTP 500: Internal Server Error")).
Proof.
  repeat split.
  unfold nonOkBranch, tryCatch, bind, clone, readText, bodyText, bind, suspend.
  destruct (bodyAccess r); reflexivity.
Qed.

(** ** Steps of the loop *)

Lemma bind_normal A B (c : M A) (k : A -> M B) (w w' : World) (a : A) :
  c w = (Normal a, w') -> bind c k w = k a w'.
Proof. intros E. unfold bind. rewrite E. reflexivity. Qed.

Lemma bind_throw A B (c : M A) (k : A -> M B) (w w' : World) (e : JsError) :
  c w = (Throw e, w') -> bind c k w = (Throw e, w').
Proof. intros E. unfold bind. rewrite E. reflexivity. Qed.

Lemma tryCatch_normal A (c : M A) (h : JsError -> M A) (w w' : World) (a : A) :
  c w = (Normal a, w') -> tryCatch c h w = (Normal a, w').
Proof. intros E. unfold tryCatch. rewrite E. reflexivity. Qed.

Lemma tryCatch_throw A (c : M A) (h : JsError -> M A) (w w' : World) (e : JsError) :
  c w = (Throw e, w') -> tryCatch c h w = h e w'.
Proof. intros E. unfold tryCatch. rewrite E. reflexivity. Qed.

Arguments bind_normal {A B c} k {w w' a} _.
Arguments bind_throw {A B c} k {w w' e} _.
Arguments tryCatch_normal {A c} h {w w' a} _.
Arguments tryCatch_throw {A c} h {w w' e} _.

Section Steps.
Context {H : Host}.
Variable env : Env.
Variable settings : Settings.
Variable abortSignal : option AbortSignal.

Lemma signalAborted_false (w : World) :
  match abortSignal with Some _ => aborted w | None => false end = false ->
  signalAborted abortSignal w = (Normal false, w).
Proof. intros Hs. unfold signalAborted. rewrite Hs. reflexivity. Qed.

Lemma signal_not_aborted (w : World) :
  aborted w = false ->
  match abortSignal with Some _ => aborted w | None => false end = false.
Proof. intros Ha. destruct abortSignal; auto. Qed.

(** The bare call: it is counted and recorded, and the caller observes its
    completion. *)
Lemma callOriginalFetch_spec (w : World) :
  exists w', callOriginalFetch env abortSignal w
             = (completionOf (originalFetch env (calls w)), w')
             /\ calls w' = S (calls w)
             /\ trace w' = trace w ++ [EvFetch (calls w)].
Proof.
  unfold callOriginalFetch, originalFetchCall, bind.
  destruct (originalFetch env (calls w)); eexists; (split; [reflexivity|]);
    split; reflexivity.
Qed.

(** The pass-through: a call that throws is followed by a second call, any
    other call is the only one. *)
Lemma passThrough_spec (w : World) :
  passThrough env abortSignal w
  = match originalFetch env (calls w) with
    | Throws _ =>
        callOriginalFetch env abortSignal
          (mkWorld (ticks w) (S (calls w)) (aborted w) (trace w ++ [EvFetch (calls w)]))
    | Resolves _ | Rejects _ => callOriginalFetch env abortSignal w
    end.
Proof.
  unfold passThrough, callOriginalFetch, tryCatch, bind, originalFetchCall.
  destruct (originalFetch env (calls w)); reflexivity.
Qed.

(** The bare call and the pass-through as the whole of a call. *)
Lemma callOriginalFetch_first :
  fst (callOriginalFetch env abortSignal (initialWorld abortSignal))
  = completionOf (originalFetch env 0)
  /\ trace (snd (callOriginalFetch env abortSignal (initialWorld abortSignal)))
     = [EvFetch 0]
  /\ calls (snd (callOriginalFetch env abortSignal (initialWorld abortSignal))) = 1%nat.
Proof.
  destruct (callOriginalFetch_spec (initialWorld abortSignal)) as [w1 [E [C T]]].
  rewrite E. cbn [fst snd]. rewrite C, T. repeat split.
Qed.

Lemma passThrough_first :
  match originalFetch env 0 with
  | Throws _ =>
      fst (passThrough env abortSignal (initialWorld abortSignal))
      = completionOf (originalFetch env 1)
      /\ trace (snd (passThrough env abortSignal (initialWorld abortSignal)))
         = [EvFetch 0; EvFetch 1]
      /\ calls (snd (passThrough env abortSignal (initialWorld abortSignal))) = 2%nat
  | Resolves _ | Rejects _ =>
      fst (passThrough env abortSignal (initialWorld abortSignal))
      = completionOf (originalFetch env 0)
      /\ trace (snd (passThrough env abortSignal (initialWorld abortSignal)))
         = [EvFetch 0]
      /\ calls (snd (passThrough env abortSignal (initialWorld abortSignal))) = 1%nat
  end.
Proof.
  pose proof callOriginalFetch_first as Hc.
  rewrite passThrough_spec. change (calls (initialWorld abortSignal)) with 0%nat.
  destruct (originalFetch env 0) as [r | e | e] eqn:E0; try exact Hc.
  match goal with
  | |- context [callOriginalFetch env abortSignal ?w] =>
      destruct (callOriginalFetch_spec w) as [w2 [E2 [C2 T2]]]
  end.
  cbn [calls trace app] in E2, C2, T2. rewrite E2. cbn [fst snd].
  rewrite C2, T2. repeat split.
Qed.

Lemma callOriginalFetch_resolves (w : World) (r : Response) :
  originalFetch env (calls w) = Resolves r ->
  exists w', callOriginalFetch env abortSignal w = (Normal r, w')
             /\ calls w' = S (calls w)
             /\ trace w' = trace w ++ [EvFetch (calls w)]
             /\ (neverFires abortSignal -> aborted w' = aborted w).
Proof.
  intros Hf. unfold callOriginalFetch, originalFetchCall, bind. rewrite Hf.
  eexists. split; [reflexivity|]. simpl. repeat split.
  intros Hn. destruct abortSignal as [sg|]; [|reflexivity].
  simpl in Hn. rewrite Hn. apply orb_false_r.
Qed.

Lemma readText_spec (r : Response) (w : World) :
  exists w', readText abortSignal r w
             = (match bodyText r with
                | Some t => Normal t
                | None => Throw (hostError "TypeError")
                end, w')
             /\ calls w' = calls w /\ trace w' = trace w
             /\ (neverFires abortSignal -> aborted w' = aborted w).
Proof.
  unfold readText.
  destruct (suspend_spec abortSignal w) as [w1 [E1 [C1 [T1 A1]]]].
  rewrite (bind_normal _ E1). exists w1. destruct (bodyText r); auto.
Qed.

(** [response.clone()] raises when the body cannot be cloned, and does
    nothing else. *)
Lemma clone_spec (r : Response) (w : World) :
  clone r w = (match bodyAccess r with
               | Unclonable e => Throw e
               | Readable _ | Unreadable => Normal tt
               end, w).
Proof. unfold clone. destruct (bodyAccess r); reflexivity. Qed.

Lemma clone_done (r : Response) (w : World) :
  (forall e, bodyAccess r <> Unclonable e) -> clone r w = (Normal tt, w).
Proof.
  intros Hc. rewrite clone_spec. destruct (bodyAccess r) as [t | | e]; try reflexivity.
  exfalso. apply (Hc e). reflexivity.
Qed.

Lemma clone_readable (r : Response) (w : World) (text : jsstring) :
  bodyText r = Some text -> clone r w = (Normal tt, w).
Proof.
  intros Hb. apply clone_done. intros e He. unfold bodyText in Hb. rewrite He in Hb.
  discriminate Hb.
Qed.

Lemma tryBlock_unreadable (attempt : nat) (w : World) (r : Response) :
  match abortSignal with Some _ => aborted w | None => false end = false ->
  originalFetch env (calls w) = Resolves r ->
  ok r = true ->
  bodyAccess r = Unreadable ->
  exists w', tryBlock env settings abortSignal attempt w = (Normal (ReturnResponse r), w')
             /\ calls w' = S (calls w)
             /\ trace w' = trace w ++ [EvFetch (calls w)].
Proof.
  intros Hs Hf Hok Hb.
  destruct (callOriginalFetch_resolves w Hf) as [w1 [E1 [C1 [T1 _]]]].
  destruct (readText_spec r w1) as [w2 [E2 [C2 [T2 _]]]].
  unfold bodyText in E2. rewrite Hb in E2.
  exists w2. split; [|split; congruence].
  unfold tryBlock.
  rewrite (bind_normal _ (signalAborted_false w Hs)).
  rewrite (bind_normal _ E1). rewrite Hok. cbn [negb].
  assert (Ec : clone r w1 = (Normal tt, w1))
    by (apply clone_done; intros e He; congruence).
  rewrite (bind_normal _ Ec).
  assert (Er : tryCatch (text <- readText abortSignal r ;; ret (Some text))
                 (fun _ => ret None) w1 = (Normal None, w2)).
  { rewrite (tryCatch_throw _ (bind_throw _ E2)). reflexivity. }
  rewrite (bind_normal _ Er). reflexivity.
Qed.

Lemma iteration_unreadable (attempt : nat) (lastError : option JsError)
    (w : World) (r : Response) :
  match abortSignal with Some _ => aborted w | None => false end = false ->
  originalFetch env (calls w) = Resolves r ->
  ok r = true ->
  bodyAccess r = Unreadable ->
  exists w', iteration env settings abortSignal attempt lastError w = (Normal (Exit r), w')
             /\ calls w' = S (calls w)
             /\ trace w' = trace w ++ [EvFetch (calls w)].
Proof.
  intros Hs Hf Hok Hb.
  destruct (tryBlock_unreadable attempt w Hs Hf Hok Hb) as [w' [E [C T]]].
  exists w'. split; [|auto]. unfold iteration.
  apply tryCatch_normal. rewrite (bind_normal _ E). reflexivity.
Qed.

Lemma delay_elapsed (ms : Z) (w : World) :
  neverFires abortSignal -> aborted w = false ->
  exists w', delay abortSignal ms w = (Normal tt, w')
             /\ calls w' = calls w
             /\ trace w' = trace w ++ [EvDelay ms Elapsed]
             /\ aborted w' = false.
Proof.
  intros Hn Ha. unfold delay. destruct abortSignal as [sg|].
  - simpl in Hn. rewrite Ha, Hn. eexists. split; [reflexivity|]. auto.
  - eexists. split; [reflexivity|]. auto.
Qed.
End Steps.

(** ** The message of the exhaustion error *)

Lemma string_of_uint_digits (d : Decimal.uint) :
  forallb digitLike (js (NilEmpty.string_of_uint d)) = true.
Proof. induction d; simpl; auto. Qed.

Lemma js_String (a : ascii) (s : string) : js (String a s) = N_of_ascii a :: js s.
Proof. reflexivity. Qed.

Lemma ofZ_digits (z : Z) : forallb digitLike (ofZ z) = true.
Proof.
  unfold ofZ, NilZero.string_of_int.
  assert (Hu : forall d, forallb digitLike (js (NilZero.string_of_uint d)) = true).
  { intros d. destruct d; try reflexivity; exact (string_of_uint_digits _). }
  destruct (Z.to_int z) as [d|d]; [apply Hu|].
  rewrite js_String. cbn [forallb]. rewrite Hu. reflexivity.
Qed.

Lemma digitLike_not_a (c : codeunit) :
  digitLike c = true -> negb (lowerUnit c =? 97)%N = true.
Proof.
  unfold digitLike, lowerUnit. intros Hd.
  repeat match goal with
         | |- context [(?a <=? ?b)%N] => destruct (N.leb_spec a b)
         | |- context [(?a =? ?b)%N] => destruct (N.eqb_spec a b)
         | Hd : context [(?a <=? ?b)%N] |- _ => destruct (N.leb_spec a b)
         | Hd : context [(?a =? ?b)%N] |- _ => destruct (N.eqb_spec a b)
         end; simpl in *; try reflexivity; try discriminate; try lia.
Qed.

Lemma includes_In (s t : jsstring) (c : codeunit) :
  includes s t = true -> In c t -> In c s.
Proof.
  intros Hi Hin. apply includes_spec in Hi. destruct Hi as [pre [post ->]].
  apply in_or_app. right. apply in_or_app. left. exact Hin.
Qed.

Lemma noLetterA_excludes (s t : jsstring) :
  noLetterA s = true -> In 97%N t -> includes (toLowerCase s) t = false.
Proof.
  intros Hn Hin. destruct (includes (toLowerCase s) t) eqn:E; [|reflexivity].
  exfalso. apply (@includes_In _ _ _ E) in Hin. unfold toLowerCase in Hin.
  apply in_map_iff in Hin. destruct Hin as [c [Hc Hin]].
  unfold noLetterA in Hn. rewrite forallb_forall in Hn. specialize (Hn _ Hin).
  rewrite Hc in Hn. discriminate Hn.
Qed.

(** An [Error] whose message has no letter a in either case is not taken
    for an abort. *)
Lemma isAbortError_no_letter_a (c : codeunit) (m : jsstring) :
  noLetterA (c :: m) = true -> isAbortError (Error_ (c :: m)) = false.
Proof.
  intros Hn. unfold isAbortError.
  change (strEq (name (Error_ (c :: m))) (js "AbortError")) with false.
  cbv iota. change (message (Error_ (c :: m))) with (c :: m). cbv iota.
  rewrite !(@noLetterA_excludes _ _ Hn); [reflexivity | | | |]; vm_compute; tauto.
Qed.

Lemma exhaustedMessage_no_letter_a (settings : Settings) :
  noLetterA (exhaustedMessage settings) = true.
Proof.
  unfold exhaustedMessage, noLetterA. rewrite !forallb_app.
  rewrite !andb_true_iff. repeat split; try reflexivity.
  apply forallb_forall. intros c Hin.
  apply digitLike_not_a. pose proof (ofZ_digits (maxRetries settings + 1)) as Hd.
  rewrite forallb_forall in Hd. apply Hd, Hin.
Qed.

Lemma isAbortError_exhausted (settings : Settings) :
  isAbortError (Error_ (exhaustedMessage settings)) = false.
Proof.
  pose proof (exhaustedMessage_no_letter_a settings) as Hn.
  unfold exhaustedMessage in *. cbn [app] in *.
  apply isAbortError_no_letter_a, Hn.
Qed.

Section AllEmpty.
Context {H : Host}.
Variable env : Env.
Variable settings : Settings.
Variable abortSignal : option AbortSignal.
Hypothesis Hquiet : neverFires abortSignal.
Hypothesis Hempty : alwaysEmpty env settings.


(** The part of the [try] block up to the classification. *)
Lemma tryBlock_empty (attempt : nat) (w : World) :
  aborted w = false ->
  exists w1,
    calls w1 = S (calls w) /\ trace w1 = trace w ++ [EvFetch (calls w)]
    /\ aborted w1 = false
    /\ tryBlock env settings abortSignal attempt w
       = (if Z.of_nat attempt <? maxRetries settings then
            let delayMs := calculateDelay settings attempt in
            showRetryToast (Z.of_nat attempt + 2) (maxRetries settings + 1) delayMs ;;;
            delay abortSignal delayMs ;;;
            ret Continue
          else
            ab' <- signalAborted abortSignal ;;
            when (negb ab') (showBuiltinError (PayloadText (exhaustedMessage settings))) ;;;
            throw (Error_ (exhaustedMessage settings))) w1.
Proof.
  intros Ha. destruct (Hempty (calls w)) as [r [text [Hf [Hok [Hb Hc]]]]].
  destruct (callOriginalFetch_resolves env abortSignal w Hf) as [w1 [E1 [C1 [T1 A1]]]].
  destruct (readText_spec abortSignal r w1) as [w2 [E2 [C2 [T2 A2]]]]. rewrite Hb in E2.
  destruct (classify_spec env settings abortSignal text w2) as [w3 [E3 [C3 [T3 A3]]]].
  rewrite Hc in E3.
  exists w3. repeat split; try congruence.
  - rewrite A3, A2, A1; auto.
  - unfold tryBlock.
    rewrite (bind_normal _ (signalAborted_false abortSignal w (signal_not_aborted abortSignal w Ha))).
    rewrite (bind_normal _ E1). rewrite Hok. cbn [negb].
    rewrite (bind_normal _ (clone_readable r w1 Hb)).
    assert (Er : tryCatch (text <- readText abortSignal r ;; ret (Some text))
                   (fun _ => ret None) w1 = (Normal (Some text), w2)).
    { apply tryCatch_normal. rewrite (bind_normal _ E2). reflexivity. }
    rewrite (bind_normal _ Er). rewrite (bind_normal _ E3). reflexivity.
Qed.

Lemma iteration_empty_retry (attempt : nat) (lastError : option JsError) (w : World) :
  aborted w = false ->
  (Z.of_nat attempt <? maxRetries settings) = true ->
  exists w', iteration env settings abortSignal attempt lastError w
             = (Normal (Next lastError), w')
             /\ calls w' = S (calls w) /\ aborted w' = false
             /\ fetchCount (trace w') = S (fetchCount (trace w)).
Proof.
  intros Ha Hlt. destruct (tryBlock_empty attempt w Ha) as [w1 [C1 [T1 [A1 E1]]]].
  rewrite Hlt in E1.
  destruct (delay_elapsed abortSignal (calculateDelay settings attempt)
              (mkWorld (ticks w1) (calls w1) (aborted w1)
                 (trace w1 ++ [EvRetryToast (Z.of_nat attempt + 2)
                                 (maxRetries settings + 1)
                                 (calculateDelay settings attempt)]))
              Hquiet A1) as [w2 [E2 [C2 [T2 A2]]]].
  exists w2. split; [|repeat split].
  - unfold iteration. apply tryCatch_normal.
    assert (Et : tryBlock env settings abortSignal attempt w = (Normal Continue, w2)).
    { rewrite E1. cbv zeta. unfold showRetryToast.
      erewrite bind_normal by reflexivity.
      rewrite (bind_normal _ E2). reflexivity. }
    rewrite (bind_normal _ Et). reflexivity.
  - rewrite C2. exact C1.
  - exact A2.
  - rewrite T2. cbn [trace]. rewrite T1. unfold fetchCount.
    rewrite !filter_app. cbn. rewrite !app_nil_r, length_app. cbn. lia.
Qed.

Lemma iteration_empty_last (attempt : nat) (lastError : option JsError) (w : World) :
  aborted w = false ->
  (Z.of_nat attempt <? maxRetries settings) = false ->
  exists w', iteration env settings abortSignal attempt lastError w
             = (Normal (Next (Some (Error_ (exhaustedMessage settings)))), w')
             /\ calls w' = S (calls w) /\ aborted w' = false
             /\ fetchCount (trace w') = S (fetchCount (trace w)).
Proof.
  intros Ha Hge. destruct (tryBlock_empty attempt w Ha) as [w1 [C1 [T1 [A1 E1]]]].
  rewrite Hge in E1.
  set (w2 := mkWorld (ticks w1) (calls w1) (aborted w1)
               (trace w1 ++ [EvErrorUI (PayloadText (exhaustedMessage settings))])).
  assert (Et : tryBlock env settings abortSignal attempt w
               = (Throw (Error_ (exhaustedMessage settings)), w2)).
  { rewrite E1.
    rewrite (bind_normal _ (signalAborted_false abortSignal w1 (signal_not_aborted abortSignal w1 A1))).
    reflexivity. }
  exists w2. split; [|repeat split].
  - assert (A2 : aborted w2 = false) by exact A1.
    assert (Ec : catchBlock settings abortSignal attempt
                   (Error_ (exhaustedMessage settings)) w2 = (Normal tt, w2)).
    { unfold catchBlock.
      rewrite (bind_normal _ (signalAborted_false abortSignal w2 (signal_not_aborted abortSignal w2 A2))).
      rewrite isAbortError_exhausted. cbn [orb]. rewrite Hge. reflexivity. }
    unfold iteration. rewrite (tryCatch_throw _ (bind_throw _ Et)).
    rewrite (bind_normal _ Ec). reflexivity.
  - exact C1.
  - exact A1.
  - cbn [trace w2]. rewrite T1. unfold fetchCount.
    rewrite !filter_app. cbn. rewrite !app_nil_r, length_app. cbn. lia.
Qed.


Lemma afterLoop_exhausted (w : World) :
  aborted w = false ->
  exists w', @afterLoop abortSignal Response (Some (Error_ (exhaustedMessage settings))) w
             = (Throw (Error_ (exhaustedMessage settings)), w')
             /\ calls w' = calls w
             /\ fetchCount (trace w') = fetchCount (trace w).
Proof.
  intros Ha. unfold afterLoop.
  rewrite (bind_normal _ (signalAborted_false abortSignal w (signal_not_aborted abortSignal w Ha))).
  rewrite isAbortError_exhausted. cbn [negb andb when showBuiltinError].
  eexists. split; [reflexivity|]. split; [reflexivity|].
  cbn [trace]. unfold fetchCount. rewrite filter_app. cbn. rewrite app_nil_r. reflexivity.
Qed.

Lemma forLoop_all_empty (remaining attempt : nat) (lastError : option JsError) (w : World) :
  aborted w = false ->
  Z.of_nat attempt + Z.of_nat (S remaining) = maxRetries settings + 1 ->
  exists w', forLoop env settings abortSignal (S remaining) attempt lastError w
             = (Throw (Error_ (exhaustedMessage settings)), w')
             /\ calls w' = (calls w + S remaining)%nat
             /\ fetchCount (trace w') = (fetchCount (trace w) + S remaining)%nat.
Proof.
  revert attempt lastError w.
  induction remaining as [|rest IH]; intros attempt lastError w Ha Hlen.
  - assert (Hge : (Z.of_nat attempt <? maxRetries settings) = false)
      by (apply Z.ltb_ge; lia).
    destruct (iteration_empty_last attempt lastError w Ha Hge) as [w1 [E1 [C1 [A1 F1]]]].
    destruct (afterLoop_exhausted w1 A1) as [w2 [E2 [C2 F2]]].
    exists w2. split; [|split; lia].
    cbn [forLoop]. rewrite (bind_normal _ E1). exact E2.
  - assert (Hlt : (Z.of_nat attempt <? maxRetries settings) = true)
      by (apply Z.ltb_lt; lia).
    destruct (iteration_empty_retry attempt lastError w Ha Hlt) as [w1 [E1 [C1 [A1 F1]]]].
    destruct (IH (S attempt) lastError w1 A1) as [w2 [E2 [C2 F2]]]; [lia|].
    exists w2. split; [|split; lia].
    change (forLoop env settings abortSignal (S (S rest)) attempt lastError w)
      with (bind (iteration env settings abortSignal attempt lastError)
              (fun step => match step with
                           | Exit r => ret r
                           | Next lastError' =>
                               forLoop env settings abortSignal (S rest) (S attempt) lastError'
                           end) w).
    rewrite (bind_normal _ E1). exact E2.
Qed.

End AllEmpty.

(** ** A body that cannot be read *)

(** C8: in any iteration of the loop that starts with the signal not
    aborted, an answer with a success status whose body cannot be obtained
    for classification is treated in one of two ways.  When the duplicate is
    made and reading its text fails, the loop ends there: it returns that
    very response, raises nothing, makes no further call and shows nothing.
    When [clone()] itself fails, the response is not returned: the error of
    [clone()] leaves the [try] block, and the [catch] treats it as a failure
    of the attempt (a notification and a wait before the next attempt while
    attempts remain, the error UI and the error raised at the last one). *)
Theorem C8_body_not_obtained {H : Host} (env : Env) (settings : Settings)
    (abortSignal : option AbortSignal) (remaining attempt : nat)
    (lastError : option JsError) (w : World) (r : Response) :
  match abortSignal with Some _ => aborted w | None => false end = false ->
  originalFetch env (calls w) = Resolves r ->
  ok r = true ->
  (bodyAccess r = Unreadable ->
   fst (forLoop env settings abortSignal (S remaining) attempt lastError w) = Normal r
   /\ trace (snd (forLoop env settings abortSignal (S remaining) attempt lastError w))
      = trace w ++ [EvFetch (calls w)]
   /\ calls (snd (forLoop env settings abortSignal (S remaining) attempt lastError w))
      = S (calls w))
  /\ (forall e, bodyAccess r = Unclonable e ->
      exists w1,
        tryBlock env settings abortSignal attempt w = (Throw e, w1)
        /\ calls w1 = S (calls w)
        /\ trace w1 = trace w ++ [EvFetch (calls w)]
        /\ iteration env settings abortSignal attempt lastError w
           = bind (catchBlock settings abortSignal attempt e)
               (fun _ => ret (Next (Some e))) w1).
Proof.
  intros Hs Hf Hok. split.
  - intros Hb.
    destruct (iteration_unreadable env settings abortSignal attempt lastError w Hs Hf Hok Hb)
      as [w' [E [C T]]].
    cbn [forLoop]. rewrite (bind_normal _ E). auto.
  - intros e Hb.
    destruct (callOriginalFetch_resolves env abortSignal w Hf) as [w1 [E1 [C1 [T1 _]]]].
    assert (Et : tryBlock env settings abortSignal attempt w = (Throw e, w1)).
    { unfold tryBlock.
      rewrite (bind_normal _ (signalAborted_false abortSignal w Hs)).
      rewrite (bind_normal _ E1). rewrite Hok. cbn [negb].
      apply bind_throw. rewrite clone_spec, Hb. reflexivity. }
    exists w1. split; [exact Et|]. split; [exact C1|]. split; [exact T1|].
    unfold iteration.
    rewrite (tryCatch_throw _ (bind_throw _ Et)). reflexivity.
Qed.

Lemma C8_body_not_obtained_witness :
  fst (run (H := literalHost) unreadableEnv (apiSettings 3) None apiUrl)
  = Normal unreadableResponse
  /\ fst (tryBlock (H := literalHost) usedEnv (apiSettings 1) None 0 (initialWorld None))
     = Throw bodyUsedError.
Proof.
  destruct (C8_body_not_obtained (H := literalHost) unreadableEnv (apiSettings 3) None
              3 0 None (initialWorld None) (r := unreadableResponse)
              eq_refl eq_refl eq_refl) as [Hread _].
  destruct (C8_body_not_obtained (H := literalHost) usedEnv (apiSettings 1) None
              1 0 None (initialWorld None) (r := usedResponse)
              eq_refl eq_refl eq_refl) as [_ Hclone].
  split.
  - exact (proj1 (Hread eq_refl)).
  - destruct (Hclone bodyUsedError eq_refl) as [w1 [E _]]. rewrite E. reflexivity.
Defined.

(** The run at a response whose body is already used, with one retry
    allowed: the failure of [clone()] is notified and waited for, the call
    is made a second time, and at the end the error UI shows the
    [TypeError], which is raised to the caller. *)
Example body_already_used_run :
  run (H := literalHost) usedEnv (apiSettings 1) None apiUrl
  = (Throw bodyUsedError,
     mkWorld 3 2 false
       [EvFetch 0; EvRetryToast 2 2 (calculateDelay (apiSettings 1) 0);
        EvDelay (calculateDelay (apiSettings 1) 0) Elapsed; EvFetch 1;
        EvErrorUI (PayloadOf bodyUsedError)]).
Proof. vm_compute. reflexivity. Qed.

(** ** Every attempt comes back empty *)

(** C1 (amended): with the plugin enabled, a URL that matches the rules, a
    retry budget [maxRetries >= 0], no cancellation during the call, and
    every underlying call answering a success status with a body that is
    classified empty, [enhancedFetch] makes exactly [maxRetries + 1]
    underlying calls and then fails with the error that reports
    [maxRetries + 1] attempts without a valid response. *)
Theorem C1_all_empty_exhausts {H : Host} (env : Env) (settings : Settings)
    (abortSignal : option AbortSignal) (url : UrlArg) :
  enabled settings = true ->
  shouldIntercept settings (urlText url) = Normal true ->
  0 <= maxRetries settings ->
  silent abortSignal ->
  alwaysEmpty env settings ->
  fst (run env settings abortSignal url) = Throw (Error_ (exhaustedMessage settings))
  /\ Z.of_nat (calls (snd (run env settings abortSignal url))) = maxRetries settings + 1
  /\ Z.of_nat (fetchCount (trace (snd (run env settings abortSignal url))))
     = maxRetries settings + 1.
Proof.
  intros Hen Hs Hmax Hsil Hempty. unfold run, enhancedFetch. rewrite Hen, Hs. cbn [negb].
  assert (Hn : neverFires abortSignal)
    by (destruct abortSignal as [sg|]; [exact (proj2 Hsil) | exact I]).
  assert (Ha : aborted (initialWorld abortSignal) = false)
    by (destruct abortSignal as [sg|]; [exact (proj1 Hsil) | reflexivity]).
  assert (Hrem : Z.to_nat (maxRetries settings + 1) = S (Z.to_nat (maxRetries settings)))
    by lia.
  rewrite Hrem.
  destruct (@forLoop_all_empty H env settings abortSignal Hn Hempty
              (Z.to_nat (maxRetries settings)) 0%nat None (initialWorld abortSignal) Ha)
    as [w' [E [C F]]]; [lia|].
  rewrite E. cbn [fst snd]. rewrite C, F. cbn [calls trace initialWorld fetchCount].
  cbn. repeat split; lia.
Qed.

Lemma emptyEnv_alwaysEmpty (settings : Settings) :
  alwaysEmpty (H := literalHost) emptyEnv settings.
Proof.
  intros n. exists (okResponse []), []. repeat split.
Qed.

Lemma C1_all_empty_exhausts_witness :
  fst (run (H := literalHost) emptyEnv (apiSettings 2) None apiUrl)
  = Throw (Error_ (exhaustedMessage (apiSettings 2)))
  /\ Z.of_nat (calls (snd (run (H := literalHost) emptyEnv (apiSettings 2) None apiUrl))) = 3
  /\ Z.of_nat (fetchCount (trace (snd (run (H := literalHost) emptyEnv (apiSettings 2)
                                         None apiUrl)))) = 3.
Proof.
  apply (@C1_all_empty_exhausts literalHost emptyEnv (apiSettings 2) None apiUrl).
  - reflexivity.
  - reflexivity.
  - simpl. lia.
  - exact I.
  - apply emptyEnv_alwaysEmpty.
Defined.

(** C1 as stated fails when the caller cancels: with one retry allowed and
    every answer empty, a signal that fires during the first wait ends the
    call after a single underlying call, with the abort error. *)
Lemma C1_cancelled_counterexample :
  enabled (apiSettings 1) = true
  /\ shouldIntercept (H := literalHost) (apiSettings 1) (urlText apiUrl) = Normal true
  /\ alwaysEmpty (H := literalHost) emptyEnv (apiSettings 1)
  /\ maxRetries (apiSettings 1) + 1 = 2
  /\ calls (snd (run (H := literalHost) emptyEnv (apiSettings 1) (Some (firesAt 2)) apiUrl))
     = 1%nat
  /\ fst (run (H := literalHost) emptyEnv (apiSettings 1) (Some (firesAt 2)) apiUrl)
     = Throw abortError
  /\ abortError <> Error_ (exhaustedMessage (apiSettings 1)).
Proof.
  repeat split; try reflexivity.
  - apply emptyEnv_alwaysEmpty.
  - discriminate.
Qed.

(** ** Empty rules *)

(** C4: with an empty sequence of rules [shouldIntercept] answers false for
    every URL, and [enhancedFetch] hands the call to the underlying function
    with no wait and no notification.  When that call returns a promise, it
    is the only call and its completion is the caller's.  When that call
    throws, the plugin being enabled, the [catch] around the rule check
    calls the underlying function a second time, and the completion of the
    second call is the caller's; with the plugin disabled there is the one
    call. *)
Theorem C4_empty_rules_pass_through {H : Host} (settings : Settings) :
  interceptRules settings = RulesArray [] ->
  (forall url, shouldIntercept settings url = Normal false)
  /\ (forall env abortSignal url,
        match originalFetch env 0 with
        | Resolves _ | Rejects _ =>
            fst (run env settings abortSignal url) = completionOf (originalFetch env 0)
            /\ trace (snd (run env settings abortSignal url)) = [EvFetch 0]
            /\ calls (snd (run env settings abortSignal url)) = 1%nat
        | Throws e =>
            if enabled settings then
              fst (run env settings abortSignal url) = completionOf (originalFetch env 1)
              /\ trace (snd (run env settings abortSignal url)) = [EvFetch 0; EvFetch 1]
              /\ calls (snd (run env settings abortSignal url)) = 2%nat
            else
              fst (run env settings abortSignal url) = Throw e
              /\ trace (snd (run env settings abortSignal url)) = [EvFetch 0]
              /\ calls (snd (run env settings abortSignal url)) = 1%nat
        end).
Proof.
  intros Hr.
  assert (Hs : forall url, shouldIntercept settings url = Normal false)
    by (intros url; unfold shouldIntercept; rewrite Hr; reflexivity).
  split; [exact Hs|]. intros env abortSignal url.
  unfold run, enhancedFetch. rewrite Hs.
  pose proof (callOriginalFetch_first env abortSignal) as Hc.
  pose proof (passThrough_first env abortSignal) as Hp.
  destruct (originalFetch env 0) as [r | e | e];
    destruct (enabled settings); cbn [negb]; assumption.
Qed.

Lemma C4_empty_rules_pass_through_witness :
  shouldIntercept (H := literalHost) DEFAULT_SETTINGS (js "https://host/api/chat")
  = Normal false
  /\ trace (snd (run (H := literalHost) emptyEnv DEFAULT_SETTINGS None apiUrl))
     = [EvFetch 0]
  /\ calls (snd (run (H := literalHost) throwingEnv DEFAULT_SETTINGS None apiUrl))
     = 2%nat.
Proof.
  destruct (C4_empty_rules_pass_through (H := literalHost) DEFAULT_SETTINGS eq_refl)
    as [Hs Hf].
  split; [apply Hs|]. split.
  - apply (Hf emptyEnv None apiUrl).
  - apply (Hf throwingEnv None apiUrl).
Defined.

(** The run with the default settings (no rule) at an underlying function
    that throws when called: it is called twice, and the error of the
    second call is the caller's. *)
Example throwing_fetch_run :
  run (H := literalHost) throwingEnv DEFAULT_SETTINGS None apiUrl
  = (Throw notAFunction, mkWorld 0 2 false [EvFetch 0; EvFetch 1]).
Proof. vm_compute. reflexivity. Qed.


(** ** Concrete runs *)

Example third_attempt_succeeds :
  run (H := literalHost) thirdTimeEnv thirdTimeSettings None
    (UrlString (js "https://host/foo/bar/baz"))
  = (Normal (okResponse (js "hello world this is fine")),
     mkWorld 8 3 false
       [EvFetch 0; EvRetryToast 2 3 100; EvDelay 100 Elapsed;
        EvFetch 1; EvRetryToast 3 3 100; EvDelay 100 Elapsed;
        EvFetch 2; EvSuccessToast]).
Proof. vm_compute. reflexivity. Qed.

Example other_url_passes_through :
  run (H := literalHost) thirdTimeEnv thirdTimeSettings None
    (UrlString (js "https://host/other"))
  = (Normal (okResponse []), mkWorld 1 1 false [EvFetch 0]).
Proof. vm_compute. reflexivity. Qed.

Example isEmptyContent_examples :
  isEmptyContent DEFAULT_SETTINGS [] = true
  /\ isEmptyContent DEFAULT_SETTINGS (js "  ok  ") = true
  /\ isEmptyContent DEFAULT_SETTINGS [32; 10; 9; 32; 32; 32; 13]%N = true
  /\ isEmptyContent DEFAULT_SETTINGS (js "hello") = false.
Proof. repeat split. Qed.

(** The completion shape: the content of every choice, joined by a line
    feed. *)
Example extractParts_choices :
  extractParts
    (JObj [(js "choices",
            JArr [JObj [(js "message", JObj [(js "content", JStr (js "Hi"))])];
                  JObj [(js "text", JStr (js "there"))];
                  JNull])])
  = [js "Hi"; js "there"].
Proof. reflexivity. Qed.

Example approxTokens_examples :
  approxTokens (js "Hello world") = 4 /\ approxTokens [] = 0.
Proof. split; reflexivity. Qed.

(** A rejected call is retried; the failed status that follows is the last
    error, shown and raised. *)
Example failures_are_retried :
  run (H := literalHost) flakyEnv (apiSettings 1) None apiUrl
  = (Throw (Error_ (js "HTTP 500: Internal Server Error")),
     mkWorld 4 2 false
       [EvFetch 0; EvRetryToast 2 2 1000; EvDelay 1000 Elapsed; EvFetch 1;
        EvErrorUI (PayloadOf (Error_ (js "HTTP 500: Internal Server Error")))]).
Proof. vm_compute. reflexivity. Qed.

(** A signal already aborted when the call starts: no underlying call. *)
Example aborted_before_start :
  run (H := literalHost) emptyEnv (apiSettings 1) (Some (mkSignal true (fun _ => false)))
    apiUrl
  = (Throw abortError, mkWorld 0 0 true []).
Proof. vm_compute. reflexivity. Qed.

(** * Further properties *)

(** ** The ways an iteration ends *)

Section OutcomeFacts.
Context {H : Host}.
Variable env : Env.
Variable settings : Settings.
Variable abortSignal : option AbortSignal.

Lemma Advances_refl (w : World) : Advances abortSignal w w 0 [].
Proof. constructor; auto. rewrite app_nil_r. reflexivity. Qed.

Lemma Advances_trans (w1 w2 w3 : World) (k1 k2 : nat) (e1 e2 : list Event) :
  Advances abortSignal w1 w2 k1 e1 -> Advances abortSignal w2 w3 k2 e2 ->
  Advances abortSignal w1 w3 (k1 + k2) (e1 ++ e2).
Proof.
  intros [C1 T1 M1 Q1] [C2 T2 M2 Q2]. constructor.
  - rewrite C2, C1. lia.
  - rewrite T2, T1, app_assoc. reflexivity.
  - auto.
  - intros Hn. rewrite Q2, Q1; auto.
Qed.

Lemma suspend_advances (w : World) :
  suspend abortSignal w = (Normal tt, snd (suspend abortSignal w))
  /\ Advances abortSignal w (snd (suspend abortSignal w)) 0 [].
Proof.
  split; [reflexivity|]. constructor; simpl.
  - lia.
  - rewrite app_nil_r. reflexivity.
  - unfold signalled. destruct abortSignal as [sg|]; simpl; [|auto].
    intros ->. reflexivity.
  - intros Hn. destruct abortSignal as [sg|]; [|reflexivity].
    simpl in Hn. rewrite Hn. apply orb_false_r.
Qed.

Lemma emit_advances (ev : Event) (w : World) :
  emit ev w = (Normal tt, snd (emit ev w))
  /\ Advances abortSignal w (snd (emit ev w)) 0 [ev].
Proof.
  split; [reflexivity|]. constructor; simpl; auto.
Qed.

Lemma callOriginalFetch_advances (w : World) :
  exists w', callOriginalFetch env abortSignal w
             = (completionOf (originalFetch env (calls w)), w')
             /\ Advances abortSignal w w' 1 [EvFetch (calls w)].
Proof.
  unfold callOriginalFetch, originalFetchCall, bind.
  set (w1 := mkWorld (ticks w) (S (calls w)) (aborted w) (trace w ++ [EvFetch (calls w)])).
  assert (A1 : Advances abortSignal w w1 1 [EvFetch (calls w)]).
  { constructor; simpl; auto. lia. }
  destruct (suspend_advances w1) as [E A].
  pose proof (Advances_trans A1 A) as A2. cbn [Nat.add app] in A2.
  destruct (originalFetch env (calls w)).
  - exists (snd (suspend abortSignal w1)). split; [reflexivity | exact A2].
  - exists (snd (suspend abortSignal w1)). split; [reflexivity | exact A2].
  - exists w1. split; [reflexivity | exact A1].
Qed.

Lemma bodyText_readable (r : Response) (text : jsstring) :
  bodyText r = Some text -> bodyAccess r = Readable text.
Proof.
  unfold bodyText. destruct (bodyAccess r); intros E; try discriminate E.
  injection E as ->. reflexivity.
Qed.

Lemma bodyText_none (r : Response) :
  bodyText r = None ->
  bodyAccess r = Unreadable \/ exists e, bodyAccess r = Unclonable e.
Proof.
  unfold bodyText. destruct (bodyAccess r); intros E; try discriminate E; eauto.
Qed.

Lemma readText_advances (r : Response) (w : World) :
  exists w', readText abortSignal r w
             = (match bodyText r with
                | Some t => Normal t
                | None => Throw (hostError "TypeError")
                end, w')
             /\ Advances abortSignal w w' 0 [].
Proof.
  unfold readText. destruct (suspend_advances w) as [E A].
  rewrite (bind_normal _ E). exists (snd (suspend abortSignal w)).
  split; [destruct (bodyText r); reflexivity | exact A].
Qed.

Lemma getTokenCountFor_advances (text : jsstring) (w : World) :
  exists w', getTokenCountFor env abortSignal text w = (Normal (tokenCountOf env text), w')
             /\ Advances abortSignal w w' 0 [].
Proof.
  unfold getTokenCountFor, tokenCountOf.
  destruct (getTokenCountAsyncFn env) as [f|].
  - destruct (suspend_advances w) as [E A].
    exists (snd (suspend abortSignal w)). split; [|exact A].
    unfold bind, tryCatch. rewrite E. destruct (f text); reflexivity.
  - exists w. split; [reflexivity | apply Advances_refl].
Qed.

Lemma classify_advances (text : jsstring) (w : World) :
  exists w', classify env settings abortSignal text w
             = (Normal (classifiedEmpty env settings text), w')
             /\ Advances abortSignal w w' 0 [].
Proof.
  unfold classify, classifiedEmpty.
  destruct (isEmptyContent settings text); simpl.
  - exists w. split; [reflexivity | apply Advances_refl].
  - destruct (enableMinTokenRetry settings); simpl.
    + fold (candidateOf text).
      destruct (getTokenCountFor_advances (candidateOf text) w) as [w1 [E1 A1]].
      destruct (suspend_advances w1) as [E2 A2].
      exists (snd (suspend abortSignal w1)). split.
      * rewrite (bind_normal _ E1). rewrite (bind_normal _ E2). reflexivity.
      * apply (Advances_trans A1 A2).
    + exists w. split; [reflexivity | apply Advances_refl].
Qed.

(** The wait: elapsed, abandoned, or not started because the signal has
    fired already. *)
Lemma delay_advances (ms : Z) (w : World) :
  (exists w', delay abortSignal ms w = (Normal tt, w')
              /\ Advances abortSignal w w' 0 [EvDelay ms Elapsed]
              /\ signalled abortSignal w' = false)
  \/ (exists w', delay abortSignal ms w = (Throw abortError, w')
                 /\ Advances abortSignal w w' 0 [EvDelay ms Abandoned]
                 /\ signalled abortSignal w = false
                 /\ signalled abortSignal w' = true)
  \/ (delay abortSignal ms w = (Throw abortError, w)
      /\ signalled abortSignal w = true).
Proof.
  unfold delay, signalled. destruct abortSignal as [sg|] eqn:Es.
  - destruct (aborted w) eqn:Ea; [right; right; auto|].
    destruct (firesDuring sg (ticks w)) eqn:Ef.
    + right; left. eexists. split; [reflexivity|]. split; [|auto].
      constructor; simpl; auto; try lia.
      intros Hn. rewrite Hn in Ef. discriminate Ef.
    + left. eexists. split; [reflexivity|]. split; [|auto].
      constructor; simpl; auto; try lia; congruence.
  - left. eexists. split; [reflexivity|]. split; [|auto].
    constructor; simpl; auto; try lia.
Qed.

Lemma nonOkBranch_advances (A : Type) (r : Response) (w : World) :
  exists w', nonOkBranch abortSignal (A := A) r w = (Throw (plainHttpError r), w')
             /\ Advances abortSignal w w' 0 [].
Proof.
  destruct (readText_advances r w) as [w1 [E1 A1]].
  unfold nonOkBranch. pose proof (clone_spec r w) as Ec. unfold bodyText in E1.
  destruct (bodyAccess r) as [t | | e].
  - exists w1. split; [|exact A1].
    erewrite tryCatch_throw; cycle 1.
    { rewrite (bind_normal _ Ec), (bind_normal _ E1). reflexivity. }
    reflexivity.
  - exists w1. split; [|exact A1].
    erewrite tryCatch_throw; cycle 1.
    { rewrite (bind_normal _ Ec). apply bind_throw, E1. }
    reflexivity.
  - exists w. split; [|apply Advances_refl].
    rewrite (tryCatch_throw _ (bind_throw _ Ec)). reflexivity.
Qed.

Lemma showBuiltinError_exhausted :
  showBuiltinError (PayloadText (exhaustedMessage settings))
  = emit (EvErrorUI (PayloadText (exhaustedMessage settings))).
Proof. reflexivity. Qed.

Lemma signalAborted_eq (w : World) :
  signalAborted abortSignal w = (Normal (signalled abortSignal w), w).
Proof. reflexivity. Qed.

Lemma tryBlock_outcome (attempt : nat) (w : World) :
  TryOutcome env settings abortSignal attempt w
    (fst (tryBlock env settings abortSignal attempt w))
    (snd (tryBlock env settings abortSignal attempt w)).
Proof.
  unfold tryBlock. rewrite (bind_normal _ (signalAborted_eq w)).
  destruct (signalled abortSignal w) eqn:Hs; [apply TryAborted, Hs|].
  destruct (callOriginalFetch_advances w) as [w1 [E1 A1]].
  destruct (originalFetch env (calls w)) as [r|e|e] eqn:Hf; cbn [completionOf] in E1.
  2:{ rewrite (bind_throw _ E1). apply TryRejected; [assumption | | assumption].
      rewrite Hf. reflexivity. }
  2:{ rewrite (bind_throw _ E1). apply TryRejected; [assumption | | assumption].
      rewrite Hf. reflexivity. }
  rewrite (bind_normal _ E1). destruct (ok r) eqn:Hok; cbn [negb].
  2:{ destruct (nonOkBranch_advances TryExit r w1) as [w2 [E2 A2]]. rewrite E2.
      apply TryStatus; try assumption. apply (Advances_trans A1 A2). }
  pose proof (clone_spec r w1) as Ec.
  destruct (bodyAccess r) as [text0 | | e] eqn:Ha.
  3:{ rewrite (bind_throw _ Ec). eapply TryUnclonable; eassumption. }
  all: rewrite (bind_normal _ Ec).
  all: destruct (readText_advances r w1) as [w2 [E2 A2]].
  all: pose proof (Advances_trans A1 A2) as A12; cbn [Nat.add app] in A12.
  all: unfold bodyText in E2; rewrite Ha in E2.
  2:{ assert (Er : tryCatch (text <- readText abortSignal r ;; ret (Some text))
                     (fun _ => ret None) w1 = (Normal None, w2))
        by (rewrite (tryCatch_throw _ (bind_throw _ E2)); reflexivity).
      rewrite (bind_normal _ Er). apply TryUnreadable; assumption. }
  assert (Hb : bodyText r = Some text0) by (unfold bodyText; rewrite Ha; reflexivity).
  set (text := text0) in *.
  assert (Er : tryCatch (text <- readText abortSignal r ;; ret (Some text))
                 (fun _ => ret None) w1 = (Normal (Some text), w2))
    by (apply tryCatch_normal; rewrite (bind_normal _ E2); reflexivity).
  rewrite (bind_normal _ Er).
  destruct (classify_advances text w2) as [w3 [E3 A3]].
  pose proof (Advances_trans A12 A3) as A13. cbn [Nat.add app] in A13.
  rewrite (bind_normal _ E3).
  destruct (classifiedEmpty env settings text) eqn:Hc.
  - destruct (Z.of_nat attempt <? maxRetries settings) eqn:Hlt.
    + unfold showRetryToast.
      destruct (emit_advances (retryToast settings attempt) w3) as [E4 A4].
      fold (retryToast settings attempt). rewrite (bind_normal _ E4).
      pose proof (Advances_trans A13 A4) as A14. cbn [Nat.add app] in A14.
      destruct (delay_advances (calculateDelay settings attempt)
                  (snd (emit (retryToast settings attempt) w3)))
        as [[w5 [E5 [A5 S5]]] | [[w5 [E5 [A5 [S4 S5]]]] | [E5 S5]]].
      * rewrite (bind_normal _ E5). cbn [ret fst snd].
        eapply TryEmptyWaited; eauto. apply (Advances_trans A14 A5).
      * rewrite (bind_throw _ E5). cbn [fst snd].
        eapply TryEmptyAbandoned; eauto. apply (Advances_trans A14 A5).
      * rewrite (bind_throw _ E5). cbn [fst snd].
        eapply TryEmptyCancelled; eauto.
    + rewrite (bind_normal _ (signalAborted_eq w3)).
      destruct (signalled abortSignal w3) eqn:S3; cbn [negb when].
      * cbn [bind ret throw fst snd]. eapply TryExhausted; eauto.
        rewrite S3. exact A13.
      * rewrite showBuiltinError_exhausted.
        destruct (emit_advances (EvErrorUI (PayloadText (exhaustedMessage settings))) w3)
          as [E4 A4].
        rewrite (bind_normal _ E4). cbn [throw fst snd].
        pose proof (Advances_trans A13 A4) as A14. cbn [Nat.add app] in A14.
        eapply TryExhausted; eauto.
        replace (signalled abortSignal
                   (snd (emit (EvErrorUI (PayloadText (exhaustedMessage settings))) w3)))
          with false by (symmetry; exact S3).
        exact A14.
  - destruct (0 <? Z.of_nat attempt) eqn:Hpos; cbn [when].
    + destruct (emit_advances EvSuccessToast w3) as [E4 A4].
      rewrite (bind_normal _ E4). cbn [ret fst snd].
      pose proof (Advances_trans A13 A4) as A14. cbn [Nat.add app] in A14.
      eapply TryContent; eauto. rewrite Hpos. exact A14.
    + cbn [bind ret fst snd]. eapply TryContent; eauto. rewrite Hpos. exact A13.
Qed.

Lemma catchBlock_outcome (attempt : nat) (error : JsError) (w : World) :
  CatchOutcome settings abortSignal attempt error w
    (fst (catchBlock settings abortSignal attempt error w))
    (snd (catchBlock settings abortSignal attempt error w)).
Proof.
  unfold catchBlock. rewrite (bind_normal _ (signalAborted_eq w)).
  destruct (isAbortError error || signalled abortSignal w) eqn:Hab.
  - apply CatchRethrown, Hab.
  - apply orb_false_iff in Hab. destruct Hab as [He Hs].
    destruct (Z.of_nat attempt <? maxRetries settings) eqn:Hlt.
    + unfold showRetryToast. fold (retryToast settings attempt).
      destruct (emit_advances (retryToast settings attempt) w) as [E1 A1].
      rewrite (bind_normal _ E1).
      destruct (delay_advances (calculateDelay settings attempt)
                  (snd (emit (retryToast settings attempt) w)))
        as [[w2 [E2 [A2 S2]]] | [[w2 [E2 [A2 [S1 S2]]]] | [E2 S2]]].
      * rewrite E2. apply CatchWaited; try assumption. apply (Advances_trans A1 A2).
      * rewrite E2. apply CatchAbandoned; try assumption. apply (Advances_trans A1 A2).
      * exfalso. change (signalled abortSignal w = true) in S2. congruence.
    + apply CatchLast; assumption.
Qed.

(** An answer is a failure, empty or accepted, and one of them only. *)
Lemma answer_failure_not_empty (o : FetchOutcome) (e : JsError) :
  failureOf o = Some e ->
  emptyAnswer env settings o = false /\ acceptedAnswer env settings o = None.
Proof.
  destruct o as [r|e'|e']; simpl; [|auto|auto].
  unfold bodyText. destruct (ok r); [|auto].
  destruct (bodyAccess r); [discriminate | discriminate | auto].
Qed.

Lemma answer_empty_not_accepted (o : FetchOutcome) :
  emptyAnswer env settings o = true ->
  failureOf o = None /\ acceptedAnswer env settings o = None.
Proof.
  destruct o as [r|e'|e']; simpl; [|discriminate|discriminate].
  unfold bodyText. destruct (ok r); [|discriminate]. simpl.
  destruct (bodyAccess r); [|discriminate|discriminate]. intros ->. auto.
Qed.

Lemma answer_cases (o : FetchOutcome) :
  (exists e, failureOf o = Some e)
  \/ emptyAnswer env settings o = true
  \/ (exists r, acceptedAnswer env settings o = Some r).
Proof.
  destruct o as [r|e'|e']; simpl; [|eauto|eauto].
  unfold bodyText. destruct (ok r); simpl; [|eauto].
  destruct (bodyAccess r) as [text| |e]; [|eauto|eauto].
  destruct (classifiedEmpty env settings text); simpl; eauto.
Qed.

Lemma iteration_eq (attempt : nat) (lastError : option JsError) (w : World) :
  iteration env settings abortSignal attempt lastError w
  = match tryBlock env settings abortSignal attempt w with
    | (Normal (ReturnResponse r), w1) => (Normal (Exit r), w1)
    | (Normal Continue, w1) => (Normal (Next lastError), w1)
    | (Throw error, w1) =>
        match catchBlock settings abortSignal attempt error w1 with
        | (Normal _, w2) => (Normal (Next (Some error)), w2)
        | (Throw e, w2) => (Throw e, w2)
        end
    end.
Proof.
  unfold iteration, tryCatch, bind.
  destruct (tryBlock env settings abortSignal attempt w) as [[[r|]|e] w1]; reflexivity.
Qed.

End OutcomeFacts.

(** Read the kind of an answer off the facts about the response. *)
Ltac answer :=
  try match goal with
      | Hx : callError ?o = Some _ |- _ =>
          destruct o eqn:?; cbn [callError] in Hx;
          [discriminate Hx | injection Hx as -> | injection Hx as ->]
      end;
  unfold retryableAnswer, failureOf, emptyAnswer, acceptedAnswer, successToast, bodyText;
  repeat match goal with
         | Hf : originalFetch _ _ = _ |- _ => rewrite Hf
         | Hf : ok _ = _ |- _ => rewrite Hf
         | Hf : bodyAccess _ = _ |- _ => rewrite Hf
         | Hf : bodyText _ = Some _ |- _ => rewrite (@bodyText_readable _ _ Hf)
         | Hf : bodyText _ = _ |- _ => rewrite Hf
         | Hf : classifiedEmpty _ _ _ = _ |- _ => rewrite Hf
         | Hf : isAbortError _ = _ |- _ => rewrite Hf
         end;
  simpl; try reflexivity; try assumption.


(** Chain two advances, with the sums and the concatenations computed. *)
Ltac advance :=
  match goal with
  | A1 : Advances _ ?w ?w1 _ _, A2 : Advances _ ?w1 ?w2 _ _ |- Advances _ ?w ?w2 _ _ =>
      let A := fresh "A" in
      pose proof (Advances_trans A1 A2) as A; cbn [Nat.add app] in A; exact A
  | A1 : Advances _ ?w ?w1 _ _ |- Advances _ ?w ?w1 _ _ => exact A1
  end.

(** Facts that cannot hold together at the end of an iteration. *)
Ltac impossible :=
  match goal with
  | Hx : isAbortError abortError = false |- _ =>
      rewrite isAbortError_abortError in Hx; discriminate Hx
  | Hx : ?a = true, Hy : ?a = false |- _ => congruence
  end.

Section IterationFacts.
Context {H : Host}.
Variable env : Env.
Variable settings : Settings.
Variable abortSignal : option AbortSignal.

Lemma iteration_outcome (attempt : nat) (lastError : option JsError) (w : World) :
  IterOutcome env settings abortSignal attempt lastError w
    (fst (iteration env settings abortSignal attempt lastError w))
    (snd (iteration env settings abortSignal attempt lastError w)).
Proof.
  rewrite iteration_eq.
  pose proof (@tryBlock_outcome H env settings abortSignal attempt w) as HT.
  destruct (tryBlock env settings abortSignal attempt w) as [[[r|]|e] w1];
    cbn [fst snd] in HT.
  - inversion HT; subst; apply IterAccepted; try assumption; answer.
  - inversion HT; subst. apply IterEmptyRetry; try assumption; answer.
  - pose proof (@catchBlock_outcome settings abortSignal attempt e w1) as HC.
    destruct (catchBlock settings abortSignal attempt e w1) as [[[]|e'] w2];
      cbn [fst snd] in HC.
    + inversion HT; subst; inversion HC; subst; try impossible.
      all: first
        [ solve [eapply IterFailedLast; eauto; answer]
        | solve [eapply IterFailedRetry; eauto; try advance; answer]
        | solve [eapply IterExhausted; eauto; answer;
                 match goal with
                 | Hs : signalled _ _ = false, A1 : Advances _ _ _ _ _ |- _ =>
                     rewrite Hs in A1; exact A1
                 end] ].
    + inversion HT; subst; inversion HC; subst; try impossible;
        try match goal with
            | Hx : isAbortError (Error_ (exhaustedMessage _)) || _ = true |- _ =>
                rewrite isAbortError_exhausted in Hx; cbn [orb] in Hx
            end;
        try match goal with
            | Hs : signalled _ ?w1 = true,
              A1 : Advances _ _ ?w1 _ (_ :: if signalled _ ?w1 then _ else _) |- _ =>
                rewrite Hs in A1
            end.
      all: first
        [ solve [apply IterAborted; assumption]
        | solve [eapply IterPropagated; eauto; answer]
        | solve [eapply IterWaitCancelled with (rest := [wait settings attempt Abandoned]);
                 eauto; first [advance | answer]]
        | solve [eapply IterWaitCancelled with (rest := []); eauto; first [advance | answer]]
        | solve [eapply IterExhaustedCancelled; eauto; answer] ].
Qed.

End IterationFacts.

(** ** The loop as a whole *)

Section LoopFacts.
Context {H : Host}.
Variable env : Env.
Variable settings : Settings.
Variable abortSignal : option AbortSignal.

Lemma forLoop_S (rest attempt : nat) (lastError : option JsError) (w : World) :
  forLoop env settings abortSignal (S rest) attempt lastError w
  = match iteration env settings abortSignal attempt lastError w with
    | (Normal (Exit r), w1) => (Normal r, w1)
    | (Normal (Next lastError'), w1) =>
        forLoop env settings abortSignal rest (S attempt) lastError' w1
    | (Throw e, w1) => (Throw e, w1)
    end.
Proof.
  cbn [forLoop]. unfold bind.
  destruct (iteration env settings abortSignal attempt lastError w) as [[[r|le]|e] w1];
    reflexivity.
Qed.

(** The error raised after the loop, and whether it is shown. *)
Lemma afterLoop_spec (lastError : option JsError) (w : World) :
  let err := match lastError with
             | Some e => e
             | None => Error_ retryLimitMessage
             end in
  exists w', afterLoop abortSignal (A := Response) lastError w = (Throw err, w')
             /\ Advances abortSignal w w' 0
                  (if negb (isAbortError err) && negb (signalled abortSignal w)
                   then [EvErrorUI (PayloadOf err)] else [])
             /\ signalled abortSignal w' = signalled abortSignal w.
Proof.
  intros err. unfold afterLoop. fold err.
  rewrite (bind_normal _ (signalAborted_eq abortSignal w)).
  destruct (negb (isAbortError err) && negb (signalled abortSignal w)); cbn [when].
  - destruct (emit_advances abortSignal (EvErrorUI (PayloadOf err)) w) as [E A].
    change (showBuiltinError (PayloadOf err)) with (emit (EvErrorUI (PayloadOf err))).
    rewrite (bind_normal _ E). eexists. split; [reflexivity|]. split; [exact A|].
    unfold signalled. destruct abortSignal; reflexivity.
  - exists w. split; [reflexivity|]. split; [apply Advances_refl | reflexivity].
Qed.

Lemma signalled_quiet (w w' : World) (k : nat) (ext : list Event) :
  neverFires abortSignal -> Advances abortSignal w w' k ext ->
  signalled abortSignal w' = signalled abortSignal w.
Proof.
  intros Hn [_ _ _ Q]. unfold signalled. destruct abortSignal; [apply Q, Hn | reflexivity].
Qed.

(** *** The number of underlying calls *)

Lemma fetchCount_app (a b : list Event) :
  fetchCount (a ++ b) = (fetchCount a + fetchCount b)%nat.
Proof. unfold fetchCount. rewrite filter_app, length_app. reflexivity. Qed.

Lemma fetchCount_successToast (attempt : nat) (r : Response) :
  fetchCount (successToast attempt r) = 0%nat.
Proof.
  unfold successToast. destruct (bodyText r); [|reflexivity].
  destruct (0 <? Z.of_nat attempt); reflexivity.
Qed.

Lemma fetchCount_cons_fetch (n : nat) (tr : list Event) :
  fetchCount (EvFetch n :: tr) = S (fetchCount tr).
Proof. reflexivity. Qed.

Lemma iteration_calls (attempt : nat) (lastError : option JsError) (w : World) :
  exists k ext,
    Advances abortSignal w (snd (iteration env settings abortSignal attempt lastError w)) k ext
    /\ (k <= 1)%nat /\ fetchCount ext = k.
Proof.
  pose proof (iteration_outcome env settings abortSignal attempt lastError w) as HI.
  destruct (iteration env settings abortSignal attempt lastError w) as [res w1].
  cbn [fst snd] in *.
  inversion HI; subst;
    try (exists 0%nat, []; split; [apply Advances_refl | split; [lia | reflexivity]]);
    try (eexists 1%nat, _; split; [eassumption | split; [lia|]]);
    try reflexivity.
  - rewrite fetchCount_cons_fetch, fetchCount_successToast. reflexivity.
  - match goal with Hr : _ \/ _ |- _ => destruct Hr as [-> | ->] end; reflexivity.
Qed.

Lemma forLoop_calls (remaining attempt : nat) (lastError : option JsError) (w : World) :
  exists k ext,
    Advances abortSignal w
      (snd (forLoop env settings abortSignal remaining attempt lastError w)) k ext
    /\ (k <= remaining)%nat /\ fetchCount ext = k.
Proof.
  revert attempt lastError w.
  induction remaining as [|rest IH]; intros attempt lastError w.
  - cbn [forLoop]. destruct (afterLoop_spec lastError w) as [w' [E [A _]]].
    rewrite E. eexists 0%nat, _. split; [exact A|]. split; [lia|].
    destruct (negb _ && negb _); reflexivity.
  - rewrite forLoop_S.
    destruct (iteration_calls attempt lastError w) as [k1 [e1 [A1 [K1 F1]]]].
    destruct (iteration env settings abortSignal attempt lastError w) as [[[r|le]|e] w1];
      cbn [snd] in *.
    + exists k1, e1. split; [exact A1|]. split; [lia | exact F1].
    + destruct (IH (S attempt) le w1) as [k2 [e2 [A2 [K2 F2]]]].
      exists (k1 + k2)%nat, (e1 ++ e2). split; [apply (Advances_trans A1 A2)|].
      split; [lia|]. rewrite fetchCount_app. lia.
    + exists k1, e1. split; [exact A1|]. split; [lia | exact F1].
Qed.

End LoopFacts.

(** The pass-through makes one underlying call, or two when the first
    throws, and each is recorded. *)
Lemma passThrough_calls (env : Env) (abortSignal : option AbortSignal) :
  calls (snd (passThrough env abortSignal (initialWorld abortSignal)))
  = match originalFetch env 0 with
    | Throws _ => 2%nat
    | Resolves _ | Rejects _ => 1%nat
    end
  /\ fetchCount (trace (snd (passThrough env abortSignal (initialWorld abortSignal))))
     = calls (snd (passThrough env abortSignal (initialWorld abortSignal))).
Proof.
  rewrite passThrough_spec. change (calls (initialWorld abortSignal)) with 0%nat.
  destruct (originalFetch env 0);
    match goal with
    | |- context [callOriginalFetch env abortSignal ?w] =>
        destruct (callOriginalFetch_advances env abortSignal w) as [w' [E [C T _ _]]]
    end;
    rewrite E; cbn [snd]; rewrite C, T; split; reflexivity.
Qed.

(** X1: The underlying calls of one call of [enhancedFetch] number at most
    [maxRetries + 1], or one when that is more (two when the first call
    throws, which the pass-through answers with a second call), and each
    is recorded in the trace. *)
Theorem enhancedFetch_call_bound {H : Host} (env : Env) (settings : Settings)
    (abortSignal : option AbortSignal) (url : UrlArg) :
  (calls (snd (run env settings abortSignal url))
   <= Nat.max (match originalFetch env 0 with
               | Throws _ => 2
               | Resolves _ | Rejects _ => 1
               end)
              (Z.to_nat (maxRetries settings + 1)))%nat
  /\ fetchCount (trace (snd (run env settings abortSignal url)))
     = calls (snd (run env settings abortSignal url)).
Proof.
  unfold run, enhancedFetch.
  set (bound := Nat.max _ _).
  assert (Hb : (1 <= bound)%nat)
    by (unfold bound; destruct (originalFetch env 0); lia).
  assert (Hcall : (calls (snd (callOriginalFetch env abortSignal (initialWorld abortSignal)))
                   <= bound)%nat
                  /\ fetchCount (trace (snd (callOriginalFetch env abortSignal
                                               (initialWorld abortSignal))))
                     = calls (snd (callOriginalFetch env abortSignal
                                     (initialWorld abortSignal)))).
  { destruct (callOriginalFetch_advances env abortSignal (initialWorld abortSignal))
      as [w' [E [C T _ _]]].
    rewrite E. cbn [snd]. rewrite C, T. cbn [calls trace initialWorld app].
    split; [lia | reflexivity]. }
  assert (Hpass : (calls (snd (passThrough env abortSignal (initialWorld abortSignal)))
                   <= bound)%nat
                  /\ fetchCount (trace (snd (passThrough env abortSignal
                                               (initialWorld abortSignal))))
                     = calls (snd (passThrough env abortSignal
                                     (initialWorld abortSignal)))).
  { destruct (passThrough_calls env abortSignal) as [C F]. split; [|exact F].
    rewrite C. unfold bound. destruct (originalFetch env 0); lia. }
  destruct (negb (enabled settings)); [exact Hcall|].
  destruct (shouldIntercept settings (urlText url)) as [[|]|e];
    [|exact Hpass | exact Hcall].
  destruct (forLoop_calls env settings abortSignal (Z.to_nat (maxRetries settings + 1))
              0 None (initialWorld abortSignal)) as [k [ext [[C T _ _] [K F]]]].
  rewrite C, T. cbn [calls trace initialWorld app]. rewrite F. split; [|reflexivity].
  unfold bound. lia.
Qed.

(** *** What an intercepted call returns *)

Section ReturnedResponse.
Context {H : Host}.
Variable env : Env.
Variable settings : Settings.
Variable abortSignal : option AbortSignal.

Lemma forLoop_returns (remaining attempt : nat) (lastError : option JsError)
    (w w' : World) (r : Response) :
  forLoop env settings abortSignal remaining attempt lastError w = (Normal r, w') ->
  exists n, calls w' = S n
            /\ acceptedAnswer env settings (originalFetch env n) = Some r.
Proof.
  revert attempt lastError w.
  induction remaining as [|rest IH]; intros attempt lastError w E.
  - cbn [forLoop] in E. destruct (afterLoop_spec abortSignal lastError w) as [w1 [E1 _]].
    rewrite E1 in E. discriminate E.
  - rewrite forLoop_S in E.
    pose proof (iteration_outcome env settings abortSignal attempt lastError w) as HI.
    destruct (iteration env settings abortSignal attempt lastError w) as [[[r1|le]|e] w1];
      cbn [fst snd] in HI.
    + injection E as -> ->. inversion HI; subst.
      exists (calls w). split; [|assumption].
      match goal with A : Advances _ _ _ _ _ |- _ => destruct A as [C _ _ _] end.
      rewrite C. lia.
    + apply (IH _ _ _ E).
    + discriminate E.
Qed.

End ReturnedResponse.

(** X3: An intercepted call returns nothing but the answer of its last
    underlying call, and only when that answer has a success status and a
    body whose duplicate cannot be read or is not classified empty. *)
Theorem enhancedFetch_returns_accepted {H : Host} (env : Env) (settings : Settings)
    (abortSignal : option AbortSignal) (url : UrlArg) (r : Response) :
  enabled settings = true ->
  shouldIntercept settings (urlText url) = Normal true ->
  fst (run env settings abortSignal url) = Normal r ->
  ok r = true
  /\ (bodyAccess r = Unreadable
      \/ exists text, bodyText r = Some text /\ classifiedEmpty env settings text = false)
  /\ exists n, calls (snd (run env settings abortSignal url)) = S n
               /\ originalFetch env n = Resolves r.
Proof.
  intros Hen Hs Hr. unfold run, enhancedFetch in *. rewrite Hen, Hs in *. cbn [negb] in *.
  destruct (forLoop env settings abortSignal (Z.to_nat (maxRetries settings + 1)) 0 None
              (initialWorld abortSignal)) as [res w'] eqn:E.
  cbn [fst snd] in *. subst res.
  apply forLoop_returns in E. destruct E as [n [C A]].
  unfold acceptedAnswer in A.
  destruct (originalFetch env n) as [r'|e|e] eqn:Hf; [|discriminate A|discriminate A].
  destruct (ok r') eqn:Hok; [|discriminate A]. cbn [andb] in A.
  destruct (bodyAccess r') as [text| |e] eqn:Hb; [| |discriminate A].
  - destruct (classifiedEmpty env settings text) eqn:Hc; [discriminate A|].
    injection A as <-. split; [exact Hok|]. split; [|eauto].
    right. exists text. split; [|exact Hc]. unfold bodyText. rewrite Hb. reflexivity.
  - injection A as <-. split; [exact Hok|]. split; [left; exact Hb | eauto].
Qed.

(** *** Iterations whose course is determined *)

(** A retryable answer is not accepted: it is empty, or a failure that
    [isAbortError] does not recognise. *)
Lemma answer_retryable {H : Host} (env : Env) (settings : Settings) (o : FetchOutcome) :
  retryableAnswer env settings o = true ->
  acceptedAnswer env settings o = None
  /\ (emptyAnswer env settings o = true
      \/ exists e, failureOf o = Some e /\ isAbortError e = false).
Proof.
  unfold retryableAnswer. intros Hr.
  apply orb_true_iff in Hr. destruct Hr as [He|Hf].
  - split; [|left; exact He].
    exact (proj2 (@answer_empty_not_accepted H env settings o He)).
  - destruct (failureOf o) as [e|] eqn:Ef; [|discriminate].
    split.
    + exact (proj2 (@answer_failure_not_empty H env settings o e Ef)).
    + right. exists e. split; [reflexivity|].
      apply negb_true_iff. exact Hf.
Qed.

(** Settle the kind of an answer from what is known of it. *)
Ltac answers :=
  repeat match goal with
         | Hr : retryableAnswer ?env ?s ?o = true |- _ =>
             let Ha := fresh "Hacc" in
             destruct (@answer_retryable _ env s o Hr) as [Ha [?|[? [? ?]]]];
             clear Hr
         | Hb : (_ || _)%bool = true |- _ =>
             apply orb_true_iff in Hb; destruct Hb
         end;
  repeat match goal with
         | Hf : failureOf ?o = Some ?e, env : Env, s : Settings |- _ =>
             lazymatch goal with
             | _ : emptyAnswer env s o = false |- _ => fail
             | _ => destruct (@answer_failure_not_empty _ env s o e Hf)
             end
         | He : emptyAnswer ?env ?s ?o = true |- _ =>
             lazymatch goal with
             | _ : failureOf o = None |- _ => fail
             | _ => destruct (@answer_empty_not_accepted _ env s o He)
             end
         end;
  congruence.

Section DeterminedIterations.
Context {H : Host}.
Variable env : Env.
Variable settings : Settings.
Variable abortSignal : option AbortSignal.

(** With the signal fired, an iteration makes no call. *)
Lemma iteration_aborted (attempt : nat) (lastError : option JsError) (w : World) :
  signalled abortSignal w = true ->
  iteration env settings abortSignal attempt lastError w = (Throw abortError, w).
Proof.
  intros Hs.
  pose proof (iteration_outcome env settings abortSignal attempt lastError w) as HI.
  destruct (iteration env settings abortSignal attempt lastError w) as [res w1].
  cbn [fst snd] in HI. inversion HI; subst; try congruence.
Qed.

(** An accepted answer ends the loop, whatever the signal does meanwhile. *)
Lemma iteration_accepted (attempt : nat) (lastError : option JsError) (w : World)
    (r : Response) :
  signalled abortSignal w = false ->
  acceptedAnswer env settings (originalFetch env (calls w)) = Some r ->
  exists w', iteration env settings abortSignal attempt lastError w = (Normal (Exit r), w')
             /\ Advances abortSignal w w' 1 (EvFetch (calls w) :: successToast attempt r).
Proof.
  intros Hs Ha.
  pose proof (iteration_outcome env settings abortSignal attempt lastError w) as HI.
  destruct (iteration env settings abortSignal attempt lastError w) as [res w1].
  cbn [fst snd] in HI. inversion HI; subst; try congruence; try solve [answers].
  match goal with
  | A : acceptedAnswer _ _ _ = Some ?r0 |- _ => assert (r0 = r) by congruence; subst r0
  end.
  exists w1. split; [reflexivity | assumption].
Qed.

(** A failure that [isAbortError] recognises is raised at once. *)
Lemma iteration_propagated (attempt : nat) (lastError : option JsError) (w : World)
    (e : JsError) :
  signalled abortSignal w = false ->
  failureOf (originalFetch env (calls w)) = Some e ->
  isAbortError e = true ->
  exists w', iteration env settings abortSignal attempt lastError w = (Throw e, w')
             /\ Advances abortSignal w w' 1 [EvFetch (calls w)].
Proof.
  intros Hs Hf He.
  pose proof (iteration_outcome env settings abortSignal attempt lastError w) as HI.
  destruct (iteration env settings abortSignal attempt lastError w) as [res w1].
  cbn [fst snd] in HI. inversion HI; subst; try congruence; try solve [answers].
  exists w1. split; [|assumption]. congruence.
Qed.

(** A retryable answer with retries left: notification, wait, next
    attempt. *)
Lemma iteration_retried (attempt : nat) (lastError : option JsError) (w : World) :
  neverFires abortSignal ->
  signalled abortSignal w = false ->
  retryableAnswer env settings (originalFetch env (calls w)) = true ->
  (Z.of_nat attempt <? maxRetries settings) = true ->
  exists lastError' w',
    iteration env settings abortSignal attempt lastError w = (Normal (Next lastError'), w')
    /\ Advances abortSignal w w' 1
         [EvFetch (calls w); retryToast settings attempt; wait settings attempt Elapsed]
    /\ signalled abortSignal w' = false.
Proof.
  intros Hn Hs Hr Hlt.
  pose proof (iteration_outcome env settings abortSignal attempt lastError w) as HI.
  destruct (iteration env settings abortSignal attempt lastError w) as [res w1].
  cbn [fst snd] in HI.
  inversion HI; subst; try congruence;
    try match goal with
        | A : Advances _ w w1 _ _ |- _ =>
            pose proof (signalled_quiet Hn A) as Hq
        end;
    try solve [answers]; try congruence; eauto.
Qed.

(** A retryable answer with no retry left: its error is recorded, after the
    error UI when the answer was empty. *)
Lemma iteration_last (attempt : nat) (lastError : option JsError) (w : World) :
  neverFires abortSignal ->
  signalled abortSignal w = false ->
  retryableAnswer env settings (originalFetch env (calls w)) = true ->
  (Z.of_nat attempt <? maxRetries settings) = false ->
  exists w',
    iteration env settings abortSignal attempt lastError w
    = (Normal (Next (Some (finalErrorOf settings (originalFetch env (calls w))))), w')
    /\ Advances abortSignal w w' 1
         (EvFetch (calls w) ::
          if emptyAnswer env settings (originalFetch env (calls w))
          then [EvErrorUI (PayloadText (exhaustedMessage settings))] else [])
    /\ signalled abortSignal w' = false.
Proof.
  intros Hn Hs Hr Hge.
  pose proof (iteration_outcome env settings abortSignal attempt lastError w) as HI.
  destruct (iteration env settings abortSignal attempt lastError w) as [res w1].
  cbn [fst snd] in HI.
  inversion HI; subst; try congruence;
    try match goal with
        | A : Advances _ w w1 _ _ |- _ =>
            pose proof (signalled_quiet Hn A) as Hq
        end;
    try solve [answers]; try congruence.
  - exists w1. split; [|split; [|assumption]].
    + unfold finalErrorOf.
      match goal with Hf : failureOf _ = Some _ |- _ => rewrite Hf end.
      reflexivity.
    + match goal with
      | Hf : failureOf ?o = Some ?e |- _ =>
          destruct (@answer_failure_not_empty _ env settings o e Hf) as [-> _]
      end.
      assumption.
  - exists w1. split; [|split; [|assumption]].
    + match goal with
      | He : emptyAnswer _ _ ?o = true |- _ =>
          destruct (@answer_empty_not_accepted _ env settings o He) as [Hf _]
      end.
      unfold finalErrorOf. rewrite Hf. reflexivity.
    + match goal with He : emptyAnswer _ _ _ = true |- _ => rewrite He end.
      assumption.
Qed.

End DeterminedIterations.

(** *** Retrying until an answer is accepted, or until the budget is spent *)

Section RetrySequences.
Context {H : Host}.
Variable env : Env.
Variable settings : Settings.
Variable abortSignal : option AbortSignal.
Hypothesis Hquiet : neverFires abortSignal.

(** [m] retryable answers in a row, with retries left after each: the loop
    is where it was, [m] attempts later. *)
Lemma forLoop_retried (m rest attempt : nat) (lastError : option JsError) (w : World) :
  signalled abortSignal w = false ->
  Z.of_nat attempt + Z.of_nat m <= maxRetries settings ->
  (forall i, (i < m)%nat ->
             retryableAnswer env settings (originalFetch env (calls w + i)) = true) ->
  exists lastError' w',
    forLoop env settings abortSignal (m + rest) attempt lastError w
    = forLoop env settings abortSignal rest (attempt + m) lastError' w'
    /\ Advances abortSignal w w' m (retriedTrace settings attempt (calls w) m)
    /\ signalled abortSignal w' = false.
Proof.
  revert attempt lastError w.
  induction m as [|m IH]; intros attempt lastError w Hs Hle Hall.
  - exists lastError, w. rewrite Nat.add_0_r.
    split; [reflexivity | split; [apply Advances_refl | exact Hs]].
  - assert (Hlt : (Z.of_nat attempt <? maxRetries settings) = true)
      by (apply Z.ltb_lt; lia).
    assert (H0 : retryableAnswer env settings (originalFetch env (calls w)) = true)
      by (rewrite <- (Nat.add_0_r (calls w)); apply Hall; lia).
    destruct (@iteration_retried _ env settings abortSignal attempt lastError w
                Hquiet Hs H0 Hlt)
      as [le1 [w1 [E1 [A1 S1]]]].
    destruct (IH (S attempt) le1 w1 S1) as [le2 [w2 [E2 [A2 S2]]]]; [lia | |].
    { intros i Hi. destruct A1 as [C1 _ _ _]. rewrite C1, <- Nat.add_assoc.
      apply Hall. lia. }
    exists le2, w2. split; [|split; [|exact S2]].
    + change (S m + rest)%nat with (S (m + rest)). rewrite forLoop_S, E1, E2.
      f_equal. lia.
    + pose proof (Advances_trans A1 A2) as A. cbn [Nat.add] in A.
      cbn [retriedTrace]. destruct A1 as [C1 _ _ _].
      rewrite C1, Nat.add_1_r in A. exact A.
Qed.

End RetrySequences.

Lemma isAbortError_finalErrorOf {H : Host} (env : Env) (settings : Settings)
    (o : FetchOutcome) :
  retryableAnswer env settings o = true ->
  isAbortError (finalErrorOf settings o) = false.
Proof.
  unfold retryableAnswer, finalErrorOf. intros Hr.
  destruct (failureOf o) as [e|] eqn:Hf.
  - destruct (@answer_failure_not_empty _ env settings o e Hf) as [He _].
    rewrite He in Hr. cbn [orb] in Hr. apply negb_true_iff, Hr.
  - apply isAbortError_exhausted.
Qed.

(** X4: When the first [j <= maxRetries] underlying calls each fail or answer
    empty, the next answer is accepted and nothing is cancelled, the call
    returns that answer after [j + 1] calls: [j] times a call, the retry
    notification and the wait, then the last call, and the success
    notification when there was a retry and the body was read. *)
Theorem enhancedFetch_retries_until_accepted {H : Host} (env : Env) (settings : Settings)
    (abortSignal : option AbortSignal) (url : UrlArg) (j : nat) (r : Response) :
  enabled settings = true ->
  shouldIntercept settings (urlText url) = Normal true ->
  silent abortSignal ->
  Z.of_nat j <= maxRetries settings ->
  (forall i, (i < j)%nat -> retryableAnswer env settings (originalFetch env i) = true) ->
  acceptedAnswer env settings (originalFetch env j) = Some r ->
  fst (run env settings abortSignal url) = Normal r
  /\ calls (snd (run env settings abortSignal url)) = S j
  /\ trace (snd (run env settings abortSignal url))
     = retriedTrace settings 0 0 j ++ EvFetch j :: successToast j r.
Proof.
  intros Hen Hs Hsil Hj Hretry Hacc. unfold run, enhancedFetch. rewrite Hen, Hs. cbn [negb].
  assert (Hn : neverFires abortSignal)
    by (destruct abortSignal as [sg|]; [exact (proj2 Hsil) | exact I]).
  assert (Hs0 : signalled abortSignal (initialWorld abortSignal) = false)
    by (destruct abortSignal as [sg|]; [exact (proj1 Hsil) | reflexivity]).
  assert (Hrem : Z.to_nat (maxRetries settings + 1)
                 = (j + S (Z.to_nat (maxRetries settings) - j))%nat) by lia.
  rewrite Hrem.
  destruct (@forLoop_retried H env settings abortSignal Hn j
              (S (Z.to_nat (maxRetries settings) - j)) 0%nat None
              (initialWorld abortSignal) Hs0)
    as [le [w1 [E1 [A1 S1]]]]; [lia | exact Hretry |].
  rewrite E1, forLoop_S.
  destruct A1 as [C1 T1 _ _]. cbn [calls trace initialWorld app Nat.add] in C1, T1.
  destruct (@iteration_accepted H env settings abortSignal (0 + j) le w1 r S1)
    as [w2 [E2 [C2 T2 _ _]]]; [rewrite C1; exact Hacc|].
  rewrite E2. cbn [fst snd]. rewrite C2, T2, C1, T1. cbn [Nat.add].
  repeat split; lia.
Qed.

(** X5: When every one of the [maxRetries + 1] underlying calls fails or
    answers empty and nothing is cancelled, the call makes them all, waits
    between them, and raises the error of the last attempt: the failure
    itself, or the exhaustion error when the last answer was empty.  The
    error UI shows the raised error, after the exhaustion message when the
    last answer was empty. *)
Theorem enhancedFetch_budget_spent {H : Host} (env : Env) (settings : Settings)
    (abortSignal : option AbortSignal) (url : UrlArg) :
  enabled settings = true ->
  shouldIntercept settings (urlText url) = Normal true ->
  silent abortSignal ->
  0 <= maxRetries settings ->
  (forall i, Z.of_nat i <= maxRetries settings ->
             retryableAnswer env settings (originalFetch env i) = true) ->
  let last := originalFetch env (Z.to_nat (maxRetries settings)) in
  fst (run env settings abortSignal url) = Throw (finalErrorOf settings last)
  /\ calls (snd (run env settings abortSignal url)) = S (Z.to_nat (maxRetries settings))
  /\ trace (snd (run env settings abortSignal url))
     = retriedTrace settings 0 0 (Z.to_nat (maxRetries settings))
       ++ EvFetch (Z.to_nat (maxRetries settings))
       :: (if emptyAnswer env settings last
           then [EvErrorUI (PayloadText (exhaustedMessage settings))] else [])
       ++ [EvErrorUI (PayloadOf (finalErrorOf settings last))].
Proof.
  intros Hen Hs Hsil Hmax Hretry last. unfold run, enhancedFetch.
  rewrite Hen, Hs. cbn [negb].
  assert (Hn : neverFires abortSignal)
    by (destruct abortSignal as [sg|]; [exact (proj2 Hsil) | exact I]).
  assert (Hs0 : signalled abortSignal (initialWorld abortSignal) = false)
    by (destruct abortSignal as [sg|]; [exact (proj1 Hsil) | reflexivity]).
  set (n := Z.to_nat (maxRetries settings)) in *.
  assert (En : n = Z.to_nat (maxRetries settings)) by reflexivity.
  assert (Hrem : Z.to_nat (maxRetries settings + 1) = (n + 1)%nat) by lia.
  rewrite Hrem.
  destruct (@forLoop_retried H env settings abortSignal Hn n 1%nat 0%nat None
              (initialWorld abortSignal) Hs0)
    as [le [w1 [E1 [A1 S1]]]]; [lia | intros i Hi; apply (Hretry i); lia |].
  rewrite E1, forLoop_S.
  destruct A1 as [C1 T1 _ _]. cbn [calls trace initialWorld app Nat.add] in C1, T1.
  assert (Hlast : retryableAnswer env settings (originalFetch env (calls w1)) = true)
    by (rewrite C1; apply Hretry; lia).
  destruct (@iteration_last H env settings abortSignal (0 + n) le w1 Hn S1 Hlast)
    as [w2 [E2 [[C2 T2 _ _] S2]]]; [apply Z.ltb_ge; lia|].
  rewrite E2. cbn [forLoop]. rewrite C1 in *. fold last in E2, T2 |- *.
  destruct (afterLoop_spec abortSignal (Some (finalErrorOf settings last)) w2)
    as [w3 [E3 [[C3 T3 _ _] S3]]].
  cbv zeta in E3. rewrite E3. cbn [fst snd]. rewrite C3, T3, C2, T2, T1.
  rewrite (isAbortError_finalErrorOf env settings last Hlast), S2. cbn [negb andb].
  repeat split; [lia|]. rewrite <- !app_assoc. reflexivity.
Qed.

(** X6: With the signal already fired when the call starts, an intercepted call
    makes no underlying call and shows nothing: it raises the abort
    error. *)
Theorem enhancedFetch_aborted_before_start {H : Host} (env : Env) (settings : Settings)
    (sg : AbortSignal) (url : UrlArg) :
  enabled settings = true ->
  shouldIntercept settings (urlText url) = Normal true ->
  0 <= maxRetries settings ->
  initiallyAborted sg = true ->
  run env settings (Some sg) url = (Throw abortError, initialWorld (Some sg)).
Proof.
  intros Hen Hs Hmax Hab. unfold run, enhancedFetch. rewrite Hen, Hs. cbn [negb].
  assert (Hrem : Z.to_nat (maxRetries settings + 1) = S (Z.to_nat (maxRetries settings)))
    by lia.
  rewrite Hrem, forLoop_S, iteration_aborted; [reflexivity | exact Hab].
Qed.

(** X7: A first failure that [isAbortError] recognises (an abort error of the
    underlying call, or a status text that speaks of an abort or a
    cancellation) ends an intercepted call at once, with or without a
    signal: one call, the failure raised, no notification, no wait, no
    error UI. *)
Theorem enhancedFetch_abort_like_failure {H : Host} (env : Env) (settings : Settings)
    (abortSignal : option AbortSignal) (url : UrlArg) (e : JsError) :
  enabled settings = true ->
  shouldIntercept settings (urlText url) = Normal true ->
  0 <= maxRetries settings ->
  signalled abortSignal (initialWorld abortSignal) = false ->
  failureOf (originalFetch env 0) = Some e ->
  isAbortError e = true ->
  fst (run env settings abortSignal url) = Throw e
  /\ calls (snd (run env settings abortSignal url)) = 1%nat
  /\ trace (snd (run env settings abortSignal url)) = [EvFetch 0].
Proof.
  intros Hen Hs Hmax Hs0 Hf He. unfold run, enhancedFetch. rewrite Hen, Hs. cbn [negb].
  assert (Hrem : Z.to_nat (maxRetries settings + 1) = S (Z.to_nat (maxRetries settings)))
    by lia.
  rewrite Hrem, forLoop_S.
  destruct (@iteration_propagated H env settings abortSignal 0 None
              (initialWorld abortSignal) e Hs0 Hf He) as [w1 [E1 [C1 T1 _ _]]].
  rewrite E1. cbn [fst snd]. rewrite C1, T1. repeat split.
Qed.

(** *** How a failure is reported *)

Section FailureReport.
Context {H : Host}.
Variable env : Env.
Variable settings : Settings.
Variable abortSignal : option AbortSignal.

Lemma Reported_app (e : JsError) (w' : World) (e1 e2 : list Event) :
  forallb notErrorUI e1 = true ->
  Reported abortSignal e w' e2 -> Reported abortSignal e w' (e1 ++ e2).
Proof.
  intros P1 [[Hc P2] | [He [Hs [ext0 ->]]]].
  - left. split; [exact Hc|]. rewrite forallb_app, P1, P2. reflexivity.
  - right. repeat split; try assumption. exists (e1 ++ ext0). apply app_assoc.
Qed.

Lemma afterLoop_reported (lastError : option JsError) (w w' : World) (e : JsError) :
  afterLoop abortSignal (A := Response) lastError w = (Throw e, w') ->
  e = match lastError with Some e0 => e0 | None => Error_ retryLimitMessage end
  /\ exists ext, Advances abortSignal w w' 0 ext /\ Reported abortSignal e w' ext.
Proof.
  intros E. destruct (afterLoop_spec abortSignal lastError w) as [w1 [E1 [A1 S1]]].
  cbv zeta in E1, A1. rewrite E1 in E. injection E as <- <-. split; [reflexivity|].
  eexists. split; [exact A1|]. unfold Reported. rewrite S1.
  destruct (isAbortError _) eqn:He; destruct (signalled abortSignal w) eqn:Hs;
    cbn [negb andb orb]; try (left; split; reflexivity).
  right. repeat split. exists []. reflexivity.
Qed.

Lemma forLoop_reported (remaining attempt : nat) (lastError : option JsError)
    (w w' : World) (e : JsError) :
  remaining = 0%nat \/ Z.of_nat attempt + Z.of_nat remaining = maxRetries settings + 1 ->
  forLoop env settings abortSignal remaining attempt lastError w = (Throw e, w') ->
  exists k ext, Advances abortSignal w w' k ext /\ Reported abortSignal e w' ext.
Proof.
  revert attempt lastError w.
  induction remaining as [|rest IH]; intros attempt lastError w Hlink E.
  - cbn [forLoop] in E. apply afterLoop_reported in E.
    destruct E as [_ [ext [A R]]]. eauto.
  - destruct Hlink as [Hz | Hlink]; [discriminate Hz|].
    rewrite forLoop_S in E.
    pose proof (iteration_outcome env settings abortSignal attempt lastError w) as HI.
    destruct (iteration env settings abortSignal attempt lastError w) as [[[r|le]|e1] w1];
      cbn [fst snd] in HI; [discriminate E | |].
    + assert (Hrest : rest = 0%nat \/
                      Z.of_nat (S attempt) + Z.of_nat rest = maxRetries settings + 1)
        by (right; lia).
      inversion HI; subst.
      * destruct (IH _ _ _ Hrest E) as [k2 [e2 [A2 R2]]].
        eexists _, _. split; [eapply Advances_trans; eassumption|].
        apply Reported_app; [reflexivity | exact R2].
      * destruct (IH _ _ _ Hrest E) as [k2 [e2 [A2 R2]]].
        eexists _, _. split; [eapply Advances_trans; eassumption|].
        apply Reported_app; [reflexivity | exact R2].
      * assert (rest = 0%nat)
          by (match goal with Hge : (_ <? _) = false |- _ => apply Z.ltb_ge in Hge end; lia).
        subst rest. cbn [forLoop] in E. apply afterLoop_reported in E.
        destruct E as [-> [e2 [A2 R2]]].
        eexists _, _. split; [eapply Advances_trans; eassumption|].
        apply Reported_app; [reflexivity | exact R2].
      * assert (rest = 0%nat)
          by (match goal with Hge : (_ <? _) = false |- _ => apply Z.ltb_ge in Hge end; lia).
        subst rest. cbn [forLoop] in E.
        destruct (afterLoop_spec abortSignal
                    (Some (Error_ (exhaustedMessage settings))) w1) as [w2 [E2 [A2 S2]]].
        cbv zeta in E2, A2. rewrite E2 in E. injection E as <- <-.
        rewrite isAbortError_exhausted in A2.
        match goal with Hs : signalled abortSignal w1 = false |- _ => rewrite Hs in A2, S2 end.
        cbn [negb andb] in A2.
        eexists _, _. split; [eapply Advances_trans; eassumption|].
        right. split; [apply isAbortError_exhausted|]. split; [exact S2|].
        eexists. reflexivity.
    + injection E as -> ->.
      inversion HI; subst.
      * exists 0%nat, []. split; [apply Advances_refl|]. left. split; [|reflexivity].
        rewrite isAbortError_abortError. reflexivity.
      * eexists _, _. split; [eassumption|]. left. split; [assumption | reflexivity].
      * eexists _, _. split; [eassumption|]. left. split; [|reflexivity].
        match goal with Hs : signalled _ _ = true |- _ => rewrite Hs end.
        apply orb_true_r.
      * eexists _, _. split; [eassumption|]. left. split.
        -- rewrite isAbortError_abortError. reflexivity.
        -- match goal with Hr : _ \/ _ |- _ => destruct Hr as [-> | ->] end; reflexivity.
Qed.

End FailureReport.

(** X8: A failed intercepted call shows the error UI exactly when its failure
    is not a cancellation: when the raised error is one that [isAbortError]
    recognises, or the signal has fired, no error UI appears in the trace;
    otherwise the trace ends with the error UI of the raised error. *)
Theorem enhancedFetch_failure_report {H : Host} (env : Env) (settings : Settings)
    (abortSignal : option AbortSignal) (url : UrlArg) (e : JsError) :
  enabled settings = true ->
  shouldIntercept settings (urlText url) = Normal true ->
  fst (run env settings abortSignal url) = Throw e ->
  let cancelled :=
    isAbortError e || signalled abortSignal (snd (run env settings abortSignal url)) in
  (cancelled = true ->
   forall p, ~ In (EvErrorUI p) (trace (snd (run env settings abortSignal url))))
  /\ (cancelled = false ->
      exists tr, trace (snd (run env settings abortSignal url))
                 = tr ++ [EvErrorUI (PayloadOf e)]).
Proof.
  intros Hen Hs Hr cancelled. subst cancelled. unfold run, enhancedFetch in *.
  rewrite Hen, Hs in *. cbn [negb] in *.
  destruct (forLoop env settings abortSignal (Z.to_nat (maxRetries settings + 1)) 0 None
              (initialWorld abortSignal)) as [res w'] eqn:E.
  cbn [fst snd] in *. subst res.
  apply forLoop_reported in E; [|lia].
  destruct E as [k [ext [[_ T _ _] R]]]. cbn [trace initialWorld app] in T. rewrite T.
  destruct R as [[Hc P] | [He [Hsg [ext0 ->]]]].
  - split; [|congruence]. intros _ p Hin.
    rewrite forallb_forall in P. specialize (P _ Hin). discriminate P.
  - split; [rewrite He, Hsg; discriminate|]. intros _. exists ext0. reflexivity.
Qed.

(** *** The waits of a call *)

Lemma Announced_app (a b : list Event) :
  Announced a -> Announced b -> Announced (a ++ b).
Proof.
  intros Ha Hb. induction Ha; simpl; [exact Hb | |]; constructor; assumption.
Qed.

(** What [Announced] says of each wait. *)
Lemma Announced_spec (tr : list Event) :
  Announced tr ->
  forall pre ms o post,
    tr = pre ++ EvDelay ms o :: post ->
    exists pre' a b, pre = pre' ++ [EvRetryToast a b ms].
Proof.
  induction 1 as [|a b d o' tr Htr IH|ev tr Hev Htr IH]; intros pre ms o post E.
  - destruct pre; discriminate E.
  - destruct pre as [|x pre]; [discriminate E|]. injection E as <- E.
    destruct pre as [|y pre].
    + injection E as <- _ _. exists [], a, b. reflexivity.
    + injection E as <- E. destruct (IH _ _ _ _ E) as [pre' [a' [b' ->]]].
      exists (EvRetryToast a b d :: EvDelay d o' :: pre'), a', b'. reflexivity.
  - destruct pre as [|x pre].
    + injection E as -> _. discriminate Hev.
    + injection E as <- E. destruct (IH _ _ _ _ E) as [pre' [a' [b' ->]]].
      exists (ev :: pre'), a', b'. reflexivity.
Qed.

Lemma delayCount_app (a b : list Event) :
  delayCount (a ++ b) = (delayCount a + delayCount b)%nat.
Proof. unfold delayCount. rewrite filter_app, length_app. reflexivity. Qed.

Lemma totalWait_app (a b : list Event) : totalWait (a ++ b) = totalWait a + totalWait b.
Proof.
  induction a as [|ev a IH]; [reflexivity|]. destruct ev; simpl; rewrite ?IH; lia.
Qed.

(** Check [Announced] on a trace given event by event. *)
Ltac announced :=
  unfold retryToast, wait;
  repeat first [ apply Announced_nil
               | apply Announced_wait
               | apply Announced_other; [reflexivity|] ].

(** The time waited in a trace given event by event. *)
Ltac waited :=
  unfold retryToast, wait, delayCount;
  cbn [totalWait filter isDelay List.length];
  match goal with
  | |- context [calculateDelay ?s ?a] =>
      change (calculateDelay s a) with (calculateDelay s 0)
  | _ => idtac
  end;
  lia.

Section Waits.
Context {H : Host}.
Variable env : Env.
Variable settings : Settings.
Variable abortSignal : option AbortSignal.

Lemma WaitsWithin_app (n1 n2 : Z) (e1 e2 : list Event) :
  WaitsWithin settings n1 e1 -> WaitsWithin settings n2 e2 -> WaitsWithin settings (n1 + n2) (e1 ++ e2).
Proof.
  intros [A1 [C1 T1]] [A2 [C2 T2]]. split; [apply Announced_app; assumption|].
  rewrite delayCount_app, totalWait_app, T1, T2. split; lia.
Qed.

Lemma successToast_no_wait (attempt : nat) (r : Response) (n : nat) :
  WaitsWithin settings 0 (EvFetch n :: successToast attempt r).
Proof.
  unfold successToast. destruct (bodyText r); [destruct (0 <? Z.of_nat attempt)|];
    (split; [announced | split; reflexivity]).
Qed.

Lemma iteration_waits (attempt : nat) (lastError : option JsError) (w : World) :
  exists ext,
    trace (snd (iteration env settings abortSignal attempt lastError w)) = trace w ++ ext
    /\ WaitsWithin settings (if Z.of_nat attempt <? maxRetries settings then 1 else 0) ext.
Proof.
  pose proof (iteration_outcome env settings abortSignal attempt lastError w) as HI.
  destruct (iteration env settings abortSignal attempt lastError w) as [res w1].
  cbn [fst snd] in *.
  inversion HI; subst;
    try match goal with A : Advances _ _ _ _ ?ext |- _ =>
          exists ext; split; [apply A|] end;
    try match goal with Hlt : (_ <? _) = _ |- _ => rewrite Hlt end.
  - exists []. rewrite app_nil_r. split; [reflexivity|].
    destruct (Z.of_nat attempt <? maxRetries settings);
      (split; [constructor | split; [simpl; lia | reflexivity]]).
  - pose proof (successToast_no_wait attempt r (calls w)) as [A [C T]].
    split; [exact A|]. split; [|exact T].
    destruct (Z.of_nat attempt <? maxRetries settings); lia.
  - split; [announced | split; [simpl; lia | waited]].
  - split; [announced | split; [simpl; lia | waited]].
  - split; [announced | split; reflexivity].
  - split; [announced | split; reflexivity].
  - destruct (Z.of_nat attempt <? maxRetries settings);
      (split; [announced | split; [simpl; lia | reflexivity]]).
  - split; [announced | split; reflexivity].
  - match goal with Hr : _ \/ _ |- _ => destruct Hr as [-> | ->] end.
    + split; [announced | split; [simpl; lia | reflexivity]].
    + split; [announced | split; [simpl; lia | waited]].
Qed.

Lemma WaitsWithin_le (n m : Z) (ext : list Event) :
  n <= m -> WaitsWithin settings n ext -> WaitsWithin settings m ext.
Proof. intros Hle [A [C T]]. split; [exact A|]. split; [lia | exact T]. Qed.

Lemma forLoop_waits (remaining attempt : nat) (lastError : option JsError) (w : World) :
  exists ext,
    trace (snd (forLoop env settings abortSignal remaining attempt lastError w))
    = trace w ++ ext
    /\ WaitsWithin settings (Z.max 0 (maxRetries settings - Z.of_nat attempt)) ext.
Proof.
  revert attempt lastError w.
  induction remaining as [|rest IH]; intros attempt lastError w.
  - cbn [forLoop]. destruct (afterLoop_spec abortSignal lastError w) as [w' [E [A _]]].
    rewrite E. eexists. split; [apply A|]. apply WaitsWithin_le with (n := 0); [lia|].
    destruct (negb _ && negb _); (split; [announced | split; reflexivity]).
  - rewrite forLoop_S.
    destruct (iteration_waits attempt lastError w) as [e1 [T1 W1]].
    assert (W1' : WaitsWithin settings
                    (Z.max 0 (maxRetries settings - Z.of_nat attempt)) e1).
    { eapply WaitsWithin_le; [|exact W1].
      destruct (Z.ltb_spec (Z.of_nat attempt) (maxRetries settings)); lia. }
    destruct (iteration env settings abortSignal attempt lastError w) as [[[r|le]|e] w1];
      cbn [snd] in *; try (exists e1; split; assumption).
    destruct (IH (S attempt) le w1) as [e2 [T2 W2]].
    exists (e1 ++ e2). split; [rewrite T2, T1, app_assoc; reflexivity|].
    eapply WaitsWithin_le; [|apply (WaitsWithin_app W1 W2)].
    destruct (Z.ltb_spec (Z.of_nat attempt) (maxRetries settings)); lia.
Qed.

End Waits.

(** X9: In any call, every wait comes right after the retry notification that
    announces its duration; the waits number at most [maxRetries], and the
    time waited is their number times the fixed delay. *)
Theorem enhancedFetch_waits {H : Host} (env : Env) (settings : Settings)
    (abortSignal : option AbortSignal) (url : UrlArg) :
  let tr := trace (snd (run env settings abortSignal url)) in
  (forall pre ms o post,
     tr = pre ++ EvDelay ms o :: post ->
     exists pre' a b, pre = pre' ++ [EvRetryToast a b ms])
  /\ Z.of_nat (delayCount tr) <= Z.max 0 (maxRetries settings)
  /\ totalWait tr = Z.of_nat (delayCount tr) * calculateDelay settings 0.
Proof.
  intros tr. subst tr. unfold run.
  assert (Hcall : forall w, trace w = [] \/ (exists n, trace w = [EvFetch n]) ->
                    WaitsWithin settings (Z.max 0 (maxRetries settings))
                      (trace (snd (callOriginalFetch env abortSignal w)))).
  { intros w Hw.
    destruct (callOriginalFetch_advances env abortSignal w) as [w' [E [_ T _ _]]].
    rewrite E. cbn [snd]. rewrite T.
    destruct Hw as [-> | [n ->]]; cbn [app];
      (split; [announced | split; [simpl; lia | reflexivity]]). }
  assert (Hall : WaitsWithin settings (Z.max 0 (maxRetries settings))
                   (trace (snd (enhancedFetch env settings abortSignal url
                                  (initialWorld abortSignal))))).
  { unfold enhancedFetch.
    destruct (negb (enabled settings)); [apply Hcall; left; reflexivity|].
    destruct (shouldIntercept settings (urlText url)) as [[|]|e].
    - destruct (forLoop_waits env settings abortSignal (Z.to_nat (maxRetries settings + 1))
                  0 None (initialWorld abortSignal)) as [ext [T W]].
      rewrite T. cbn [trace initialWorld app]. rewrite Z.sub_0_r in W. exact W.
    - rewrite passThrough_spec.
      destruct (originalFetch env (calls (initialWorld abortSignal)));
        apply Hcall; cbn [trace initialWorld app]; eauto.
    - apply Hcall. left. reflexivity. }
  destruct Hall as [A [C T]]. split; [apply Announced_spec, A | split; assumption].
Qed.

(** *** Requests that are passed through *)

(** X2: With the plugin disabled, or with no rule matching the URL, a call is
    handed to the underlying function with no wait and no notification.
    When the underlying call returns a promise, it is the only call and its
    completion is the caller's.  When it throws and the plugin is enabled,
    the [catch] around the rule check calls the underlying function a
    second time, and the completion of the second call is the caller's;
    with the plugin disabled there is the one call. *)
Theorem enhancedFetch_passes_through {H : Host} (env : Env) (settings : Settings)
    (abortSignal : option AbortSignal) (url : UrlArg) :
  enabled settings = false \/ shouldIntercept settings (urlText url) = Normal false ->
  match originalFetch env 0 with
  | Resolves _ | Rejects _ =>
      fst (run env settings abortSignal url) = completionOf (originalFetch env 0)
      /\ trace (snd (run env settings abortSignal url)) = [EvFetch 0]
      /\ calls (snd (run env settings abortSignal url)) = 1%nat
  | Throws e =>
      if enabled settings then
        fst (run env settings abortSignal url) = completionOf (originalFetch env 1)
        /\ trace (snd (run env settings abortSignal url)) = [EvFetch 0; EvFetch 1]
        /\ calls (snd (run env settings abortSignal url)) = 2%nat
      else
        fst (run env settings abortSignal url) = Throw e
        /\ trace (snd (run env settings abortSignal url)) = [EvFetch 0]
        /\ calls (snd (run env settings abortSignal url)) = 1%nat
  end.
Proof.
  intros Hp. unfold run.
  pose proof (callOriginalFetch_first env abortSignal) as Hc.
  pose proof (passThrough_first env abortSignal) as Ht.
  assert (He : enhancedFetch env settings abortSignal url
               = if enabled settings then passThrough env abortSignal
                 else callOriginalFetch env abortSignal).
  { unfold enhancedFetch. destruct Hp as [-> | Hs]; [reflexivity|].
    rewrite Hs. destruct (enabled settings); reflexivity. }
  rewrite He.
  destruct (originalFetch env 0) as [r | e | e]; destruct (enabled settings); assumption.
Qed.

Lemma enhancedFetch_passes_through_witness :
  (fst (run (H := literalHost) thirdTimeEnv thirdTimeSettings None
          (UrlString (js "https://host/other")))
   = completionOf (originalFetch thirdTimeEnv 0)
   /\ trace (snd (run (H := literalHost) thirdTimeEnv thirdTimeSettings None
                    (UrlString (js "https://host/other"))))
      = [EvFetch 0]
   /\ calls (snd (run (H := literalHost) thirdTimeEnv thirdTimeSettings None
                    (UrlString (js "https://host/other"))))
      = 1%nat)
  /\ (fst (run (H := literalHost) throwingEnv thirdTimeSettings None
             (UrlString (js "https://host/other")))
      = Throw notAFunction
      /\ trace (snd (run (H := literalHost) throwingEnv thirdTimeSettings None
                       (UrlString (js "https://host/other"))))
         = [EvFetch 0; EvFetch 1]
      /\ calls (snd (run (H := literalHost) throwingEnv thirdTimeSettings None
                       (UrlString (js "https://host/other"))))
         = 2%nat).
Proof.
  split.
  - apply (@enhancedFetch_passes_through literalHost thirdTimeEnv thirdTimeSettings None
             (UrlString (js "https://host/other"))).
    right. reflexivity.
  - apply (@enhancedFetch_passes_through literalHost throwingEnv thirdTimeSettings None
             (UrlString (js "https://host/other"))).
    right. reflexivity.
Defined.

Lemma enhancedFetch_returns_accepted_witness :
  ok (okResponse (js "hello world this is fine")) = true
  /\ (bodyAccess (okResponse (js "hello world this is fine")) = Unreadable
      \/ exists text,
           bodyText (okResponse (js "hello world this is fine")) = Some text
           /\ classifiedEmpty (H := literalHost) thirdTimeEnv thirdTimeSettings text = false)
  /\ exists n,
       calls (snd (run (H := literalHost) thirdTimeEnv thirdTimeSettings None
                     (UrlString (js "https://host/foo/bar/baz")))) = S n
       /\ originalFetch thirdTimeEnv n
          = Resolves (okResponse (js "hello world this is fine")).
Proof.
  apply (@enhancedFetch_returns_accepted literalHost thirdTimeEnv thirdTimeSettings None
           (UrlString (js "https://host/foo/bar/baz"))
           (okResponse (js "hello world this is fine"))); reflexivity.
Defined.

Lemma enhancedFetch_retries_until_accepted_witness :
  fst (run (H := literalHost) thirdTimeEnv thirdTimeSettings None
         (UrlString (js "https://host/foo/bar/baz")))
  = Normal (okResponse (js "hello world this is fine"))
  /\ calls (snd (run (H := literalHost) thirdTimeEnv thirdTimeSettings None
                   (UrlString (js "https://host/foo/bar/baz"))))
     = 3%nat
  /\ trace (snd (run (H := literalHost) thirdTimeEnv thirdTimeSettings None
                   (UrlString (js "https://host/foo/bar/baz"))))
     = retriedTrace thirdTimeSettings 0 0 2
       ++ EvFetch 2 :: successToast 2 (okResponse (js "hello world this is fine")).
Proof.
  apply (@enhancedFetch_retries_until_accepted literalHost thirdTimeEnv thirdTimeSettings
           None (UrlString (js "https://host/foo/bar/baz")) 2
           (okResponse (js "hello world this is fine"))).
  - reflexivity.
  - reflexivity.
  - exact I.
  - simpl. lia.
  - intros i Hi. destruct i as [|[|i]]; [reflexivity | reflexivity | lia].
  - reflexivity.
Defined.

Lemma enhancedFetch_budget_spent_witness :
  fst (run (H := literalHost) flakyEnv (apiSettings 1) None apiUrl)
  = Throw (Error_ (js "HTTP 500: Internal Server Error"))
  /\ calls (snd (run (H := literalHost) flakyEnv (apiSettings 1) None apiUrl)) = 2%nat
  /\ trace (snd (run (H := literalHost) flakyEnv (apiSettings 1) None apiUrl))
     = [EvFetch 0; EvRetryToast 2 2 1000; EvDelay 1000 Elapsed; EvFetch 1;
        EvErrorUI (PayloadOf (Error_ (js "HTTP 500: Internal Server Error")))].
Proof.
  apply (@enhancedFetch_budget_spent literalHost flakyEnv (apiSettings 1) None apiUrl).
  - reflexivity.
  - reflexivity.
  - exact I.
  - simpl. lia.
  - intros i Hi. simpl in Hi. destruct i as [|[|i]]; [reflexivity | reflexivity | lia].
Defined.

Lemma enhancedFetch_aborted_before_start_witness :
  run (H := literalHost) emptyEnv (apiSettings 1) (Some (mkSignal true (fun _ => false)))
    apiUrl
  = (Throw abortError, initialWorld (Some (mkSignal true (fun _ => false)))).
Proof.
  apply (@enhancedFetch_aborted_before_start literalHost emptyEnv (apiSettings 1)
           (mkSignal true (fun _ => false)) apiUrl); try reflexivity.
  simpl. lia.
Defined.

Lemma enhancedFetch_abort_like_failure_witness :
  fst (run (H := literalHost) cancelledStatusEnv (apiSettings 3) None apiUrl)
  = Throw (Error_ (js "HTTP 499: Request Cancelled"))
  /\ calls (snd (run (H := literalHost) cancelledStatusEnv (apiSettings 3) None apiUrl))
     = 1%nat
  /\ trace (snd (run (H := literalHost) cancelledStatusEnv (apiSettings 3) None apiUrl))
     = [EvFetch 0].
Proof.
  apply (@enhancedFetch_abort_like_failure literalHost cancelledStatusEnv (apiSettings 3)
           None apiUrl (Error_ (js "HTTP 499: Request Cancelled"))); try reflexivity.
  simpl. lia.
Defined.

Lemma enhancedFetch_failure_report_witness :
  exists tr,
    trace (snd (run (H := literalHost) flakyEnv (apiSettings 1) None apiUrl))
    = tr ++ [EvErrorUI (PayloadOf (Error_ (js "HTTP 500: Internal Server Error")))].
Proof.
  apply (@enhancedFetch_failure_report literalHost flakyEnv (apiSettings 1) None apiUrl
           (Error_ (js "HTTP 500: Internal Server Error"))); reflexivity.
Defined.
(** ** Further properties of the rule matcher *)

Section RuleSets.
Context {H : Host}.

Lemma some_spec (url : jsstring) (rules : list RuleValue) :
  some url rules = Normal true
  <-> exists rule, In rule rules /\ matchesRule url rule = Normal true.
Proof.
  induction rules as [|r rules IH]; cbn [some].
  - split; [discriminate | intros [rule [[] _]]].
  - destruct (matchesRule_total url r) as [[|] Er]; rewrite Er.
    + split; [intros _; exists r; split; [left; reflexivity | exact Er] | reflexivity].
    + rewrite IH. split.
      * intros [rule [Hin Hm]]. exists rule. split; [right; exact Hin | exact Hm].
      * intros [rule [[<- | Hin] Hm]]; [congruence | exists rule; auto].
Qed.

Lemma some_total (url : jsstring) (rules : list RuleValue) :
  exists b, some url rules = Normal b.
Proof.
  induction rules as [|r rules IH]; cbn [some]; [eauto|].
  destruct (matchesRule_total url r) as [[|] ->]; eauto.
Qed.

Lemma shouldIntercept_some (settings : Settings) (url : jsstring) :
  shouldIntercept settings url = some url (rulesOf settings).
Proof.
  unfold shouldIntercept, rulesOf, rulesArray.
  destruct (interceptRules settings) as [[|r rules]|]; reflexivity.
Qed.

End RuleSets.

(** X10: [shouldIntercept] never raises, whatever the rules are (values that are
    not strings, patterns that do not compile), and it answers true exactly
    when one of the rules matches the URL. *)
Theorem shouldIntercept_some_rule {H : Host} (settings : Settings) (url : jsstring) :
  (exists b, shouldIntercept settings url = Normal b)
  /\ (shouldIntercept settings url = Normal true
      <-> exists rule, In rule (rulesOf settings)
                       /\ matchesRule url rule = Normal true).
Proof.
  rewrite shouldIntercept_some. split; [apply some_total | apply some_spec].
Qed.

(** X11: The answer of [shouldIntercept] depends on the set of rules only: with
    more rules at least the same URLs are intercepted, and two lists with
    the same rules, in any order and with any repetition, intercept the
    same URLs. *)
Theorem shouldIntercept_rule_set {H : Host} (s1 s2 : Settings) (url : jsstring) :
  incl (rulesOf s1) (rulesOf s2) ->
  (shouldIntercept s1 url = Normal true -> shouldIntercept s2 url = Normal true)
  /\ (incl (rulesOf s2) (rulesOf s1) ->
      shouldIntercept s1 url = shouldIntercept s2 url).
Proof.
  intros H12.
  assert (Hmono : forall a b, incl (rulesOf a) (rulesOf b) ->
                    shouldIntercept a url = Normal true ->
                    shouldIntercept b url = Normal true).
  { intros a b Hab. rewrite !shouldIntercept_some, !some_spec.
    intros [rule [Hin Hm]]. exists rule. split; [apply Hab, Hin | exact Hm]. }
  split; [apply Hmono, H12|]. intros H21.
  pose proof (Hmono s1 s2 H12) as F. pose proof (Hmono s2 s1 H21) as B.
  rewrite !shouldIntercept_some in *.
  destruct (some_total url (rulesOf s1)) as [[|] E1];
    destruct (some_total url (rulesOf s2)) as [[|] E2]; rewrite E1, E2 in *;
    try reflexivity.
  - symmetry. apply F. reflexivity.
  - apply B. reflexivity.
Qed.

Lemma shouldIntercept_rule_set_witness :
  shouldIntercept (H := literalHost) (twoRules "api" "chat") (js "https://host/CHAT")
  = shouldIntercept (H := literalHost) (twoRules "chat" "api") (js "https://host/CHAT").
Proof.
  apply (@shouldIntercept_rule_set literalHost (twoRules "api" "chat")
           (twoRules "chat" "api") (js "https://host/CHAT")).
  - intros r Hin. simpl in *. tauto.
  - intros r Hin. simpl in *. tauto.
Defined.

(** X12: For texts of Basic Latin and Latin-1 characters, a rule that is not of
    the form [/pattern/] is compared without regard to the case of the
    letters, in the URL and in the rule alike: two URLs and two rules that
    differ at most in the case of their letters give the same answer. *)
Theorem matchesRule_ignores_case {H : Host} (url url' rule rule' : jsstring) :
  latin1 url -> latin1 url' -> latin1 rule -> latin1 rule' ->
  isRegexRule rule = false -> isRegexRule rule' = false ->
  equalIgnoringCase url url' -> equalIgnoringCase rule rule' ->
  matchesRule url (RuleStr rule) = matchesRule url' (RuleStr rule').
Proof.
  intros _ _ _ _ Hr Hr' Hu Hrule.
  apply ciEqual_equalIgnoringCase, toLowerCase_eq_ciEqual in Hu.
  pose proof Hrule as Hl.
  apply ciEqual_equalIgnoringCase, toLowerCase_eq_ciEqual in Hl.
  destruct Hrule as [|c d r r' _ _]; [reflexivity|].
  unfold matchesRule. rewrite Hr, Hr', Hu, Hl. reflexivity.
Qed.

Lemma matchesRule_ignores_case_witness :
  matchesRule (H := literalHost) (js "https://host/API/v1") (RuleStr (js "api/V1"))
  = matchesRule (H := literalHost) (js "HTTPS://HOST/api/V1") (RuleStr (js "API/v1")).
Proof.
  apply (@matchesRule_ignores_case literalHost);
    match goal with
    | |- latin1 _ => unfold latin1; repeat constructor
    | |- equalIgnoringCase _ _ => apply ciEqual_equalIgnoringCase; repeat constructor
    | |- _ => reflexivity
    end.
Defined.
(** ** Further properties of the content classifier *)

Lemma dropWhile_all (p : codeunit -> bool) (s : jsstring) :
  forallb p s = true -> dropWhile p s = [].
Proof.
  induction s as [|c s IH]; [reflexivity|]. cbn [forallb dropWhile].
  intros Hp. apply andb_true_iff in Hp. destruct Hp as [-> Hs]. apply IH, Hs.
Qed.

Lemma dropWhile_app_all (p : codeunit -> bool) (pre s : jsstring) :
  forallb p pre = true -> dropWhile p (pre ++ s) = dropWhile p s.
Proof.
  induction pre as [|c pre IH]; [reflexivity|]. cbn [forallb dropWhile app].
  intros Hp. apply andb_true_iff in Hp. destruct Hp as [-> Hs]. apply IH, Hs.
Qed.

Lemma dropWhile_app_some (p : codeunit -> bool) (s post : jsstring) :
  forallb p s = false -> dropWhile p (s ++ post) = dropWhile p s ++ post.
Proof.
  induction s as [|c s IH]; [discriminate|]. cbn [forallb dropWhile app].
  destruct (p c); [exact IH | reflexivity].
Qed.

(** What [dropWhile] leaves starts with a unit that fails the test. *)
Lemma dropWhile_head (p : codeunit -> bool) (s : jsstring) :
  dropWhile p s = [] \/ exists c rest, dropWhile p s = c :: rest /\ p c = false.
Proof.
  induction s as [|c s IH]; [left; reflexivity|]. cbn [dropWhile].
  destruct (p c) eqn:Ec; [exact IH | right; eauto].
Qed.

Lemma dropWhile_keeps (p : codeunit -> bool) (c : codeunit) (s : jsstring) :
  In c s -> p c = false -> In c (dropWhile p s).
Proof.
  induction s as [|d s IH]; [contradiction|]. cbn [dropWhile].
  intros [-> | Hin] Hc; [rewrite Hc; left; reflexivity|].
  destruct (p d); [apply IH; assumption | right; exact Hin].
Qed.

Lemma forallb_dropWhile_false (p : codeunit -> bool) (s : jsstring) :
  forallb p s = false -> forallb p (dropWhile p s) = false.
Proof.
  induction s as [|c s IH]; [discriminate|]. cbn [forallb dropWhile].
  destruct (p c) eqn:Ec; [exact IH|]. intros _. cbn [forallb]. rewrite Ec. reflexivity.
Qed.

Lemma forallb_rev (p : codeunit -> bool) (s : jsstring) :
  forallb p (rev s) = forallb p s.
Proof.
  induction s as [|c s IH]; [reflexivity|]. cbn [rev forallb].
  rewrite forallb_app, IH. cbn [forallb]. rewrite andb_true_r. apply andb_comm.
Qed.

(** A string of whitespace trims to the empty string. *)
Lemma trim_white (s : jsstring) : forallb isWhite s = true -> trim s = [].
Proof.
  intros Hs. unfold trim. rewrite (dropWhile_all _ _ Hs). reflexivity.
Qed.

(** Whitespace around a string does not show after [trim]. *)
Lemma trim_padding (pre s post : jsstring) :
  forallb isWhite pre = true -> forallb isWhite post = true ->
  trim (pre ++ s ++ post) = trim s.
Proof.
  intros Hpre Hpost. unfold trim. rewrite (dropWhile_app_all _ _ _ Hpre).
  destruct (forallb isWhite s) eqn:Es.
  - rewrite (dropWhile_all isWhite (s ++ post)), (dropWhile_all isWhite s Es);
      [reflexivity|].
    rewrite forallb_app, Es, Hpost. reflexivity.
  - rewrite (dropWhile_app_some _ _ _ Es), rev_app_distr.
    rewrite dropWhile_app_all; [reflexivity|].
    rewrite forallb_rev. exact Hpost.
Qed.

(** A trimmed string without a unit that is not whitespace is empty. *)
Lemma stripWhitespace_trim (s : jsstring) :
  stripWhitespace (trim s) = [] <-> trim s = [].
Proof.
  split; [|intros ->; reflexivity].
  unfold trim. intros Hstrip.
  destruct (dropWhile_head isWhite s) as [-> | [c [rest [E Hc]]]]; [reflexivity|].
  exfalso. rewrite E in *.
  assert (Hin : In c (rev (dropWhile isWhite (rev (c :: rest))))).
  { apply in_rev. rewrite rev_involutive. apply dropWhile_keeps; [|exact Hc].
    apply -> in_rev. left. reflexivity. }
  assert (Hf : In c (stripWhitespace (rev (dropWhile isWhite (rev (c :: rest)))))).
  { unfold stripWhitespace. apply filter_In. split; [exact Hin|]. rewrite Hc. reflexivity. }
  rewrite Hstrip in Hf. exact Hf.
Qed.

Lemma length_zero (s : jsstring) : (length s =? 0) = true <-> s = [].
Proof.
  unfold length. destruct s; simpl; split; intros E; try reflexivity; discriminate.
Qed.

(** X13: A body is empty by the length and whitespace test exactly when it is
    the empty string, or its trimmed text is shorter than
    [minContentLength], or the whitespace check is on and the body is
    whitespace throughout: after [trim], the whitespace check can only find
    the empty string. *)
Theorem isEmptyContent_spec (settings : Settings) (text : jsstring) :
  isEmptyContent settings text = true
  <-> text = []
      \/ length (trim text) < minContentLength settings
      \/ (checkWhitespace settings = true /\ trim text = []).
Proof.
  destruct text as [|c text]; [simpl; tauto|].
  unfold isEmptyContent. set (content := trim (c :: text)).
  destruct (Z.ltb_spec (length content) (minContentLength settings)) as [Hlt|Hge].
  - tauto.
  - destruct (checkWhitespace settings); cbn [andb].
    + destruct (length (stripWhitespace content) =? 0) eqn:E.
      * apply length_zero, stripWhitespace_trim in E. tauto.
      * split; [discriminate|]. intros [F | [F | [_ F]]]; [discriminate F | lia |].
        apply stripWhitespace_trim, length_zero in F. subst content. congruence.
    + split; [discriminate|]. intros [F | [F | [F _]]]; [discriminate F | lia | discriminate F].
Qed.

(** X14: With a minimal length of one or more, the whitespace check decides
    nothing: the test is the comparison of the trimmed length. *)
Theorem isEmptyContent_length_only (settings : Settings) (text : jsstring) :
  1 <= minContentLength settings ->
  isEmptyContent settings text
  = match text with
    | [] => true
    | _ :: _ => length (trim text) <? minContentLength settings
    end.
Proof.
  intros Hmin. destruct text as [|c text]; [reflexivity|].
  unfold isEmptyContent. set (content := trim (c :: text)).
  destruct (Z.ltb_spec (length content) (minContentLength settings)) as [Hlt|Hge];
    [reflexivity|].
  destruct (checkWhitespace settings); [|reflexivity]. cbn [andb].
  destruct (length (stripWhitespace content) =? 0) eqn:E; [|reflexivity].
  apply length_zero, stripWhitespace_trim in E. subst content.
  rewrite E in Hge. unfold length in Hge. simpl in Hge. lia.
Qed.

Lemma isEmptyContent_length_only_witness :
  isEmptyContent DEFAULT_SETTINGS (js "  ok  ")
  = (length (trim (js "  ok  ")) <? minContentLength DEFAULT_SETTINGS).
Proof.
  apply (@isEmptyContent_length_only DEFAULT_SETTINGS (js "  ok  ")).
  simpl. lia.
Defined.

(** X15: Whitespace before and after a body that is not the empty string does
    not change its classification. *)
Theorem isEmptyContent_padding (settings : Settings) (pre text post : jsstring) :
  forallb isWhite pre = true -> forallb isWhite post = true -> text <> [] ->
  isEmptyContent settings (pre ++ text ++ post) = isEmptyContent settings text.
Proof.
  intros Hpre Hpost Hne.
  pose proof (trim_padding pre text post Hpre Hpost) as Ht.
  destruct text as [|c text]; [contradiction|].
  unfold isEmptyContent. rewrite Ht.
  destruct (pre ++ (c :: text) ++ post) as [|d rest] eqn:E; [|reflexivity].
  destruct pre; discriminate E.
Qed.

Lemma isEmptyContent_padding_witness :
  isEmptyContent DEFAULT_SETTINGS ([32; 10]%N ++ js "Hello world" ++ [9; 32]%N)
  = isEmptyContent DEFAULT_SETTINGS (js "Hello world").
Proof.
  apply (@isEmptyContent_padding DEFAULT_SETTINGS [32; 10]%N (js "Hello world") [9; 32]%N);
    [reflexivity | reflexivity | discriminate].
Defined.
(** ** The token count *)

(** X16: The estimate used without a tokenizer is the ceiling of the length
    divided by 3.35: it is below a threshold [t] exactly when the length is
    at most [3.35 * (t - 1)], and it is zero for the empty string only. *)
Theorem approxTokens_ceiling (s : jsstring) :
  67 * (approxTokens s - 1) < 20 * length s <= 67 * approxTokens s
  /\ (forall t, approxTokens s < t <-> 20 * length s <= 67 * (t - 1))
  /\ (approxTokens s = 0 <-> s = []).
Proof.
  unfold approxTokens.
  assert (Hlen : 0 <= length s) by (unfold length; lia).
  pose proof (Z.div_mod (20 * length s + 66) 67 ltac:(lia)) as Hdm.
  pose proof (Z.mod_pos_bound (20 * length s + 66) 67 ltac:(lia)) as Hmod.
  split; [lia|]. split.
  - intros t. lia.
  - split.
    + intros E. destruct s; [reflexivity|]. unfold length in *. simpl List.length in *. lia.
    + intros ->. reflexivity.
Qed.

(** X17: [getTokenCountFor] never raises: without a tokenizer, or with one that
    raises, it answers the estimate; it makes no underlying call and shows
    nothing. *)
Theorem getTokenCountFor_fallback (env : Env) (abortSignal : option AbortSignal)
    (text : jsstring) (w : World) :
  (getTokenCountAsyncFn env = None
   \/ exists f, getTokenCountAsyncFn env = Some f /\ f text = None) ->
  fst (getTokenCountFor env abortSignal text w) = Normal (approxTokens text)
  /\ calls (snd (getTokenCountFor env abortSignal text w)) = calls w
  /\ trace (snd (getTokenCountFor env abortSignal text w)) = trace w.
Proof.
  unfold getTokenCountFor, bind, tryCatch, suspend, ret, throw.
  intros [-> | [f [-> ->]]]; simpl; auto.
Qed.

Lemma getTokenCountFor_fallback_witness :
  fst (getTokenCountFor (mkEnv (fun _ => Resolves (okResponse [])) (Some (fun _ => None)))
         None (js "Hello world") (initialWorld None))
  = Normal 4.
Proof.
  apply (@getTokenCountFor_fallback
           (mkEnv (fun _ => Resolves (okResponse [])) (Some (fun _ => None)))
           None (js "Hello world") (initialWorld None)).
  right. exists (fun _ => None). split; reflexivity.
Defined.
(** ** The extracted content *)

Lemma join_nil_iff (sep : jsstring) (parts : list jsstring) :
  Forall (fun p => p <> []) parts -> join sep parts = [] -> parts = [].
Proof.
  intros Hall E. destruct Hall as [|p parts Hp Hall]; [reflexivity|].
  exfalso. destruct p as [|c p]; [apply Hp; reflexivity|].
  destruct parts; simpl in E; discriminate E.
Qed.

Lemma includes_join (sep : jsstring) (parts : list jsstring) (p : jsstring) :
  In p parts -> includes (join sep parts) p = true.
Proof.
  intros Hin. apply includes_spec.
  induction parts as [|q parts IH]; [contradiction|].
  destruct Hin as [-> | Hin].
  - destruct parts as [|q' parts].
    + exists [], []. simpl. rewrite app_nil_r. reflexivity.
    + exists [], (sep ++ join sep (q' :: parts)). reflexivity.
  - destruct (IH Hin) as [pre [post E]].
    destruct parts as [|q' parts]; [contradiction|].
    exists (q ++ sep ++ pre), post.
    change (join sep (q :: q' :: parts)) with (q ++ sep ++ join sep (q' :: parts)).
    rewrite E, <- !app_assoc. reflexivity.
Qed.

Lemma nonEmpty_true (s : jsstring) : nonEmpty s = true <-> s <> [].
Proof. destruct s; simpl; split; congruence. Qed.

Lemma In_strField (k : string) (v : option JSON) (s : jsstring) :
  In s (strField k v) <-> get k v = Some (JStr s).
Proof.
  unfold strField. destruct (get k v) as [[| | |t| |]|]; simpl; split;
    try tauto; try discriminate.
  - intros [-> | []]. reflexivity.
  - intros E. injection E as ->. auto.
Qed.

Lemma In_strField_nested (k k' : string) (v : JSON) (s : jsstring) :
  In s (strField k (get k' (Some v)))
  <-> exists m, get k' (Some v) = Some m /\ hasString m k s.
Proof.
  rewrite In_strField. unfold hasString. split.
  - intros E. destruct (get k' (Some v)) as [m|]; [eauto | discriminate E].
  - intros [m [-> E]]. exact E.
Qed.

Lemma extractParts_Reads (obj : JSON) (s : jsstring) :
  In s (extractParts obj) <-> Reads obj s.
Proof.
  unfold extractParts. rewrite !in_app_iff. split.
  - intros [Hc | [Hr | [Hf | Hd]]].
    + destruct (get "choices" (Some obj)) as [[| | | |chs|]|] eqn:E; try contradiction.
      apply in_flat_map in Hc. destruct Hc as [ch [Hin Hc]].
      unfold choiceParts in Hc. rewrite !in_app_iff in Hc.
      destruct Hc as [Hm | [Hd | Ht]].
      * apply In_strField_nested in Hm. destruct Hm as [m [Em Hs]].
        eapply ReadsChoiceMessage; eauto.
      * apply In_strField_nested in Hd. destruct Hd as [d [Ed Hs]].
        eapply ReadsChoiceDelta; eauto.
      * apply In_strField in Ht. eapply ReadsChoiceText; eauto.
    + destruct (get "results" (Some obj)) as [[| | | |rs|]|] eqn:E; try contradiction.
      apply in_flat_map in Hr. destruct Hr as [r [Hin Hr]].
      unfold resultParts in Hr. rewrite !in_app_iff in Hr.
      destruct Hr as [Ht | [Ht | Ht]]; apply In_strField in Ht;
        eapply ReadsResult; eauto; simpl; auto.
    + apply in_flat_map in Hf. destruct Hf as [k [Hin Hf]].
      apply In_strField in Hf. eapply ReadsFallback; eauto.
    + destruct (get "data" (Some obj)) as [[| | | |[|d rest]|]|] eqn:E; try contradiction.
      apply In_strField in Hd. eapply ReadsFirstData; eauto.
  - intros [chs ch m E Hin Em Hs | chs ch d E Hin Ed Hs | chs ch E Hin Hs
           | rs r k E Hin Hk Hs | k Hk Hs | d rest E Hs].
    + left. rewrite E. apply in_flat_map. exists ch. split; [exact Hin|].
      unfold choiceParts. rewrite !in_app_iff. left.
      apply In_strField_nested. eauto.
    + left. rewrite E. apply in_flat_map. exists ch. split; [exact Hin|].
      unfold choiceParts. rewrite !in_app_iff. right; left.
      apply In_strField_nested. eauto.
    + left. rewrite E. apply in_flat_map. exists ch. split; [exact Hin|].
      unfold choiceParts. rewrite !in_app_iff. right; right.
      apply In_strField. exact Hs.
    + right; left. rewrite E. apply in_flat_map. exists r. split; [exact Hin|].
      unfold resultParts. rewrite !in_app_iff.
      destruct Hk as [<- | [<- | [<- | []]]];
        [left | right; left | right; right]; apply In_strField; exact Hs.
    + right; right; left. apply in_flat_map. exists k. split; [exact Hk|].
      apply In_strField. exact Hs.
    + right; right; right. rewrite E. apply In_strField. exact Hs.
Qed.

(** X18: For a body that parses, nothing is extracted exactly when every field
    the extraction reads is the empty string (a field that is missing or
    not a string is not read); a content that is extracted is never the
    empty string, every non-empty field read occurs in it, and it is made
    of non-empty fields read, joined by line feeds, and of nothing else. *)
Theorem extractResponseContent_spec {H : Host} (rawText : jsstring) (obj : JSON) :
  JSON_parse rawText = Some obj ->
  (extractResponseContent rawText = None
   <-> forall p, Reads obj p -> p = [])
  /\ (forall c, extractResponseContent rawText = Some c ->
        c <> []
        /\ (forall p, Reads obj p -> p <> [] -> includes c p = true)
        /\ exists parts,
             c = join [10%N] parts
             /\ Forall (fun p => Reads obj p /\ p <> []) parts).
Proof.
  intros Hparse. unfold extractResponseContent. rewrite Hparse.
  set (parts := filter nonEmpty (extractParts obj)).
  assert (Hall : Forall (fun p => p <> []) parts).
  { apply Forall_forall. intros p Hin. apply filter_In in Hin.
    apply nonEmpty_true, Hin. }
  assert (Hread : Forall (fun p => Reads obj p /\ p <> []) parts).
  { apply Forall_forall. intros p Hin. apply filter_In in Hin.
    split; [apply extractParts_Reads, Hin | apply nonEmpty_true, Hin]. }
  split.
  - destruct (join [10%N] parts) as [|c joined] eqn:E.
    + apply join_nil_iff in E; [|exact Hall]. split; [|reflexivity].
      intros _ p Hin. apply extractParts_Reads in Hin.
      destruct p as [|d p]; [reflexivity|].
      assert (Hp : In (d :: p) parts) by (apply filter_In; auto).
      rewrite E in Hp. contradiction.
    + split; [discriminate|]. intros Hnone. exfalso.
      assert (Hparts : parts = []).
      { destruct parts as [|p parts'] eqn:Ep; [reflexivity|]. exfalso.
        apply Forall_inv in Hread. destruct Hread as [Hr Hne].
        apply Hne, Hnone, Hr. }
      rewrite Hparts in E. discriminate E.
  - intros c Hc.
    destruct (join [10%N] parts) as [|d joined] eqn:E; [discriminate|].
    injection Hc as <-. split; [discriminate|]. split.
    + intros p Hin Hne. rewrite <- E. apply includes_join.
      apply filter_In. split; [apply extractParts_Reads, Hin | apply nonEmpty_true, Hne].
    + exists parts. split; [symmetry; exact E | exact Hread].
Qed.

Lemma extractResponseContent_spec_witness :
  (extractResponseContent (H := documentHost chatText chatDocument) chatText = None
   <-> forall p, Reads chatDocument p -> p = [])
  /\ (forall c,
        extractResponseContent (H := documentHost chatText chatDocument) chatText = Some c ->
        c <> []
        /\ (forall p, Reads chatDocument p -> p <> [] -> includes c p = true)
        /\ exists parts,
             c = join [10%N] parts
             /\ Forall (fun p => Reads chatDocument p /\ p <> []) parts).
Proof.
  apply (@extractResponseContent_spec (documentHost chatText chatDocument) chatText
           chatDocument).
  reflexivity.
Defined.

(** The content extracted from the chat completion: the message and the
    fallback field, the empty delta left out. *)
Example extractResponseContent_chat :
  extractResponseContent (H := documentHost chatText chatDocument) chatText
  = Some (js "Hi there" ++ [10%N] ++ js "done").
Proof. reflexivity. Qed.
(** ** Abort detection *)

Lemma strEq_spec (s t : jsstring) : strEq s t = true <-> s = t.
Proof.
  revert t; induction s as [|c s IH]; intros [|d t]; simpl;
    try (split; [discriminate | discriminate]); [tauto|].
  rewrite andb_true_iff, N.eqb_eq, IH. split.
  - intros [-> ->]. reflexivity.
  - intros E. injection E as -> ->. auto.
Qed.

Lemma includes_longer (s t extra : jsstring) :
  includes s (t ++ extra) = true -> includes s t = true.
Proof.
  rewrite !includes_spec. intros [pre [post E]].
  exists pre, (extra ++ post). rewrite E, <- app_assoc. reflexivity.
Qed.

(** X19: An error counts as an abort exactly when its name is [AbortError], or
    the text searched (the message, or the string conversion of the error
    when the message is empty) contains [abort], [canceled] or [cancelled]
    in any case of the letters; the search for [aborted] adds nothing. *)
Theorem isAbortError_spec (error : JsError) :
  isAbortError error = true
  <-> name error = js "AbortError"
      \/ ciContains (errorText error) (js "abort")
      \/ ciContains (errorText error) (js "canceled")
      \/ ciContains (errorText error) (js "cancelled").
Proof.
  unfold isAbortError. fold (errorText error).
  destruct (strEq (name error) (js "AbortError")) eqn:En.
  - apply strEq_spec in En. tauto.
  - assert (Hn : name error <> js "AbortError").
    { intros E. apply strEq_spec in E. congruence. }
    rewrite <- (includes_toLowerCase (errorText error) (js "abort")).
    rewrite <- (includes_toLowerCase (errorText error) (js "canceled")).
    rewrite <- (includes_toLowerCase (errorText error) (js "cancelled")).
    change (toLowerCase (js "abort")) with (js "abort").
    change (toLowerCase (js "canceled")) with (js "canceled").
    change (toLowerCase (js "cancelled")) with (js "cancelled").
    rewrite !orb_true_iff. split.
    + intros [[[Ha | Ha] | Ha] | Ha]; auto.
      right. left. apply includes_longer with (extra := js "ed"). exact Ha.
    + intros [E | [Ha | [Ha | Ha]]]; [contradiction | auto | auto | auto].
Qed.
(** ** The rule editor *)

Lemma dropWhile_fixed (p : codeunit -> bool) (c : codeunit) (s : jsstring) :
  p c = false -> dropWhile p (c :: s) = c :: s.
Proof. intros Hc. cbn [dropWhile]. rewrite Hc. reflexivity. Qed.

Lemma dropWhile_idempotent (p : codeunit -> bool) (s : jsstring) :
  dropWhile p (dropWhile p s) = dropWhile p s.
Proof.
  destruct (dropWhile_head p s) as [-> | [c [rest [-> Hc]]]];
    [reflexivity | apply dropWhile_fixed, Hc].
Qed.

(** What is left of a string that ends with a unit failing the test ends
    with that unit. *)
Lemma dropWhile_last (p : codeunit -> bool) (s : jsstring) (c : codeunit) :
  p c = false -> exists rest, dropWhile p (s ++ [c]) = rest ++ [c].
Proof.
  intros Hc. induction s as [|d s IH]; cbn [app dropWhile].
  - rewrite Hc. exists []. reflexivity.
  - destruct (p d); [exact IH | exists (d :: s); reflexivity].
Qed.

(** A trimmed string has no whitespace at either end. *)
Lemma trim_ends (s : jsstring) :
  dropWhile isWhite (trim s) = trim s
  /\ dropWhile isWhite (rev (trim s)) = rev (trim s).
Proof.
  unfold trim. rewrite rev_involutive. split; [|apply dropWhile_idempotent].
  destruct (dropWhile_head isWhite s) as [-> | [c [rest [-> Hc]]]]; [reflexivity|].
  cbn [rev]. destruct (dropWhile_last isWhite (rev rest) c Hc) as [v ->].
  rewrite rev_app_distr. cbn [rev app]. apply dropWhile_fixed, Hc.
Qed.

Lemma trim_idempotent (s : jsstring) : trim (trim s) = trim s.
Proof.
  destruct (trim_ends s) as [Hfront Hback].
  unfold trim at 1. rewrite Hfront, Hback. apply rev_involutive.
Qed.

Lemma tidy_trim (input : jsstring) : trim input <> [] -> tidy (RuleStr (trim input)).
Proof. intros Hne. split; [exact Hne | apply trim_idempotent]. Qed.

Lemma addRuleClick_spec (input : jsstring) (rules : RulesField)
    (rules' : list RuleValue) :
  addRuleClick input rules = Some rules' ->
  trim input <> [] /\ rules' = rulesArray rules ++ [RuleStr (trim input)].
Proof.
  unfold addRuleClick. destruct (trim input) as [|c v]; [discriminate|].
  intros E. injection E as <-. split; [discriminate | reflexivity].
Qed.

Lemma splice1_in_range (A : Type) (i : nat) (arr : list A) :
  splice1 (Z.of_nat i) arr = firstn i arr ++ skipn (S i) arr.
Proof.
  unfold splice1. destruct (Z.ltb_spec (Z.of_nat i) 0) as [Hneg|_]; [lia|].
  destruct (Z.min_spec (Z.of_nat i) (Z.of_nat (List.length arr))) as [[Hlt ->] | [Hge ->]].
  - rewrite Nat2Z.id. reflexivity.
  - rewrite Nat2Z.id.
    rewrite !firstn_all2, !skipn_all2 by lia. reflexivity.
Qed.

Lemma firstn_In (A : Type) (n : nat) (l : list A) (x : A) :
  In x (firstn n l) -> In x l.
Proof.
  intros Hin. rewrite <- (firstn_skipn n l). apply in_or_app. left. exact Hin.
Qed.

Lemma skipn_In (A : Type) (n : nat) (l : list A) (x : A) :
  In x (skipn n l) -> In x l.
Proof.
  intros Hin. rewrite <- (firstn_skipn n l). apply in_or_app. right. exact Hin.
Qed.

Lemma Forall_splice (P : RuleValue -> Prop) (i : nat) (rules : list RuleValue) :
  Forall P rules -> Forall P (firstn i rules ++ skipn (S i) rules).
Proof.
  intros Hall. apply Forall_app. split.
  - apply Forall_forall. intros r Hin. apply (proj1 (Forall_forall P rules) Hall).
    eapply firstn_In, Hin.
  - apply Forall_forall. intros r Hin. apply (proj1 (Forall_forall P rules) Hall).
    eapply skipn_In, Hin.
Qed.

Lemma renderedIndices_spec (i : nat) (rules : list RuleValue) :
  In i (renderedIndices rules) <-> (i < List.length rules)%nat.
Proof. unfold renderedIndices. rewrite in_seq. lia. Qed.

Lemma assignAt_in_range (i : nat) (v : RuleValue) (rules : list RuleValue) :
  (i < List.length rules)%nat ->
  assignAt (Z.of_nat i) v rules = firstn i rules ++ v :: skipn (S i) rules.
Proof.
  intros Hi. unfold assignAt.
  destruct (Z.ltb_spec (Z.of_nat i) 0) as [Hneg|_]; [lia|].
  destruct (Z.ltb_spec (Z.of_nat i) (Z.of_nat (List.length rules))) as [_|Hge]; [|lia].
  rewrite Nat2Z.id. reflexivity.
Qed.

Lemma tidy_defaultRule : tidy (RuleStr defaultRule).
Proof. split; [discriminate | reflexivity]. Qed.

Lemma EditorStep_tidy (otherText : jsstring) (rules rules' : list RuleValue) :
  EditorStep otherText rules rules' -> Forall tidy rules -> Forall tidy rules'.
Proof.
  intros Hstep Hall. destruct Hstep as [input rules rules' E | i rules rules' Hi E
                                      | i answer rules rules' Hi E | rules rules' E].
  - apply addRuleClick_spec in E. destruct E as [Hne ->]. cbn [rulesArray].
    apply Forall_app. split; [exact Hall|]. constructor; [apply tidy_trim, Hne | constructor].
  - cbn [deleteRuleClick] in E. injection E as <-. rewrite splice1_in_range.
    apply Forall_splice, Hall.
  - unfold editRuleClick in E. destruct answer as [newVal|]; [|discriminate].
    destruct (trim newVal) as [|c v] eqn:Ev; [discriminate|]. injection E as <-.
    apply renderedIndices_spec in Hi. rewrite (@assignAt_in_range i (RuleStr (c :: v)) rules Hi).
    apply Forall_app. split.
    + apply Forall_forall. intros r Hin. apply (proj1 (Forall_forall tidy rules) Hall).
      eapply firstn_In, Hin.
    + constructor.
      * rewrite <- Ev. apply tidy_trim. rewrite Ev. discriminate.
      * apply Forall_forall. intros r Hin. apply (proj1 (Forall_forall tidy rules) Hall).
        eapply skipn_In, Hin.
  - unfold insertDefaultRuleClick in E. destruct (existsb _ _); [discriminate|].
    injection E as <-. cbn [rulesArray]. apply Forall_app.
    split; [exact Hall | constructor; [apply tidy_defaultRule | constructor]].
Qed.

(** X20: Through any number of clicks in the editor, an array of non-empty
    strings without whitespace at their ends stays one: the handlers store
    nothing else. *)
Theorem editor_stores_tidy_rules (otherText : jsstring) (rules rules' : list RuleValue) :
  EditorSteps otherText rules rules' -> Forall tidy rules -> Forall tidy rules'.
Proof.
  induction 1 as [rules | rules rules' rules'' Hstep _ IH]; [auto|].
  intros Hall. apply IH. apply (EditorStep_tidy Hstep Hall).
Qed.

Lemma editor_stores_tidy_rules_witness :
  Forall tidy [RuleStr (js "api/chat"); RuleStr defaultRule].
Proof.
  apply (@editor_stores_tidy_rules [] [] [RuleStr (js "api/chat"); RuleStr defaultRule]).
  - apply StepsMore with (rules' := [RuleStr (js "api/chat")]).
    + apply StepAdd with (input := js "  api/chat "). reflexivity.
    + apply StepsMore with (rules' := [RuleStr (js "api/chat"); RuleStr defaultRule]).
      * apply StepInsertDefault. reflexivity.
      * apply StepsNone.
  - constructor.
Defined.

(** X21: A rule that was added is the last of the array; deleting the item
    rendered for it gives the array back as it was. *)
Theorem addRuleClick_then_delete (input : jsstring) (rules rules' : list RuleValue) :
  addRuleClick input (RulesArray rules) = Some rules' ->
  In (List.length rules) (renderedIndices rules')
  /\ deleteRuleClick (Some (Z.of_nat (List.length rules))) rules' = Some rules.
Proof.
  intros E. apply addRuleClick_spec in E. destruct E as [_ ->]. cbn [rulesArray].
  split.
  - apply renderedIndices_spec. rewrite length_app. simpl. lia.
  - cbn [deleteRuleClick]. rewrite splice1_in_range. f_equal.
    rewrite firstn_app, Nat.sub_diag, firstn_all. cbn [firstn].
    rewrite skipn_all2 by (rewrite length_app; simpl; lia).
    rewrite !app_nil_r. reflexivity.
Qed.

Lemma addRuleClick_then_delete_witness :
  deleteRuleClick (Some 1) [RuleStr (js "api"); RuleStr (js "chat")]
  = Some [RuleStr (js "api")].
Proof.
  apply (@addRuleClick_then_delete (js " chat") [RuleStr (js "api")]
           [RuleStr (js "api"); RuleStr (js "chat")]).
  reflexivity.
Defined.

Lemma rulesOf_withRules (settings : Settings) (rules : list RuleValue) :
  rulesOf (withRules settings rules) = rules.
Proof. reflexivity. Qed.

Lemma matchesRule_substring {H : Host} (url rule : jsstring) :
  rule <> [] -> isRegexRule rule = false -> ciContains url rule ->
  matchesRule url (RuleStr rule) = Normal true.
Proof.
  intros Hne Hre Hc. destruct rule as [|c r]; [contradiction|].
  unfold matchesRule. rewrite Hre. cbn [orFalse].
  apply includes_toLowerCase in Hc. rewrite Hc. reflexivity.
Qed.

(** X22: After a rule is added, every URL that was intercepted still is, and,
    when the text added is not of the form [/pattern/] and is made of Basic
    Latin and Latin-1 characters, so is every URL of such characters that
    contains it with the case of letters ignored. *)
Theorem addRuleClick_intercepts {H : Host} (settings : Settings) (input : jsstring)
    (rules' : list RuleValue) :
  addRuleClick input (interceptRules settings) = Some rules' ->
  (forall url, shouldIntercept settings url = Normal true ->
               shouldIntercept (withRules settings rules') url = Normal true)
  /\ (isRegexRule (trim input) = false ->
      latin1 (trim input) ->
      forall url, latin1 url -> containsIgnoringCase url (trim input) ->
                  shouldIntercept (withRules settings rules') url = Normal true).
Proof.
  intros E. apply addRuleClick_spec in E. destruct E as [Hne ->]. split.
  - intros url. rewrite !shouldIntercept_some, !some_spec, rulesOf_withRules.
    intros [rule [Hin Hm]]. exists rule. split; [|exact Hm].
    apply in_or_app. left. exact Hin.
  - intros Hre _ url _ Hc. apply ciContains_containsIgnoringCase in Hc.
    rewrite shouldIntercept_some, some_spec, rulesOf_withRules.
    exists (RuleStr (trim input)). split.
    + apply in_or_app. right. left. reflexivity.
    + apply matchesRule_substring; assumption.
Qed.

Lemma addRuleClick_intercepts_witness :
  shouldIntercept (H := literalHost)
    (withRules (apiSettings 3) [RuleStr (js "api"); RuleStr (js "v1/Chat")])
    (js "https://host/V1/chat")
  = Normal true.
Proof.
  apply (@addRuleClick_intercepts literalHost (apiSettings 3) (js " v1/Chat  ")
           [RuleStr (js "api"); RuleStr (js "v1/Chat")]).
  - reflexivity.
  - reflexivity.
  - unfold latin1. repeat constructor.
  - unfold latin1. repeat constructor.
  - apply ciContains_containsIgnoringCase.
    exists (js "https://host/"), (js "V1/chat"), []. split; [reflexivity|].
    repeat constructor.
Defined.
(** *** The default rule *)

(** A string equal to the default rule up to the case of its letters is a
    substring rule like it: it does not end with a slash. *)
Lemma defaultRule_like_substring (s : jsstring) :
  toLowerCase s = toLowerCase defaultRule -> s <> [] /\ isRegexRule s = false.
Proof.
  intros E. split; [intros ->; discriminate E|].
  unfold isRegexRule, endsWith. change (rev (js "/")) with [47%N].
  destruct (startsWith (rev s) [47%N]) eqn:Hend; [|apply andb_false_r].
  exfalso. apply startsWith_spec in Hend. destruct Hend as [front Hrev].
  apply (f_equal (@rev _)) in Hrev. rewrite rev_involutive, rev_app_distr in Hrev.
  subst s. unfold toLowerCase in E. rewrite map_app in E.
  apply (f_equal (@rev _)) in E. rewrite rev_app_distr in E.
  vm_compute in E. discriminate E.
Qed.

Lemma existsb_ruleText (otherText : jsstring) (rules : list RuleValue) :
  existsb (fun r => strEq (toLowerCase (ruleText otherText r)) (toLowerCase defaultRule))
    rules = true
  <-> exists r, In r rules
                /\ toLowerCase (ruleText otherText r) = toLowerCase defaultRule.
Proof.
  rewrite existsb_exists. split; intros [r [Hin E]]; exists r; split; try exact Hin;
    apply strEq_spec, E.
Qed.

(** X23: A second click on the button that inserts the default rule changes
    nothing: once inserted, the rule is found.  The button never removes a
    rule. *)
Theorem insertDefaultRuleClick_once (otherText : jsstring) (rules : RulesField)
    (rules' : list RuleValue) :
  insertDefaultRuleClick otherText rules = Some rules' ->
  rules' = rulesArray rules ++ [RuleStr defaultRule]
  /\ insertDefaultRuleClick otherText (RulesArray rules') = None.
Proof.
  unfold insertDefaultRuleClick.
  destruct (existsb _ (rulesArray rules)) eqn:E; [discriminate|].
  intros E'. injection E' as <-. split; [reflexivity|].
  cbn [rulesArray]. rewrite existsb_app. cbn [existsb ruleText].
  replace (strEq (toLowerCase defaultRule) (toLowerCase defaultRule)) with true
    by reflexivity.
  rewrite orb_true_r. reflexivity.
Qed.

Lemma insertDefaultRuleClick_once_witness :
  insertDefaultRuleClick [] (RulesArray [RuleStr (js "api"); RuleStr defaultRule]) = None.
Proof.
  apply (@insertDefaultRuleClick_once [] (RulesArray [RuleStr (js "api")])
           [RuleStr (js "api"); RuleStr defaultRule]).
  reflexivity.
Defined.

(** X24: After a click on the button that inserts the default rule, whether it
    inserted the rule or found it, an array of strings intercepts every URL
    that contains [/chat-completions/generate] in any case of the
    letters. *)
Theorem insertDefaultRuleClick_intercepts {H : Host} (otherText : jsstring)
    (settings : Settings) (url : jsstring) :
  forallb isStringRule (rulesOf settings) = true ->
  ciContains url defaultRule ->
  shouldIntercept
    (afterClick settings (insertDefaultRuleClick otherText (interceptRules settings)))
    url
  = Normal true.
Proof.
  intros Hstr Hc. rewrite shouldIntercept_some, some_spec.
  unfold insertDefaultRuleClick. fold (rulesOf settings).
  destruct (existsb _ (rulesOf settings)) eqn:E; cbn [afterClick].
  - apply existsb_ruleText in E. destruct E as [r [Hin E]].
    rewrite forallb_forall in Hstr. specialize (Hstr r Hin).
    destruct r as [s|]; [|discriminate Hstr]. cbn [ruleText] in E.
    destruct (defaultRule_like_substring s E) as [Hne Hre].
    exists (RuleStr s). split; [exact Hin|].
    apply matchesRule_substring; [exact Hne | exact Hre |].
    destruct Hc as [pre [mid [post [-> Hmid]]]]. exists pre, mid, post.
    split; [reflexivity|].
    apply toLowerCase_eq_ciEqual. apply toLowerCase_eq_ciEqual in Hmid. congruence.
  - rewrite rulesOf_withRules. exists (RuleStr defaultRule). split.
    + apply in_or_app. right. left. reflexivity.
    + apply matchesRule_substring; [discriminate | reflexivity | exact Hc].
Qed.

Lemma insertDefaultRuleClick_intercepts_witness :
  shouldIntercept (H := literalHost)
    (afterClick (apiSettings 3)
       (insertDefaultRuleClick [] (interceptRules (apiSettings 3))))
    (js "/Chat-Completions/Generate")
  = Normal true.
Proof.
  apply (@insertDefaultRuleClick_intercepts literalHost [] (apiSettings 3)
           (js "/Chat-Completions/Generate")).
  - reflexivity.
  - exists [], (js "/Chat-Completions/Generate"), []. split; [reflexivity|].
    repeat constructor.
Defined.

(** A value that is not a string but reads as the default rule keeps the
    button from inserting it, and matches nothing. *)
Example insertDefaultRuleClick_blocked :
  insertDefaultRuleClick defaultRule (RulesArray [RuleOther]) = None
  /\ shouldIntercept (H := literalHost)
       (withRules (apiSettings 3) [RuleOther]) defaultRule
     = Normal false.
Proof. split; reflexivity. Qed.
(** ** Installing and removing the wrapper *)

Section Lifecycle.
Variable me : nat.
Variable f : nat.

Lemma lifecycleStep_Installed (op : LifecycleOp) (st : Instance * Window) :
  Installed me f st -> Installed me f (lifecycleStep op st).
Proof.
  destruct st as [[me' saved] [fe flag]]. unfold Installed. cbn [fst snd self savedFetch fetch].
  intros [-> Hst].
  destruct op; cbn [lifecycleStep fst snd]; unfold initializePlugin, init, cleanup;
    cbn [self savedFetch fetch initialized];
    destruct Hst as [[-> ->] | [-> [-> | ->]]]; destruct flag;
    cbn [fst snd self savedFetch fetch initialized]; auto.
Qed.

Lemma lifecycle_Installed (ops : list LifecycleOp) (st : Instance * Window) :
  Installed me f st -> Installed me f (lifecycle ops st).
Proof.
  unfold lifecycle. revert st. induction ops as [|op ops IH]; intros st Hst; [exact Hst|].
  cbn [fold_left]. apply IH, lifecycleStep_Installed, Hst.
Qed.

End Lifecycle.

(** X25: Whatever one instance does, in any order and any number of times
    ([init], [cleanup], [initializePlugin]), on a page whose [fetch] nothing
    else replaces: the function it has saved is the page's, never its own
    wrapper; the page runs the page's function or the wrapper; and
    [cleanup] puts the page's function back. *)
Theorem lifecycle_keeps_page_fetch (me f : nat) (flag : bool) (ops : list LifecycleOp) :
  let st := lifecycle ops (mkInstance me None, mkWindow (PageFetch f) flag) in
  (savedFetch (fst st) = None \/ savedFetch (fst st) = Some (PageFetch f))
  /\ (fetch (snd st) = PageFetch f
      \/ fetch (snd st) = EnhancedFetch me /\ savedFetch (fst st) = Some (PageFetch f))
  /\ fetch (cleanup (fst st) (snd st)) = PageFetch f.
Proof.
  intros st.
  assert (Hst : Installed me f st).
  { apply (@lifecycle_Installed me f). split; [reflexivity | left; split; reflexivity]. }
  destruct st as [[me' saved] [fe fl]]. destruct Hst as [_ Hst].
  cbn [fst snd self savedFetch fetch] in *. unfold cleanup. cbn [savedFetch].
  destruct Hst as [[-> ->] | [-> [-> | ->]]]; cbn [fetch]; auto.
Qed.

(** X26: The flag [initialized] belongs to the page and [originalFetch] to the
    instance: an instance that has saved nothing wraps whatever function is
    in place, flag or no flag.  So a second instance that initialises after
    a first one saves the wrapper of the first, and its [cleanup] puts that
    wrapper back, not the page's function. *)
Theorem second_instance_wraps_first (a b f : nat) (flag : bool) :
  let first := initializePlugin (mkInstance a None) (mkWindow (PageFetch f) flag) in
  let second := initializePlugin (mkInstance b None) (snd first) in
  savedFetch (fst first) = Some (PageFetch f)
  /\ initialized (snd first) = true
  /\ savedFetch (fst second) = Some (EnhancedFetch a)
  /\ fetch (snd second) = EnhancedFetch b
  /\ fetch (cleanup (fst second) (snd second)) = EnhancedFetch a.
Proof. destruct flag; repeat split. Qed.
(** ** Loading and saving the settings *)

Lemma lookup_app (k : jsstring) (a b : Obj) :
  lookup k (a ++ b) = orElse (lookup k a) (lookup k b).
Proof.
  induction a as [|[k' v] a IH]; [reflexivity|]. cbn [app lookup].
  destruct (strEq k k'); [reflexivity | exact IH].
Qed.

Lemma lookup_spread (k : jsstring) (a b : Obj) :
  lookup k (spread a b) = orElse (lookup k b) (lookup k a).
Proof. apply lookup_app. Qed.

Section LoadSettingsFacts.
Context {H : Host}.
Variable isZero : jsstring -> bool.

(** A value that is not truthy has no property to copy. *)
Lemma ownProps_falsy (v : JSON) : truthy isZero v = false -> ownProps v = [].
Proof.
  destruct v as [| b | lexeme | s | items | fields]; cbn [truthy ownProps];
    try reflexivity; try discriminate.
  destruct s; [reflexivity | discriminate].
Qed.

Lemma loadSettings_lookup (item : option jsstring) (extension_settings : Obj)
    (k : jsstring) :
  lookup k (loadSettings isZero item extension_settings)
  = orElse (lookup k (storedEntry extension_settings))
      (orElse (lookup k (persistedLocal item)) (lookup k defaultSettingsObject)).
Proof.
  unfold loadSettings, storedEntry. rewrite lookup_spread.
  destruct (lookup EXTENSION_NAME extension_settings) as [entry|]; [|reflexivity].
  destruct (truthy isZero entry) eqn:Et.
  - rewrite lookup_spread. destruct (lookup k (ownProps entry)); reflexivity.
  - rewrite (ownProps_falsy _ Et). reflexivity.
Qed.

End LoadSettingsFacts.

(** X27: Each setting is read from the entry of the plugin in
    [extension_settings] when the entry has it, else from the item of
    [localStorage], else from the defaults, so that every default setting
    has a value; whether the entry is truthy does not show, and an item
    that is not a JSON text counts as no item. *)
Theorem loadSettings_precedence {H : Host} (isZero : jsstring -> bool)
    (item : option jsstring) (extension_settings : Obj) (k : jsstring) :
  lookup k (loadSettings isZero item extension_settings)
  = orElse (lookup k (storedEntry extension_settings))
      (orElse (lookup k (persistedLocal item)) (lookup k defaultSettingsObject))
  /\ (lookup k defaultSettingsObject <> None ->
      lookup k (loadSettings isZero item extension_settings) <> None)
  /\ (forall raw, item = Some raw -> JSON_parse raw = None ->
      loadSettings isZero item extension_settings
      = loadSettings isZero None extension_settings).
Proof.
  split; [apply loadSettings_lookup|]. split.
  - rewrite loadSettings_lookup. intros Hd.
    destruct (lookup k (storedEntry extension_settings)); [discriminate|].
    destruct (lookup k (persistedLocal item)); [discriminate | exact Hd].
  - intros raw -> Hparse. unfold loadSettings, persistedLocal. rewrite Hparse.
    destruct raw; reflexivity.
Qed.

Lemma loadSettings_precedence_witness :
  loadSettings (H := literalHost) neverZero (Some brokenItem) storedSettings
  = loadSettings (H := literalHost) neverZero None storedSettings.
Proof.
  apply (@loadSettings_precedence literalHost neverZero (Some brokenItem) storedSettings
           (js "enabled")) with (raw := brokenItem); reflexivity.
Defined.

(** X28: After [saveSettings], [loadSettings] reads back every setting that was
    saved; a setting that was not among them is read as if nothing had
    been stored. *)
Theorem saveSettings_then_loadSettings {H : Host} (isZero : jsstring -> bool)
    (item : option jsstring) (settings extension_settings : Obj) (k : jsstring) :
  lookup k (loadSettings isZero item (saveSettings settings extension_settings))
  = orElse (lookup k settings) (lookup k (loadSettings isZero item [])).
Proof.
  rewrite !loadSettings_lookup. unfold storedEntry, saveSettings, spread.
  cbn [lookup]. replace (strEq EXTENSION_NAME EXTENSION_NAME) with true by reflexivity.
  cbn [ownProps]. rewrite app_nil_r. reflexivity.
Qed.

(** Settings loaded and saved are loaded again as they were. *)
Example loadSettings_stored :
  lookup (js "maxRetries")
    (loadSettings (H := literalHost) neverZero (Some brokenItem) storedSettings)
  = Some (JNum (js "2"))
  /\ lookup (js "baseDelay")
       (loadSettings (H := literalHost) neverZero (Some brokenItem) storedSettings)
     = Some (JNum (js "1000")).
Proof. split; reflexivity. Qed.
(** ** The older revision of the loop *)

Lemma waitsOf_app (a b : list Event) : waitsOf (a ++ b) = waitsOf a ++ waitsOf b.
Proof.
  induction a as [|ev a IH]; [reflexivity|].
  destruct ev; cbn [app waitsOf]; rewrite ?IH; reflexivity.
Qed.

(** Close a goal on the outcome of a step whose course is known. *)
Ltac stepped :=
  cbn [negb fst snd calls trace ticks aborted];
  eexists _, _;
  split; [reflexivity|];
  split; [reflexivity|];
  split; [repeat rewrite <- app_assoc; reflexivity|];
  reflexivity.

Section OlderLoop.
Context {H : Host}.
Variable env : Env.
Variable settings : Settings.

(** One iteration of the older loop never raises.  It makes one call; it
    ends the loop without a wait, or goes on after the wait of its attempt
    when retries remain. *)
Lemma Older_iteration_spec (attempt : nat) (lastError : option JsError) (w : World) :
  exists step ext,
    fst (Older.iteration env settings attempt lastError w) = Normal step
    /\ calls (snd (Older.iteration env settings attempt lastError w)) = S (calls w)
    /\ trace (snd (Older.iteration env settings attempt lastError w)) = trace w ++ ext
    /\ match step with
       | Exit _ => waitsOf ext = []
       | Next _ => waitsOf ext = waitsOf (olderWait settings attempt)
       end.
Proof.
  unfold Older.iteration, Older.tryBlock, Older.catchBlock, olderWait.
  rewrite (showBuiltinError_exhausted settings).
  unfold tryCatch, bind, callOriginalFetch, originalFetchCall, await, nonOkBranch, clone,
    readText, bodyText, suspend, delay, when, emit, ret, throw, tryCatch, bind.
  destruct (originalFetch env (calls w)) as [r|e|e];
    cbn [fst snd calls trace ticks aborted].
  - destruct (ok r); cbn [negb fst snd calls trace ticks aborted].
    + destruct (bodyAccess r) as [text| |e]; cbn [fst snd calls trace ticks aborted].
      * destruct (isEmptyContent settings text).
        -- destruct (Z.of_nat attempt <? maxRetries settings); stepped.
        -- destruct (0 <? Z.of_nat attempt); stepped.
      * stepped.
      * destruct (Z.of_nat attempt <? maxRetries settings); stepped.
    + destruct (bodyAccess r) as [text| |e]; cbn [fst snd calls trace ticks aborted];
        destruct (Z.of_nat attempt <? maxRetries settings); stepped.
  - destruct (Z.of_nat attempt <? maxRetries settings); stepped.
  - destruct (Z.of_nat attempt <? maxRetries settings); stepped.
Qed.

End OlderLoop.

Lemma legacyBackoff_closed (baseDelay : Z) (n : nat) :
  legacyBackoff baseDelay n = baseDelay * (2 ^ Z.of_nat n - 1).
Proof.
  unfold legacyBackoff. induction n as [|n IH]; [simpl; lia|].
  rewrite seq_S, map_app, fold_right_app. cbn [map fold_right Nat.add].
  assert (Hgen : forall l acc, fold_right Z.add acc l = fold_right Z.add 0 l + acc).
  { induction l as [|x l IHl]; intros acc; cbn [fold_right]; [lia|].
    rewrite (IHl acc). lia. }
  rewrite Hgen, IH. unfold Legacy.calculateDelay.
  rewrite Nat2Z.inj_succ, Z.pow_succ_r by lia. lia.
Qed.

Section OlderWaits.
Context {H : Host}.
Variable env : Env.
Variable settings : Settings.

Lemma Older_afterLoop_spec (lastError : option JsError) (w : World) :
  Older.afterLoop (A := Response) lastError w
  = (Throw (match lastError with Some e => e | None => Error_ retryLimitMessage end),
     mkWorld (ticks w) (calls w) (aborted w)
       (trace w ++ [EvErrorUI (PayloadOf (match lastError with
                                          | Some e => e
                                          | None => Error_ retryLimitMessage
                                          end))])).
Proof. reflexivity. Qed.

Lemma Older_forLoop_S (rest attempt : nat) (lastError : option JsError) (w : World) :
  Older.forLoop env settings (S rest) attempt lastError w
  = match Older.iteration env settings attempt lastError w with
    | (Normal (Exit r), w1) => (Normal r, w1)
    | (Normal (Next lastError'), w1) =>
        Older.forLoop env settings rest (S attempt) lastError' w1
    | (Throw e, w1) => (Throw e, w1)
    end.
Proof.
  cbn [Older.forLoop]. unfold bind.
  destruct (Older.iteration env settings attempt lastError w) as [[[r|le]|e] w1];
    reflexivity.
Qed.

(** The waits of the older loop from the attempt [attempt] on: those of
    the attempts that follow one another, one each. *)
Lemma Older_forLoop_waits (remaining attempt : nat) (lastError : option JsError)
    (w : World) :
  remaining = 0%nat \/ Z.of_nat attempt + Z.of_nat remaining = maxRetries settings + 1 ->
  exists k ext,
    (k <= Nat.pred remaining)%nat
    /\ trace (snd (Older.forLoop env settings remaining attempt lastError w))
       = trace w ++ ext
    /\ waitsOf ext = map (Older.delayFor settings) (seq attempt k).
Proof.
  revert attempt lastError w.
  induction remaining as [|rest IH]; intros attempt lastError w Hlink.
  - exists 0%nat. eexists. cbn [Older.forLoop]. rewrite Older_afterLoop_spec.
    cbn [snd trace].
    split; [lia | split; reflexivity].
  - destruct Hlink as [Hz | Hlink]; [discriminate Hz|].
    rewrite Older_forLoop_S.
    destruct (Older_iteration_spec env settings attempt lastError w)
      as [step [ext1 [E1 [_ [T1 W1]]]]].
    destruct (Older.iteration env settings attempt lastError w) as [res w1].
    cbn [fst snd] in E1, T1. subst res. destruct step as [r | lastError'].
    + exists 0%nat, ext1. cbn [snd]. split; [lia | split; [exact T1 | exact W1]].
    + unfold olderWait in W1.
      destruct (Z.ltb_spec (Z.of_nat attempt) (maxRetries settings)) as [Hlt|Hge].
      * destruct (IH (S attempt) lastError' w1) as [k2 [ext2 [K2 [T2 W2]]]]; [right; lia|].
        exists (S k2), (ext1 ++ ext2). split; [lia|]. split.
        -- rewrite T2, T1, app_assoc. reflexivity.
        -- rewrite waitsOf_app, W1, W2. reflexivity.
      * assert (rest = 0%nat) by lia. subst rest.
        destruct (IH (S attempt) lastError' w1) as [k2 [ext2 [K2 [T2 W2]]]];
          [left; reflexivity|].
        assert (k2 = 0%nat) by (simpl in K2; lia). subst k2.
        exists 0%nat, (ext1 ++ ext2). split; [lia|]. split.
        -- rewrite T2, T1, app_assoc. reflexivity.
        -- rewrite waitsOf_app, W1, W2. reflexivity.
Qed.

(** When every call fails, the older loop makes them all and keeps the
    error of the last. *)
Lemma Older_iteration_failed (attempt : nat) (lastError : option JsError) (w : World)
    (e : JsError) :
  failureOf (originalFetch env (calls w)) = Some e ->
  exists w',
    Older.iteration env settings attempt lastError w = (Normal (Next (Some e)), w')
    /\ calls w' = S (calls w)
    /\ exists ext, trace w' = trace w ++ ext /\ forallb notErrorUI ext = true.
Proof.
  unfold failureOf, Older.iteration, Older.tryBlock, Older.catchBlock.
  unfold tryCatch, bind, callOriginalFetch, originalFetchCall, await, nonOkBranch, clone,
    readText, bodyText, suspend, delay, when, emit, ret, throw, tryCatch, bind.
  destruct (originalFetch env (calls w)) as [r|e'|e'];
    cbn [fst snd calls trace ticks aborted].
  - destruct (ok r); cbn [negb].
    + destruct (bodyAccess r) as [text| |e'']; try discriminate.
      intros E. injection E as <-.
      destruct (Z.of_nat attempt <? maxRetries settings);
        cbn [fst snd calls trace ticks aborted];
        eexists; (split; [reflexivity|]); (split; [reflexivity|]);
        eexists; (split; [cbn [trace]; repeat rewrite <- app_assoc; reflexivity|]);
        reflexivity.
    + intros E. injection E as <-.
      destruct (bodyAccess r) as [text| |e''];
        destruct (Z.of_nat attempt <? maxRetries settings);
        cbn [fst snd calls trace ticks aborted];
        eexists; (split; [reflexivity|]); (split; [reflexivity|]);
        eexists; (split; [cbn [trace]; repeat rewrite <- app_assoc; reflexivity|]);
        reflexivity.
  - intros E. injection E as <-.
    destruct (Z.of_nat attempt <? maxRetries settings);
      cbn [fst snd calls trace ticks aborted];
      eexists; (split; [reflexivity|]); (split; [reflexivity|]);
      eexists; (split; [cbn [trace]; repeat rewrite <- app_assoc; reflexivity|]);
      reflexivity.
  - intros E. injection E as <-.
    destruct (Z.of_nat attempt <? maxRetries settings);
      cbn [fst snd calls trace ticks aborted];
      eexists; (split; [reflexivity|]); (split; [reflexivity|]);
      eexists; (split; [cbn [trace]; repeat rewrite <- app_assoc; reflexivity|]);
      reflexivity.
Qed.

Lemma Older_forLoop_all_failed (remaining attempt : nat) (lastError : option JsError)
    (w : World) :
  (forall i, (i < remaining)%nat ->
             exists e, failureOf (originalFetch env (calls w + i)) = Some e) ->
  exists w' ext,
    Older.forLoop env settings remaining attempt lastError w
    = (Throw (match remaining with
              | O => match lastError with
                     | Some e => e
                     | None => Error_ retryLimitMessage
                     end
              | S n => match failureOf (originalFetch env (calls w + n)) with
                       | Some e => e
                       | None => Error_ retryLimitMessage
                       end
              end), w')
    /\ calls w' = (calls w + remaining)%nat
    /\ trace w' = trace w ++ ext
         ++ [EvErrorUI (PayloadOf (match remaining with
                                   | O => match lastError with
                                          | Some e => e
                                          | None => Error_ retryLimitMessage
                                          end
                                   | S n =>
                                       match failureOf (originalFetch env (calls w + n)) with
                                       | Some e => e
                                       | None => Error_ retryLimitMessage
                                       end
                                   end))]
    /\ forallb notErrorUI ext = true.
Proof.
  revert attempt lastError w.
  induction remaining as [|rest IH]; intros attempt lastError w Hall.
  - cbn [Older.forLoop]. rewrite Older_afterLoop_spec. eexists _, [].
    split; [reflexivity|]. cbn [calls trace app].
    split; [lia|]. split; reflexivity.
  - destruct (Hall 0%nat ltac:(lia)) as [e He]. rewrite Nat.add_0_r in He.
    destruct (Older_iteration_failed attempt lastError w He)
      as [w1 [E1 [C1 [ext1 [T1 P1]]]]].
    rewrite Older_forLoop_S, E1.
    destruct (IH (S attempt) (Some e) w1) as [w2 [ext2 [E2 [C2 [T2 P2]]]]].
    { intros i Hi. rewrite C1. replace (S (calls w) + i)%nat with (calls w + S i)%nat by lia.
      apply Hall. lia. }
    exists w2, (ext1 ++ ext2). rewrite E2, C2, T2, T1, C1.
    assert (Hlast : match rest with
                    | O => e
                    | S n => match failureOf (originalFetch env (S (calls w) + n)) with
                             | Some e0 => e0
                             | None => Error_ retryLimitMessage
                             end
                    end
                    = match failureOf (originalFetch env (calls w + rest)) with
                      | Some e0 => e0
                      | None => Error_ retryLimitMessage
                      end).
    { destruct rest as [|n].
      - rewrite Nat.add_0_r, He. reflexivity.
      - replace (S (calls w) + n)%nat with (calls w + S n)%nat by lia. reflexivity. }
    rewrite Hlast. split; [reflexivity|]. split; [lia|]. split.
    + rewrite <- !app_assoc. reflexivity.
    + rewrite forallb_app, P1, P2. reflexivity.
Qed.

End OlderWaits.

(** X29: The waits of a call of the older revision are those of the attempts
    0, 1, 2, ... in this order, each twice the one before, and at most
    [maxRetries] of them: with a numeric [baseDelay] they add up to
    [baseDelay * (2 ^ k - 1)] for [k] waits. *)
Theorem Older_enhancedFetch_backoff {H : Host} (env : Env) (settings : Settings)
    (url : UrlArg) :
  exists k,
    Z.of_nat k <= Z.max 0 (maxRetries settings)
    /\ waitsOf (trace (snd (Older.run env settings url)))
       = map (Older.delayFor settings) (seq 0 k)
    /\ forall b, baseDelay settings = Some b ->
         fold_right Z.add 0 (waitsOf (trace (snd (Older.run env settings url))))
         = b * (2 ^ Z.of_nat k - 1).
Proof.
  assert (Hmain : exists k,
             Z.of_nat k <= Z.max 0 (maxRetries settings)
             /\ waitsOf (trace (snd (Older.run env settings url)))
                = map (Older.delayFor settings) (seq 0 k)).
  { unfold Older.run, Older.enhancedFetch.
    assert (Hcall : exists k,
               Z.of_nat k <= Z.max 0 (maxRetries settings)
               /\ waitsOf (trace (snd (callOriginalFetch env None (initialWorld None))))
                  = map (Older.delayFor settings) (seq 0 k)).
    { exists 0%nat. split; [lia|].
      rewrite (proj1 (proj2 (callOriginalFetch_first env None))). reflexivity. }
    assert (Hpass : exists k,
               Z.of_nat k <= Z.max 0 (maxRetries settings)
               /\ waitsOf (trace (snd (passThrough env None (initialWorld None))))
                  = map (Older.delayFor settings) (seq 0 k)).
    { exists 0%nat. split; [lia|]. pose proof (passThrough_first env None) as Hp.
      destruct (originalFetch env 0); rewrite (proj1 (proj2 Hp)); reflexivity. }
    destruct (negb (enabled settings)); [exact Hcall|].
    destruct (Older.shouldIntercept settings (urlText url)); [|exact Hpass].
    destruct (@Older_forLoop_waits env settings (Z.to_nat (maxRetries settings + 1))
                0%nat None (initialWorld None)) as [k [ext [K [T W]]]]; [lia|].
    exists k. split; [lia|]. rewrite T. exact W. }
  destruct Hmain as [k [K W]]. exists k. split; [exact K|]. split; [exact W|].
  intros b Hb. rewrite W, <- legacyBackoff_closed. unfold legacyBackoff.
  f_equal. apply map_ext. intros a. unfold Older.delayFor. rewrite Hb. reflexivity.
Qed.

Lemma Older_enhancedFetch_backoff_witness :
  exists k,
    Z.of_nat k <= Z.max 0 (maxRetries (apiSettings 2))
    /\ waitsOf (trace (snd (Older.run (H := literalHost) emptyEnv (apiSettings 2) apiUrl)))
       = map (Older.delayFor (apiSettings 2)) (seq 0 k)
    /\ forall b, baseDelay (apiSettings 2) = Some b ->
         fold_right Z.add 0
           (waitsOf (trace (snd (Older.run (H := literalHost) emptyEnv (apiSettings 2)
                                   apiUrl))))
         = b * (2 ^ Z.of_nat k - 1).
Proof.
  apply (@Older_enhancedFetch_backoff literalHost emptyEnv (apiSettings 2) apiUrl).
Defined.

(** The waits of the older revision when every answer is empty and two
    retries are allowed: one second, then two. *)
Example Older_backoff_doubles :
  waitsOf (trace (snd (Older.run (H := literalHost) emptyEnv (apiSettings 2) apiUrl)))
  = [1000; 2000].
Proof. reflexivity. Qed.

(** X30: The older revision retries every failure, a cancellation like any
    other: when each of the [maxRetries + 1] calls fails, all of them are
    made, the error of the last is raised, and the error UI shows it. *)
Theorem Older_enhancedFetch_retries_every_failure {H : Host} (env : Env)
    (settings : Settings) (url : UrlArg) :
  enabled settings = true ->
  Older.shouldIntercept settings (urlText url) = true ->
  0 <= maxRetries settings ->
  (forall n, Z.of_nat n <= maxRetries settings ->
             exists e, failureOf (originalFetch env n) = Some e) ->
  exists e,
    failureOf (originalFetch env (Z.to_nat (maxRetries settings))) = Some e
    /\ fst (Older.run env settings url) = Throw e
    /\ calls (snd (Older.run env settings url)) = S (Z.to_nat (maxRetries settings))
    /\ exists ext, trace (snd (Older.run env settings url))
                   = ext ++ [EvErrorUI (PayloadOf e)]
                   /\ forallb notErrorUI ext = true.
Proof.
  intros Hen Hs Hmax Hall. unfold Older.run, Older.enhancedFetch. rewrite Hen, Hs.
  cbn [negb].
  destruct (Hall (Z.to_nat (maxRetries settings)) ltac:(lia)) as [e He].
  exists e. split; [exact He|].
  assert (Hrem : Z.to_nat (maxRetries settings + 1) = S (Z.to_nat (maxRetries settings)))
    by lia.
  rewrite Hrem.
  destruct (@Older_forLoop_all_failed env settings (S (Z.to_nat (maxRetries settings)))
              0%nat None (initialWorld None)) as [w' [ext [E [C [T P]]]]].
  { intros i Hi. apply (Hall i). lia. }
  cbn [calls initialWorld Nat.add] in E, C, T. rewrite He in E, T.
  rewrite E. cbn [fst snd]. split; [reflexivity|]. split; [exact C|].
  exists ext. split; [exact T | exact P].
Qed.

Lemma Older_enhancedFetch_retries_every_failure_witness :
  exists e,
    failureOf (originalFetch abortingEnv (Z.to_nat (maxRetries (apiSettings 2)))) = Some e
    /\ fst (Older.run (H := literalHost) abortingEnv (apiSettings 2) apiUrl) = Throw e
    /\ calls (snd (Older.run (H := literalHost) abortingEnv (apiSettings 2) apiUrl))
       = S (Z.to_nat (maxRetries (apiSettings 2)))
    /\ exists ext,
         trace (snd (Older.run (H := literalHost) abortingEnv (apiSettings 2) apiUrl))
         = ext ++ [EvErrorUI (PayloadOf e)]
         /\ forallb notErrorUI ext = true.
Proof.
  apply (@Older_enhancedFetch_retries_every_failure literalHost abortingEnv
           (apiSettings 2) apiUrl).
  - reflexivity.
  - reflexivity.
  - simpl. lia.
  - intros n _. exists abortError. reflexivity.
Defined.

(** The same cancellation under the two revisions: the older one makes
    three calls and shows the error, the current one makes one call and
    shows nothing. *)
Example cancellation_old_and_new :
  calls (snd (Older.run (H := literalHost) abortingEnv (apiSettings 2) apiUrl)) = 3%nat
  /\ calls (snd (run (H := literalHost) abortingEnv (apiSettings 2) None apiUrl)) = 1%nat
  /\ trace (snd (run (H := literalHost) abortingEnv (apiSettings 2) None apiUrl))
     = [EvFetch 0].
Proof. repeat split. Qed.
